(** * Side Bets Tracker: the settlement engine [computeDeltas]

    Shallow embedding of the two variants of [computeDeltas] found in the
    repository,

    - [src/src/App.tsx]       (module [App], the variant with [soloDouble]),
    - [src/unnamed/part_000]  (module [Part000], the variant with the inline
                               sanity tests),

    and proofs of the settlement properties: zero-sum rows, the stake
    formula, the team and individual pay-outs, the carry counter, the par
    fallback, and the relation between the two variants.

    ** Numbers

    A TypeScript [number] that the code inspects ([s !== ""], [v < best],
    [Math.min], [Number.isFinite], [hole.par || 4]) is modelled by [num]: an
    exact rational or one of [NaN], [Infinity], [-Infinity].  Money (the
    wager, stakes, deltas, totals) is modelled by exact canonical rationals
    [Qc]: the rounding of IEEE doubles and non-finite wagers are outside the
    model, [-0] and [0] are identified.  The carry counter and the team sizes
    are natural numbers. *)

From Stdlib Require Import String Ascii.
From Stdlib Require Import List Arith Lia Bool ZArith QArith Qcanon Field Sorted.
Import ListNotations.

Open Scope Qc_scope.

(* ================================================================== *)
(** * Numbers *)

Definition ofZ (z : Z) : Qc := Q2Qc (inject_Z z).
Definition ofNat (n : nat) : Qc := ofZ (Z.of_nat n).

Definition Qc_ltb (x y : Qc) : bool :=
  match x ?= y with Lt => true | _ => false end.
Definition Qc_eqb (x y : Qc) : bool :=
  match x ?= y with Eq => true | _ => false end.

(** A JavaScript number, up to rounding. *)
Inductive num : Type :=
| NaN
| NegInf
| PosInf
| Fin (q : Qc).

(** [Number.isFinite(x)] and the global [isFinite(x)] on a number. *)
Definition isFinite (x : num) : bool :=
  match x with Fin _ => true | _ => false end.

(** [a < b] *)
Definition num_lt (a b : num) : bool :=
  match a, b with
  | NaN, _ | _, NaN => false
  | NegInf, NegInf => false
  | NegInf, _ => true
  | _, NegInf => false
  | PosInf, _ => false
  | Fin _, PosInf => true
  | Fin x, Fin y => Qc_ltb x y
  end.

(** [a === b] on numbers *)
Definition num_seq (a b : num) : bool :=
  match a, b with
  | NegInf, NegInf => true
  | PosInf, PosInf => true
  | Fin x, Fin y => Qc_eqb x y
  | _, _ => false
  end.

(** [a <= b] *)
Definition num_le (a b : num) : bool := num_lt a b || num_seq a b.

(** [Math.min(a, b)] *)
Definition Math_min (a b : num) : num :=
  match a, b with
  | NaN, _ | _, NaN => NaN
  | _, _ => if num_lt b a then b else a
  end.

(** [a - b] *)
Definition num_sub (a b : num) : num :=
  match a, b with
  | NaN, _ | _, NaN => NaN
  | PosInf, PosInf | NegInf, NegInf => NaN
  | PosInf, _ => PosInf
  | NegInf, _ => NegInf
  | Fin _, PosInf => NegInf
  | Fin _, NegInf => PosInf
  | Fin x, Fin y => Fin (x - y)
  end.

(** A cell of type [number | ""]: the empty string of a cleared input, or a
    number. *)
Inductive cell : Type :=
| Blank
| Num (n : num).

(* ================================================================== *)
(** * Data shared by the two variants *)

Inductive TeamPick : Type := T1 | T2 | Sit.

Definition TeamPick_eqb (a b : TeamPick) : bool :=
  match a, b with
  | T1, T1 | T2, T2 | Sit, Sit => true
  | _, _ => false
  end.

(** White space removed by [String.prototype.trim], on the ASCII range. *)
Definition isSpace (c : ascii) : bool :=
  let n := nat_of_ascii c in
  (n =? 32) || (n =? 9) || (n =? 10) || (n =? 11) || (n =? 12) || (n =? 13).

(** [p.trim() !== ""]: some character of [p] is not white space.  On a
    string [p && p.trim()] has the same truth value. *)
Fixpoint trimNonEmpty (p : string) : bool :=
  match p with
  | EmptyString => false
  | String c r => negb (isSpace c) || trimNonEmpty r
  end.

(** [players.forEach((p, i) => { if (p.trim() !== "") activeIdx.push(i) })],
    counting from slot [i]. *)
Fixpoint activeFrom (i : nat) (players : list string) : list nat :=
  match players with
  | [] => []
  | p :: ps =>
      if trimNonEmpty p then i :: activeFrom (S i) ps else activeFrom (S i) ps
  end.

Definition activeIdx (players : list string) : list nat := activeFrom 0 players.

(** A row of the delta matrix.  [Array(nPlayers).fill(0)]. *)
Definition zeroRow (n : nat) : list Qc := repeat 0 n.

(** [row[i] = f(row[i])] for an index inside the row.  Every index the engine
    writes is an active index below [nPlayers] (lemma [team_bound]), so the
    extension of a JavaScript array by a write past its end never occurs;
    here such a write leaves the row as it is. *)
Fixpoint upd (row : list Qc) (i : nat) (f : Qc -> Qc) : list Qc :=
  match row, i with
  | [], _ => []
  | x :: r, O => f x :: r
  | x :: r, S j => x :: upd r j f
  end.

Definition sumRow (row : list Qc) : Qc := fold_right Qcplus 0 row.

(** [row.forEach((v, i) => (totals[i] += v))], counting from column [i]. *)
Fixpoint addRowFrom (i : nat) (row totals : list Qc) : list Qc :=
  match row with
  | [] => totals
  | v :: r => addRowFrom (S i) r (upd totals i (fun t => t + v))
  end.

(** [deltas.forEach((row) => row.forEach(...))] *)
Definition sumColumns (n : nat) (deltas : list (list Qc)) : list Qc :=
  fold_left (fun totals row => addRowFrom 0 row totals) deltas (zeroRow n).

(** The loop that fills [t1] and [t2]:
    [for (aj = 0; aj < nPlayers; aj++) if (teamPicks[activeIdx[aj]] === tp) push(aj)].
    A pick read past the end of [teamPicks] is [undefined], which is neither
    ["T1"] nor ["T2"]. *)
Definition pickIs (tp : TeamPick) (picks : list TeamPick) (oi : nat) : bool :=
  match nth_error picks oi with
  | Some p => TeamPick_eqb p tp
  | None => false
  end.

Definition teamOf (tp : TeamPick) (idx : list nat) (picks : list TeamPick) : list nat :=
  filter (fun aj => pickIs tp picks (nth aj idx 0%nat)) (seq 0 (length idx)).

(** [hole.scores[oi]].  A score read past the end of [scores] is [undefined]:
    it is not [""], and [Number(undefined)] is [NaN]. *)
Definition readScore (scores : list cell) (oi : nat) : cell :=
  nth oi scores (Num NaN).

(* ================================================================== *)
(** * [src/src/App.tsx] *)

Module App.

Record Settings : Type := {
  wager : Qc;
  carryOver : bool;
  soloDouble : bool;
  birdieDouble : bool;
  eagleTriple : bool
}.

Record HoleState : Type := {
  par : cell;
  teamPicks : list TeamPick;
  scores : list cell
}.

(** Lines 124-127.  [par] has type [number | ""], so the
    [typeof pRaw === "string"] branch only ever sees [""], whose trim is
    empty: it never assigns. *)
Definition holePar (h : HoleState) : num :=
  match par h with
  | Num pRaw =>
      if isFinite pRaw && num_le (Fin (ofZ 3)) pRaw then pRaw else Fin (ofZ 4)
  | Blank => Fin (ofZ 4)
  end.

(** Lines 138-145, with the captured [carry] and [par] as arguments. *)
Definition stakeForScore (s : Settings) (carry : nat) (par : num)
    (winningBest : num) : Qc :=
  let baseUnits := 1 + (if carryOver s then ofNat carry else 0) in
  let rel := num_sub winningBest par in
  let mult :=
    if eagleTriple s && num_le rel (Fin (ofZ (-2))) then ofZ 3
    else if birdieDouble s && num_seq rel (Fin (ofZ (-1))) then ofZ 2
    else 1 in
  wager s * baseUnits * mult.

(** Lines 147-158. *)
Definition teamBest (idx : list nat) (h : HoleState) (team : list nat) : num :=
  fold_left
    (fun best aj =>
       match readScore (scores h) (nth aj idx 0%nat) with
       | Blank => best
       | Num v => if num_lt v best then v else best
       end)
    team PosInf.

(** Lines 163-168. *)
Definition soloBest (idx : list nat) (h : HoleState) (participants : list nat) : num :=
  fold_left
    (fun best aj =>
       match readScore (scores h) (nth aj idx 0%nat) with
       | Blank => best
       | Num v => Math_min best v
       end)
    participants PosInf.

(** Lines 171-176. *)
Definition bestList (idx : list nat) (h : HoleState) (participants : list nat)
    (best : num) : list nat :=
  filter
    (fun aj =>
       match readScore (scores h) (nth aj idx 0%nat) with
       | Blank => false
       | Num v => num_seq v best
       end)
    participants.

(** Lines 185-189. *)
Definition paySolo (participants : list nat) (winner : nat) (stake : Qc)
    (row : list Qc) : list Qc :=
  fold_left
    (fun row aj =>
       if (aj =? winner)%nat then row
       else upd (upd row aj (fun d => d - stake)) winner (fun d => d + stake))
    participants row.

(** Lines 213-220. *)
Definition perWinnerGain (s : Settings) (W L : nat) (stake : Qc) : Qc :=
  let gain := if (L <=? W)%nat then stake else stake * (ofNat L / ofNat W) in
  if soloDouble s && ((W =? 1)%nat && (2 <=? L)%nat) then gain * ofZ 2 else gain.

Definition perLoserLoss (s : Settings) (W L : nat) (stake : Qc) : Qc :=
  let loss := if (L <? W)%nat then stake * (ofNat W / ofNat L) else stake in
  if soloDouble s && ((W =? 1)%nat && (2 <=? L)%nat) then loss * ofZ 2 else loss.

(** Lines 222-223. *)
Definition payTeams (winners losers : list nat) (gain loss : Qc)
    (row : list Qc) : list Qc :=
  fold_left (fun row aj => upd row aj (fun d => d - loss)) losers
    (fold_left (fun row aj => upd row aj (fun d => d + gain)) winners row).

(** [if (settings.carryOver) carry += 1] *)
Definition bump (s : Settings) (carry : nat) : nat :=
  if carryOver s then S carry else carry.

(** The individual-mode block (lines 162-191), for the row of zeros [row0]:
    the row written and the carry after it. *)
Definition settleSolo (s : Settings) (idx : list nat) (carry : nat)
    (h : HoleState) (participants : list nat) (row0 : list Qc) : list Qc * nat :=
  let best := soloBest idx h participants in
  if negb (isFinite best) then (row0, carry)
  else
    let bl := bestList idx h participants best in
    if negb (length bl =? 1)%nat then (row0, bump s carry)
    else
      let stake := stakeForScore s carry (holePar h) best in
      let winner := nth 0 bl 0%nat in
      (paySolo participants winner stake row0, 0%nat).

(** The team block (lines 196-225). *)
Definition settleTeams (s : Settings) (idx : list nat) (carry : nat)
    (h : HoleState) (t1 t2 : list nat) (row0 : list Qc) : list Qc * nat :=
  let best1 := teamBest idx h t1 in
  let best2 := teamBest idx h t2 in
  if negb (isFinite best1) || negb (isFinite best2) then (row0, carry)
  else if num_seq best1 best2 then (row0, bump s carry)
  else
    let winners := if num_lt best1 best2 then t1 else t2 in
    let losers := if num_lt best1 best2 then t2 else t1 in
    let winningBest := Math_min best1 best2 in
    let stake := stakeForScore s carry (holePar h) winningBest in
    let W := length winners in
    let L := length losers in
    (payTeams winners losers (perWinnerGain s W L stake)
       (perLoserLoss s W L stake) row0, 0%nat).

(** [(t1.length > 0 && t2.length === 0) || (t2.length > 0 && t1.length === 0)] *)
Definition onlyOneTeam (t1 t2 : list nat) : bool :=
  ((0 <? length t1)%nat && (length t2 =? 0)%nat)
  || ((0 <? length t2)%nat && (length t1 =? 0)%nat).

(** One iteration of the loop over the holes (lines 121-226): the row
    written for this hole and the carry after it.  Each [continue] leaves
    the row of zeros. *)
Definition settleHole (s : Settings) (idx : list nat) (carry : nat)
    (h : HoleState) : list Qc * nat :=
  let nPlayers := length idx in
  let t1 := teamOf T1 idx (teamPicks h) in
  let t2 := teamOf T2 idx (teamPicks h) in
  let row0 := zeroRow nPlayers in
  if onlyOneTeam t1 t2 then
    let participants := if (length t1 =? 0)%nat then t2 else t1 in
    settleSolo s idx carry h participants row0
  else if (length t1 =? 0)%nat || (length t2 =? 0)%nat then (row0, carry)
  else settleTeams s idx carry h t1 t2 row0.

(** The loop over the holes, threading [carry]: the rows and the carry left
    after the last hole. *)
Fixpoint settleAll (s : Settings) (idx : list nat) (carry : nat)
    (holes : list HoleState) : list (list Qc) * nat :=
  match holes with
  | [] => ([], carry)
  | h :: hs =>
      let rc := settleHole s idx carry h in
      let rest := settleAll s idx (snd rc) hs in
      (fst rc :: fst rest, snd rest)
  end.

Record Result : Type := {
  deltas : list (list Qc);
  totals : list Qc;
  resActiveIdx : list nat
}.

Definition computeDeltas (holes : list HoleState) (s : Settings)
    (playersAll : list string) : Result :=
  let idx := activeIdx playersAll in
  let ds := fst (settleAll s idx 0%nat holes) in
  {| deltas := ds;
     totals := sumColumns (length idx) ds;
     resActiveIdx := idx |}.

End App.

(* ================================================================== *)
(** * [src/unnamed/part_000] *)

Module Part000.

Record Settings : Type := {
  wager : Qc;
  carryOver : bool;
  birdieDouble : bool;
  eagleTriple : bool
}.

Record HoleState : Type := {
  par : num;
  teamPicks : list TeamPick;
  scores : list cell
}.

(** Line 101, [hole.par || 4]: the falsy numbers are [0] and [NaN]. *)
Definition holePar (h : HoleState) : num :=
  match par h with
  | NaN => Fin (ofZ 4)
  | Fin q => if Qc_eqb q 0 then Fin (ofZ 4) else Fin q
  | p => p
  end.

(** Lines 112-119, with the captured [carry] and [par] as arguments. *)
Definition computeBaseStake (s : Settings) (carry : nat) (par : num)
    (winningBest : num) : Qc :=
  let units := 1 + (if carryOver s then ofNat carry else 0) in
  let rel := num_sub winningBest par in
  let multiplier :=
    if eagleTriple s && num_le rel (Fin (ofZ (-2))) then ofZ 3
    else if birdieDouble s && num_seq rel (Fin (ofZ (-1))) then ofZ 2
    else 1 in
  wager s * units * multiplier.

(** [s === "" ? Infinity : Number(s)] (lines 125-129 and 154-158). *)
Definition scoreOrInf (idx : list nat) (h : HoleState) (aj : nat) : num :=
  match readScore (scores h) (nth aj idx 0%nat) with
  | Blank => PosInf
  | Num v => v
  end.

(** [Math.min(...vals)]; the minimum of no value is [Infinity]. *)
Definition minOf (vals : list num) : num := fold_left Math_min vals PosInf.

(** Lines 153-160. *)
Definition bestOfTeam (idx : list nat) (h : HoleState) (team : list nat) : num :=
  minOf (map (scoreOrInf idx h) team).

(** Lines 133-134: the participants whose score is [=== best]. *)
Definition lowCompressed (idx : list nat) (h : HoleState)
    (participants : list nat) (best : num) : list nat :=
  filter (fun aj => num_seq (scoreOrInf idx h aj) best) participants.

(** Lines 144-145. *)
Definition paySolo (losers : list nat) (winner : nat) (baseStake : Qc)
    (row : list Qc) : list Qc :=
  upd (fold_left (fun row aj => upd row aj (fun d => d - baseStake)) losers row)
    winner (fun d => d + baseStake * ofNat (length losers)).

(** Lines 186-187. *)
Definition payTeams (winners losers : list nat) (perWinner perLoser : Qc)
    (row : list Qc) : list Qc :=
  fold_left (fun row aj => upd row aj (fun d => d + perWinner)) winners
    (fold_left (fun row aj => upd row aj (fun d => d - perLoser)) losers row).

(** [if (settings.carryOver) carry += 1] *)
Definition bump (s : Settings) (carry : nat) : nat :=
  if carryOver s then S carry else carry.

(** The individual-mode block (lines 124-148), for the row of zeros [row0]:
    the row written and the carry after it. *)
Definition settleSolo (s : Settings) (idx : list nat) (carry : nat)
    (h : HoleState) (participants : list nat) (row0 : list Qc) : list Qc * nat :=
  let best := minOf (map (scoreOrInf idx h) participants) in
  if negb (isFinite best) then (row0, carry)
  else
    let low := lowCompressed idx h participants best in
    if negb (length low =? 1)%nat then (row0, bump s carry)
    else
      let winner := nth 0 low 0%nat in
      let losers := filter (fun aj => negb (aj =? winner)%nat) participants in
      let baseStake := computeBaseStake s carry (holePar h) best in
      (paySolo losers winner baseStake row0, 0%nat).

(** The team block (lines 162-189). *)
Definition settleTeams (s : Settings) (idx : list nat) (carry : nat)
    (h : HoleState) (t1 t2 : list nat) (row0 : list Qc) : list Qc * nat :=
  let best1 := bestOfTeam idx h t1 in
  let best2 := bestOfTeam idx h t2 in
  if negb (isFinite best1) || negb (isFinite best2) then (row0, carry)
  else if num_seq best1 best2 then (row0, bump s carry)
  else
    let winners := if num_lt best1 best2 then t1 else t2 in
    let losers := if num_lt best1 best2 then t2 else t1 in
    let winningBest := Math_min best1 best2 in
    let baseStake := computeBaseStake s carry (holePar h) winningBest in
    if (length winners =? 0)%nat || (length losers =? 0)%nat then (row0, carry)
    else
      let W := length winners in
      let L := length losers in
      let perLoser := baseStake * (if (L <? W)%nat then ofNat W / ofNat L else 1) in
      let perWinner := baseStake * (if (W <? L)%nat then ofNat L / ofNat W else 1) in
      (payTeams winners losers perWinner perLoser row0, 0%nat).

(** [(t1.length > 0 && t2.length === 0) || (t2.length > 0 && t1.length === 0)] *)
Definition onlyOneTeam (t1 t2 : list nat) : bool :=
  ((0 <? length t1)%nat && (length t2 =? 0)%nat)
  || ((0 <? length t2)%nat && (length t1 =? 0)%nat).

(** One call of the [holes.forEach] callback (lines 100-190): the row
    written for this hole and the carry after it.  Each [return] leaves the
    row of zeros. *)
Definition settleHole (s : Settings) (idx : list nat) (carry : nat)
    (h : HoleState) : list Qc * nat :=
  let nPlayers := length idx in
  let t1 := teamOf T1 idx (teamPicks h) in
  let t2 := teamOf T2 idx (teamPicks h) in
  let row0 := zeroRow nPlayers in
  if onlyOneTeam t1 t2 then
    let participants := if (0 <? length t1)%nat then t1 else t2 in
    settleSolo s idx carry h participants row0
  else if (length t1 =? 0)%nat || (length t2 =? 0)%nat then (row0, carry)
  else settleTeams s idx carry h t1 t2 row0.

(** The [forEach] over the holes, threading [carry]. *)
Fixpoint settleAll (s : Settings) (idx : list nat) (carry : nat)
    (holes : list HoleState) : list (list Qc) * nat :=
  match holes with
  | [] => ([], carry)
  | h :: hs =>
      let rc := settleHole s idx carry h in
      let rest := settleAll s idx (snd rc) hs in
      (fst rc :: fst rest, snd rest)
  end.

Record Result : Type := {
  deltas : list (list Qc);
  totals : list Qc
}.

Definition computeDeltas (holes : list HoleState) (s : Settings)
    (players : list string) : Result :=
  let idx := activeIdx players in
  let ds := fst (settleAll s idx 0%nat holes) in
  {| deltas := ds; totals := sumColumns (length idx) ds |}.

End Part000.

(* ================================================================== *)
(** * Notions used to state the properties *)

(** Adding [x] at each index of [l], one write after the other: the shape of
    every [forEach] / [for ... of] loop that pays a group. *)
Definition addAt (x : Qc) (l : list nat) (row : list Qc) : list Qc :=
  fold_left (fun row aj => upd row aj (fun d => d + x)) l row.

(** ** The stake, in the words of the specification (section 4.4)

    [multiplier = 3 if tripleOnTwoOrMoreBelowTarget and winningBest <= target - 2,
     else 2 if doubleOnOneBelowTarget and winningBest == target - 1, else 1],
    [stake = unitWager * (1 + (carryOverEnabled ? carry : 0)) * multiplier]. *)
Definition spec_multiplier (double triple : bool) (target : num)
    (winningBest : Qc) : Qc :=
  if triple && num_le (Fin winningBest) (num_sub target (Fin (ofZ 2))) then ofZ 3
  else if double && num_seq (Fin winningBest) (num_sub target (Fin (ofZ 1))) then ofZ 2
  else 1.

Definition spec_stake (unitWager : Qc) (carryOverEnabled : bool) (carry : nat)
    (double triple : bool) (target : num) (winningBest : Qc) : Qc :=
  unitWager * (1 + (if carryOverEnabled then ofNat carry else 0))
    * spec_multiplier double triple target winningBest.

(** ** Rounds, in the words of the specification (sections 4.1-4.3) *)

(** The recorded value of the active player [aj], if any: a (finite)
    numeric score. *)
Definition recorded (idx : list nat) (scores : list cell) (aj : nat) : option Qc :=
  match readScore scores (nth aj idx 0%nat) with
  | Num (Fin q) => Some q
  | _ => None
  end.

Definition Qc_min (x y : Qc) : Qc := if Qc_ltb y x then y else x.

Definition lower (best : option Qc) (v : option Qc) : option Qc :=
  match v, best with
  | None, _ => best
  | Some q, None => Some q
  | Some q, Some m => Some (Qc_min m q)
  end.

(** The best value of a group: the minimum recorded value among its members
    that have one. *)
Definition groupBest (idx : list nat) (scores : list cell) (group : list nat)
    : option Qc :=
  fold_left (fun best aj => lower best (recorded idx scores aj)) group None.

(** The members of a group whose recorded value is [v]. *)
Definition holders (idx : list nat) (scores : list cell) (group : list nat)
    (v : Qc) : list nat :=
  filter
    (fun aj =>
       match recorded idx scores aj with
       | Some q => Qc_eqb q v
       | None => false
       end)
    group.

Inductive RoundKind : Type := Degenerate | Void | Tie | Settled.

(** Individual mode (4.2): void when nobody has a recorded value, settled
    when a unique member holds the minimum, a tie otherwise. *)
Definition soloKind (idx : list nat) (scores : list cell) (group : list nat)
    : RoundKind :=
  match groupBest idx scores group with
  | None => Void
  | Some m =>
      if (length (holders idx scores group m) =? 1)%nat then Settled else Tie
  end.

(** Team mode (4.3): void when a group has no recorded value, a tie when the
    two bests are equal, settled otherwise. *)
Definition teamKind (idx : list nat) (scores : list cell) (gA gB : list nat)
    : RoundKind :=
  match groupBest idx scores gA, groupBest idx scores gB with
  | Some a, Some b => if Qc_eqb a b then Tie else Settled
  | _, _ => Void
  end.

(** The classification of a round (4.1). *)
Definition roundKind (idx : list nat) (picks : list TeamPick)
    (scores : list cell) : RoundKind :=
  let gA := teamOf T1 idx picks in
  let gB := teamOf T2 idx picks in
  match gA, gB with
  | [], [] => Degenerate
  | _ :: _, [] => soloKind idx scores gA
  | [], _ :: _ => soloKind idx scores gB
  | _ :: _, _ :: _ => teamKind idx scores gA gB
  end.

(** The carry after a round of kind [k], as the code threads it. *)
Definition carryStep (carryOverEnabled : bool) (k : RoundKind) (carry : nat) : nat :=
  match k with
  | Tie => if carryOverEnabled then S carry else carry
  | Settled => 0%nat
  | Void | Degenerate => carry
  end.

(** A cell of the data model of the specification: no value, or a finite
    numeric score. *)
Definition cleanCell (c : cell) : bool :=
  match c with
  | Blank | Num (Fin _) => true
  | Num _ => false
  end.

Definition cleanGroup (idx : list nat) (scores : list cell) (group : list nat)
    : bool :=
  forallb (fun aj => cleanCell (readScore scores (nth aj idx 0%nat))) group.

(** Every member of the two groups of the round has such a cell. *)
Definition wellFormed (idx : list nat) (picks : list TeamPick)
    (scores : list cell) : bool :=
  cleanGroup idx scores (teamOf T1 idx picks)
  && cleanGroup idx scores (teamOf T2 idx picks).

(** [Infinity] for a group without recorded value. *)
Definition toNum (o : option Qc) : num :=
  match o with
  | Some q => Fin q
  | None => PosInf
  end.

(** ** A unique holder of the minimum (4.2) *)

(** The cell has no recorded value, or a recorded value strictly above [v]. *)
Definition beats (v : Qc) (c : cell) : bool :=
  match c with
  | Blank => true
  | Num (Fin u) => Qc_ltb v u
  | Num _ => false
  end.

(** In [group], [winner] has the recorded value [v] and every other member
    has no recorded value or a strictly greater one. *)
Definition uniqueLow (idx : list nat) (scores : list cell) (group : list nat)
    (winner : nat) (v : Qc) : bool :=
  existsb (fun aj => (aj =? winner)%nat) group
  && match recorded idx scores winner with
     | Some q => Qc_eqb q v
     | None => false
     end
  && forallb
       (fun aj => (aj =? winner)%nat
                  || beats v (readScore scores (nth aj idx 0%nat)))
       group.

(** The populated group of an individual-mode round: one of the two teams
    is empty. *)
Definition populated (idx : list nat) (picks : list TeamPick) : list nat :=
  teamOf T1 idx picks ++ teamOf T2 idx picks.

(** Exactly one of the two groups is non-empty. *)
Definition individualMode (idx : list nat) (picks : list TeamPick) : bool :=
  match teamOf T1 idx picks, teamOf T2 idx picks with
  | _ :: _, [] | [], _ :: _ => true
  | _, _ => false
  end.

(** ** The two sides of a team round

    [winners = best1 < best2 ? t1 : t2] and [losers = best1 < best2 ? t2 : t1],
    for the finite bests [b1] and [b2] of the two teams. *)
Definition winnersOf (idx : list nat) (picks : list TeamPick) (b1 b2 : Qc)
    : list nat :=
  if Qc_ltb b1 b2 then teamOf T1 idx picks else teamOf T2 idx picks.

Definition losersOf (idx : list nat) (picks : list TeamPick) (b1 b2 : Qc)
    : list nat :=
  if Qc_ltb b1 b2 then teamOf T2 idx picks else teamOf T1 idx picks.

(** The uneven split in the words of the specification (4.3):
    per-winner gain [stake] if [W >= L], else [stake * (L / W)];
    per-loser loss [stake * (W / L)] if [W > L], else [stake]. *)
Definition spec_gain (W L : nat) (stake : Qc) : Qc :=
  if (L <=? W)%nat then stake else stake * (ofNat L / ofNat W).

Definition spec_loss (W L : nat) (stake : Qc) : Qc :=
  if (L <? W)%nat then stake * (ofNat W / ofNat L) else stake.

(** The minority-win doubling applies: the option is on, one winner, two or
    more losers. *)
Definition minorityWin (enabled : bool) (W L : nat) : bool :=
  enabled && ((W =? 1)%nat && (2 <=? L)%nat).

(** ** More notions for the statements *)

(** No member of the group has a recorded value. *)
Definition allBlank (idx : list nat) (scores : list cell) (group : list nat) : bool :=
  forallb
    (fun aj =>
       match readScore scores (nth aj idx 0%nat) with
       | Blank => true
       | Num _ => false
       end)
    group.

(** Both groups are non-empty. *)
Definition twoSided (idx : list nat) (picks : list TeamPick) : bool :=
  match teamOf T1 idx picks, teamOf T2 idx picks with
  | _ :: _, _ :: _ => true
  | _, _ => false
  end.

(** What the carry would become if void rounds counted like ties. *)
Definition carryStep_void_counts (carryOverEnabled : bool) (k : RoundKind)
    (carry : nat) : nat :=
  match k with
  | Tie | Void => if carryOverEnabled then S carry else carry
  | Settled => 0%nat
  | Degenerate => carry
  end.

(** A par that [App.tsx] replaces by 4: empty, or not a finite number [>= 3]. *)
Definition App_parInvalid (p : cell) : bool :=
  match p with
  | Blank => true
  | Num x => negb (isFinite x && num_le (Fin (ofZ 3)) x)
  end.

Definition App_withPar (p : cell) (h : App.HoleState) : App.HoleState :=
  {| App.par := p; App.teamPicks := App.teamPicks h; App.scores := App.scores h |}.

Definition Part000_withPar (p : num) (h : Part000.HoleState) : Part000.HoleState :=
  {| Part000.par := p; Part000.teamPicks := Part000.teamPicks h;
     Part000.scores := Part000.scores h |}.

(** ** Sample data *)

(** A recorded integer score. *)
Definition score (z : Z) : cell := Num (Fin (ofZ z)).

(** A row shown as plain fractions. *)
Definition shown (row : list Qc) : list Q := map this row.

Definition appSettings (w : Qc) (carry solo birdie eagle : bool) : App.Settings :=
  {| App.wager := w; App.carryOver := carry; App.soloDouble := solo;
     App.birdieDouble := birdie; App.eagleTriple := eagle |}.

Definition partSettings (w : Qc) (carry birdie eagle : bool) : Part000.Settings :=
  {| Part000.wager := w; Part000.carryOver := carry;
     Part000.birdieDouble := birdie; Part000.eagleTriple := eagle |}.

Definition appHole (p : cell) (picks : list TeamPick) (scores : list cell)
    : App.HoleState :=
  {| App.par := p; App.teamPicks := picks; App.scores := scores |}.

Definition partHole (p : num) (picks : list TeamPick) (scores : list cell)
    : Part000.HoleState :=
  {| Part000.par := p; Part000.teamPicks := picks; Part000.scores := scores |}.

(** ** Changing the wager, comparing the variants *)

Definition App_withWager (w : Qc) (s : App.Settings) : App.Settings :=
  {| App.wager := w; App.carryOver := App.carryOver s;
     App.soloDouble := App.soloDouble s; App.birdieDouble := App.birdieDouble s;
     App.eagleTriple := App.eagleTriple s |}.

Definition Part000_withWager (w : Qc) (s : Part000.Settings) : Part000.Settings :=
  {| Part000.wager := w; Part000.carryOver := Part000.carryOver s;
     Part000.birdieDouble := Part000.birdieDouble s;
     Part000.eagleTriple := Part000.eagleTriple s |}.

(** [w] times a row, [w] times a matrix. *)
Definition scaleRow (w : Qc) (row : list Qc) : list Qc := map (Qcmult w) row.
Definition scaleRows (w : Qc) (rows : list (list Qc)) : list (list Qc) :=
  map (scaleRow w) rows.

(** The settings of [part_000] read by [App.tsx]: the same four options,
    [soloDouble] off. *)
Definition toAppSettings (s : Part000.Settings) : App.Settings :=
  {| App.wager := Part000.wager s; App.carryOver := Part000.carryOver s;
     App.soloDouble := false; App.birdieDouble := Part000.birdieDouble s;
     App.eagleTriple := Part000.eagleTriple s |}.

(** A hole of [part_000] read by [App.tsx]: its par is a number. *)
Definition toAppHole (h : Part000.HoleState) : App.HoleState :=
  {| App.par := Num (Part000.par h); App.teamPicks := Part000.teamPicks h;
     App.scores := Part000.scores h |}.

(** The par is a finite number [>= 3]. *)
Definition parFiniteGe3 (h : Part000.HoleState) : bool :=
  isFinite (Part000.par h) && num_le (Fin (ofZ 3)) (Part000.par h).

(** No score read for an active player is [NaN]; in particular [scores]
    reaches every active slot. *)
Definition noNaN (idx : list nat) (h : Part000.HoleState) : bool :=
  forallb
    (fun oi =>
       match readScore (Part000.scores h) oi with
       | Num NaN => false
       | _ => true
       end)
    idx.

(** The roster and the holes of the sanity tests of [part_000]. *)
Definition sampleIdx : list nat := activeIdx ["A"; "B"; "C"; "D"; ""]%string.

Definition sampleApp : App.Settings := appSettings 1 true true true true.
Definition samplePart : Part000.Settings := partSettings 1 true true true.

Definition samplePicks : list TeamPick := [T1; T1; T2; T2; Sit].
Definition sampleScores : list cell := [score 4; score 4; score 5; score 5; Blank].
Definition soloPicks : list TeamPick := [T1; T1; T1; T1; Sit].
Definition soloScores : list cell := [score 3; score 4; score 4; Blank; Blank].
Definition noScores : list cell := [Blank; Blank; Blank; Blank; Blank].

Definition teamHoleA : App.HoleState := appHole (score 4) samplePicks sampleScores.
Definition teamHoleP : Part000.HoleState := partHole (Fin (ofZ 4)) samplePicks sampleScores.
Definition soloHoleA : App.HoleState := appHole (score 4) soloPicks soloScores.
Definition soloHoleP : Part000.HoleState := partHole (Fin (ofZ 4)) soloPicks soloScores.
Definition voidHoleA : App.HoleState := appHole (score 4) soloPicks noScores.
Definition voidHoleP : Part000.HoleState := partHole (Fin (ofZ 4)) soloPicks noScores.
Definition blankParHole : App.HoleState := appHole Blank soloPicks soloScores.

Definition five : list string := ["A"; "B"; "C"; "D"; "E"]%string.
Definition four : list string := ["A"; "B"; "C"; "D"; ""]%string.

(** The totals of [part_000] and of [App.tsx] on the same holes. *)
Definition bothTotals (holes : list Part000.HoleState) (s : Part000.Settings)
    (players : list string) : list Q * list Q :=
  (shown (Part000.totals (Part000.computeDeltas holes s players)),
   shown (App.totals (App.computeDeltas (map toAppHole holes) (toAppSettings s) players))).

(* ================================================================== *)
(** * Notions for the further properties *)

(** The active player [k] is in neither team of the hole: the pick is
    ["Sit"] (or is missing). *)
Definition sitsOut (idx : list nat) (picks : list TeamPick) (k : nat) : bool :=
  negb (pickIs T1 picks (nth k idx 0%nat)) && negb (pickIs T2 picks (nth k idx 0%nat)).

(** The round is a tie, void or degenerate: no winner is decided. *)
Definition undecided (k : RoundKind) : bool :=
  match k with
  | Settled => false
  | _ => true
  end.

(** The other team. *)
Definition swapPick (p : TeamPick) : TeamPick :=
  match p with
  | T1 => T2
  | T2 => T1
  | Sit => Sit
  end.

(** The hole with the names of the two teams exchanged. *)
Definition App_swapTeams (h : App.HoleState) : App.HoleState :=
  {| App.par := App.par h; App.teamPicks := map swapPick (App.teamPicks h);
     App.scores := App.scores h |}.

Definition Part000_swapTeams (h : Part000.HoleState) : Part000.HoleState :=
  {| Part000.par := Part000.par h;
     Part000.teamPicks := map swapPick (Part000.teamPicks h);
     Part000.scores := Part000.scores h |}.

(** The same cell: both empty, or the same number ([NaN] included). *)
Definition cell_same (a b : cell) : bool :=
  match a, b with
  | Blank, Blank => true
  | Num NaN, Num NaN => true
  | Num x, Num y => num_seq x y
  | _, _ => false
  end.

(** Two score arrays hold the same cell for every member of the two teams. *)
Definition agreeOnTeams (idx : list nat) (picks : list TeamPick)
    (scores scores' : list cell) : bool :=
  forallb
    (fun aj => cell_same (readScore scores (nth aj idx 0%nat))
                 (readScore scores' (nth aj idx 0%nat)))
    (populated idx picks).

Definition App_withScores (scores : list cell) (h : App.HoleState) : App.HoleState :=
  {| App.par := App.par h; App.teamPicks := App.teamPicks h; App.scores := scores |}.

Definition Part000_withScores (scores : list cell) (h : Part000.HoleState)
    : Part000.HoleState :=
  {| Part000.par := Part000.par h; Part000.teamPicks := Part000.teamPicks h;
     Part000.scores := scores |}.

(** ** The ledger *)

(** [App.tsx], line 586: [activeIdx.map((oi) => players[oi])]; a name read
    past the end of the roster would be [undefined] ([None]). *)
Definition App_activeNames (players : list string) (idx : list nat)
    : list (option string) :=
  map (fun oi => nth_error players oi) idx.

(** [part_000], line 510: [players.filter((p) => p && p.trim())]. *)
Definition Part000_activePlayers (players : list string) : list string :=
  filter trimNonEmpty players.

(* ================================================================== *)
(** * The screens around the engine *)

(** [Math.max(a, b)] *)
Definition Math_max (a b : num) : num :=
  match a, b with
  | NaN, _ | _, NaN => NaN
  | _, _ => if num_lt a b then b else a
  end.

Definition isNaN (x : num) : bool :=
  match x with
  | NaN => true
  | _ => false
  end.

(** [s === ""] *)
Definition isEmptyString (s : string) : bool :=
  match s with
  | EmptyString => true
  | String _ _ => false
  end.

(** [String.prototype.trim], on the ASCII range: the white space at the two
    ends is removed. *)
Fixpoint trimStart (s : string) : string :=
  match s with
  | EmptyString => EmptyString
  | String c r => if isSpace c then trimStart r else s
  end.

Fixpoint trimEnd (s : string) : string :=
  match s with
  | EmptyString => EmptyString
  | String c r =>
      match trimEnd r with
      | EmptyString => if isSpace c then EmptyString else String c EmptyString
      | r' => String c r'
      end
  end.

Definition trim (s : string) : string := trimEnd (trimStart s).

(** [xs.filter((_, i) => i !== idx)], counting from [i]. *)
Fixpoint dropIndexFrom {A : Type} (i idx : nat) (xs : list A) : list A :=
  match xs with
  | [] => []
  | x :: r =>
      if (i =? idx)%nat then dropIndexFrom (S i) idx r
      else x :: dropIndexFrom (S i) idx r
  end.

(** ** [NumberField] of [App.tsx], lines 66-77

    [Number] is the conversion of the typed text to a number; what the
    handler passes to [onChange], if it calls it. *)
Section NumberField.

Variable Number : string -> num.

Definition App_NumberField_onChange (min : option num) (val : string)
    : option cell :=
  if isEmptyString val then Some Blank
  else
    let n := Number val in
    if negb (isNaN n) then
      match min with
      | Some m => if num_lt n m then Some (Num m) else Some (Num n)
      | None => Some (Num n)
      end
    else None.

End NumberField.

(** ** Saved courses of [App.tsx], lines 342-359 and 442-446 *)

Module AppSetup.

(** A stored course.  An entry of [pars] is a number, or something that is
    not a number ([None]: a [null] read back from storage). *)
Record Course : Type := {
  name : string;
  pars : list (option num)
}.

(** The state of the setup screen that [saveCourse] and the Delete button
    change.  The copy written to [localStorage] is not modelled. *)
Record State : Type := {
  courseName : string;
  savedCourses : list Course
}.

(** Line 345: [typeof h.par === "number" ? h.par : 4]. *)
Definition parToSave (h : App.HoleState) : num :=
  match App.par h with
  | Num p => p
  | Blank => Fin (ofZ 4)
  end.

(** Lines 342-350. *)
Definition saveCourse (holes : list App.HoleState) (st : State) : State :=
  let name := trim (courseName st) in
  if isEmptyString name then st
  else
    let pars := map (fun h => Some (parToSave h)) holes in
    let updated := savedCourses st ++ [{| name := name; pars := pars |}] in
    {| courseName := EmptyString; savedCourses := updated |}.

(** Lines 442-446. *)
Definition deleteCourse (idx : nat) (st : State) : State :=
  {| courseName := courseName st;
     savedCourses := dropIndexFrom 0 idx (savedCourses st) |}.

(** Lines 352-359, counting from hole [i]:
    [par: typeof pars[i] === "number" ? Math.max(3, pars[i]) : 4].  The test
    fails for an entry that is not a number and past the end of [pars]. *)
Fixpoint loadFrom (i : nat) (pars : list (option num))
    (holes : list App.HoleState) : list App.HoleState :=
  match holes with
  | [] => []
  | x :: r =>
      {| App.par :=
           match nth_error pars i with
           | Some (Some p) => Num (Math_max (Fin (ofZ 3)) p)
           | _ => Num (Fin (ofZ 4))
           end;
         App.teamPicks := App.teamPicks x;
         App.scores := App.scores x |}
      :: loadFrom (S i) pars r
  end.

Definition loadCourse (pars : list (option num)) (holes : list App.HoleState)
    : list App.HoleState :=
  loadFrom 0 pars holes.

End AppSetup.

(** ** Saved courses of [part_000], lines 450-462 *)

Module PartSetup.

Record Course : Type := {
  name : string;
  pars : list num
}.

(** The Save button, lines 450-454: the new list of saved courses. *)
Definition saveCourse (courseName : string) (holes : list Part000.HoleState)
    (savedCourses : list Course) : list Course :=
  if negb (trimNonEmpty courseName) then savedCourses
  else
    let newCourse := {| name := courseName; pars := map Part000.par holes |} in
    filter (fun c => negb (String.eqb (name c) courseName)) savedCourses
      ++ [newCourse].

(** Line 456: [savedCourses.find(x => x.name === value)]. *)
Definition findCourse (value : string) (savedCourses : list Course)
    : option Course :=
  find (fun x => String.eqb (name x) value) savedCourses.

(** Line 459, counting from hole [hi]: [{...h, par: c.pars[hi]}].  Past the
    end of [pars] the par is [undefined], which is not a value of
    [HoleState]: such a hole is [None]. *)
Fixpoint loadFrom (hi : nat) (pars : list num) (holes : list Part000.HoleState)
    : list (option Part000.HoleState) :=
  match holes with
  | [] => []
  | h :: r =>
      match nth_error pars hi with
      | Some p =>
          Some {| Part000.par := p; Part000.teamPicks := Part000.teamPicks h;
                  Part000.scores := Part000.scores h |}
      | None => None
      end
      :: loadFrom (S hi) pars r
  end.

Definition loadCourse (pars : list num) (holes : list Part000.HoleState)
    : list (option Part000.HoleState) :=
  loadFrom 0 pars holes.

End PartSetup.

(** ** [randomizeTeams]

    [coin k] is the outcome of the [k]-th test [Math.random() < 0.5]. *)

(** [App.tsx], lines 484-490: [players.map(...)], from the [k]-th draw. *)
Fixpoint App_randomPicks (coin : nat -> bool) (k : nat) (players : list string)
    : list TeamPick :=
  match players with
  | [] => []
  | p :: ps =>
      if negb (trimNonEmpty p) then Sit :: App_randomPicks coin k ps
      else (if coin k then T1 else T2) :: App_randomPicks coin (S k) ps
  end.

Definition App_randomizeTeams (coin : nat -> bool) (players : list string)
    (hole : App.HoleState) : App.HoleState :=
  {| App.par := App.par hole;
     App.teamPicks := App_randomPicks coin 0 players;
     App.scores := App.scores hole |}.

(** [part_000], lines 475-481: [hole.teamPicks.map((_, i) => ...)], at slot
    [i] and from the [k]-th draw; [players[i]] past the end is [undefined]. *)
Fixpoint Part000_randomPicks (coin : nat -> bool) (k i : nat)
    (picks : list TeamPick) (players : list string) : list TeamPick :=
  match picks with
  | [] => []
  | _ :: r =>
      match nth_error players i with
      | Some p =>
          if trimNonEmpty p
          then (if coin k then T1 else T2)
               :: Part000_randomPicks coin (S k) (S i) r players
          else Sit :: Part000_randomPicks coin k (S i) r players
      | None => Sit :: Part000_randomPicks coin k (S i) r players
      end
  end.

Definition Part000_randomizeTeams (coin : nat -> bool) (players : list string)
    (hole : Part000.HoleState) : Part000.HoleState :=
  {| Part000.par := Part000.par hole;
     Part000.teamPicks := Part000_randomPicks coin 0 0 (Part000.teamPicks hole) players;
     Part000.scores := Part000.scores hole |}.

(** A par that is empty or is a number not below 3 ([NaN] included). *)
Definition parNotBelow3 (h : App.HoleState) : bool :=
  match App.par h with
  | Blank => true
  | Num p => negb (num_lt p (Fin (ofZ 3)))
  end.

(* ================================================================== *)
(** * The screens of [App.tsx] as steps on the component state *)

(** [xs.map((x, i) => f(x, i))], counting from slot [i]. *)
Fixpoint mapFrom {A B : Type} (i : nat) (f : A -> nat -> B) (xs : list A)
    : list B :=
  match xs with
  | [] => []
  | x :: r => f x i :: mapFrom (S i) f r
  end.

Fixpoint setAt {A : Type} (xs : list A) (i : nat) (v : A) : list A :=
  match xs, i with
  | [], _ => []
  | _ :: r, O => v :: r
  | x :: r, S j => x :: setAt r j v
  end.

(** [const a = [...xs]; a[i] = v].  A write past the end of the array would
    leave a sparse array, which is no value of the lists used here: [None]. *)
Definition writeAt {A : Type} (xs : list A) (i : nat) (v : A) : option (list A) :=
  if (i <? length xs)%nat then Some (setAt xs i v) else None.

Module AppUI.

(** The state of [SideBetsTracker] (lines 236-253) that the engine reads and
    the handlers below change.  The settings, the screen shown and the saved
    courses are left out: these handlers neither read nor write them. *)
Record State : Type := {
  players : list string;
  holes : list App.HoleState;
  activeHole : Z
}.

(** Lines 245-249. *)
Definition initialHole : App.HoleState :=
  {| App.par := Num (Fin (ofZ 4));
     App.teamPicks := [Sit; Sit; Sit; Sit; Sit];
     App.scores := [Blank; Blank; Blank; Blank; Blank] |}.

(** Lines 236, 244-250 and 253. *)
Definition initial : State :=
  {| players := ["A"; "B"; "C"; "D"; ""]%string;
     holes := repeat initialHole 18;
     activeHole := 0%Z |}.

(** What the user can do on the setup screen and in the hole editor: type a
    name in the box of slot [i]; type in the par box of hole [i] of the setup
    screen; press a saved course, whose pars are [pars]; type in the par box
    of the editor; choose a team in row [i]; type in the score box of row
    [i]; press Randomize, the coin then showing [coin]; press Next or Prev. *)
Inductive Event : Type :=
  | SetPlayer (i : nat) (text : string)
  | SetupPar (i : nat) (val : string)
  | LoadCourse (pars : list (option num))
  | EntryPar (val : string)
  | EntryPick (i : nat) (val : TeamPick)
  | EntryScore (i : nat) (val : string)
  | Randomize (coin : nat -> bool)
  | Next
  | Prev.

(** The control of the event is on the screen: there is a name box per slot
    (line 384), a par box per hole (line 400), and an editor row per name
    that is not blank (lines 515-517). *)
Definition offered (st : State) (ev : Event) : bool :=
  match ev with
  | SetPlayer i _ => (i <? length (players st))%nat
  | SetupPar i _ => (i <? length (holes st))%nat
  | EntryPick i _ | EntryScore i _ =>
      (i <? length (filter trimNonEmpty (players st)))%nat
  | _ => true
  end.

(** Line 288, [holes[activeHole]]: [undefined] outside the array. *)
Definition hole (st : State) : option App.HoleState :=
  if (activeHole st <? 0)%Z then None
  else nth_error (holes st) (Z.to_nat (activeHole st)).

(** Line 289: [setHoles((h) => h.map((x, i) => (i === activeHole ? next : x)))]. *)
Definition onUpdate (st : State) (next : App.HoleState) : State :=
  {| players := players st;
     holes := mapFrom 0
                (fun x i => if (Z.of_nat i =? activeHole st)%Z then next else x)
                (holes st);
     activeHole := activeHole st |}.

(** Lines 523-527: [tp[i] = val] on a copy of the picks. *)
Definition editPick (i : nat) (val : TeamPick) (h : App.HoleState)
    : option App.HoleState :=
  option_map
    (fun tp => {| App.par := App.par h; App.teamPicks := tp;
                  App.scores := App.scores h |})
    (writeAt (App.teamPicks h) i val).

(** Lines 538-542: [sc[i] = v] on a copy of the scores. *)
Definition editScore (i : nat) (v : cell) (h : App.HoleState)
    : option App.HoleState :=
  option_map
    (fun sc => {| App.par := App.par h; App.teamPicks := App.teamPicks h;
                  App.scores := sc |})
    (writeAt (App.scores h) i v).

Section Handlers.

Variable Number : string -> num.

(** One event handled: the state after it.  [None] stands for the two
    things the lists cannot follow: the editor drawn for a hole that is
    [undefined] (reading [hole.par] throws), and a write past the end of an
    array.  A text that [NumberField] drops leaves the state as it is. *)
Definition step (st : State) (ev : Event) : option State :=
  match ev with
  | SetPlayer i text =>
      (* lines 389-393 *)
      option_map
        (fun next => {| players := next; holes := holes st;
                        activeHole := activeHole st |})
        (writeAt (players st) i text)
  | SetupPar i val =>
      (* lines 403-410 *)
      match App_NumberField_onChange Number (Some (Fin (ofZ 3))) val with
      | Some v =>
          Some {| players := players st;
                  holes := mapFrom 0
                             (fun x hi => if (hi =? i)%nat then App_withPar v x else x)
                             (holes st);
                  activeHole := activeHole st |}
      | None => Some st
      end
  | LoadCourse pars =>
      (* lines 352-359 *)
      Some {| players := players st;
              holes := AppSetup.loadCourse pars (holes st);
              activeHole := activeHole st |}
  | EntryPar val =>
      (* lines 507-512 *)
      match hole st with
      | Some h =>
          match App_NumberField_onChange Number (Some (Fin (ofZ 3))) val with
          | Some v => Some (onUpdate st (App_withPar v h))
          | None => Some st
          end
      | None => None
      end
  | EntryPick i val =>
      (* lines 521-527 *)
      match hole st with
      | Some h => option_map (onUpdate st) (editPick i val h)
      | None => None
      end
  | EntryScore i val =>
      (* lines 534-543 *)
      match hole st with
      | Some h =>
          match App_NumberField_onChange Number (Some (Fin (ofZ 1))) val with
          | Some v => option_map (onUpdate st) (editScore i v h)
          | None => Some st
          end
      | None => None
      end
  | Randomize coin =>
      (* lines 484-490 *)
      match hole st with
      | Some h => Some (onUpdate st (App_randomizeTeams coin (players st) h))
      | None => None
      end
  | Next =>
      (* line 290 *)
      Some {| players := players st; holes := holes st;
              activeHole := Z.min (activeHole st + 1) 17 |}
  | Prev =>
      (* line 291 *)
      Some {| players := players st; holes := holes st;
              activeHole := Z.max (activeHole st - 1) 0 |}
  end.

(** The states the component can be in: the initial one, and the one left
    by an event whose control is on the screen. *)
Inductive reachable : State -> Prop :=
  | reach_initial : reachable initial
  | reach_step (st st' : State) (ev : Event) :
      reachable st -> offered st ev = true -> step st ev = Some st' ->
      reachable st'.

End Handlers.

(** A score box holds nothing, or a number that is not [NaN] and not below 1. *)
Definition scoreOk (c : cell) : bool :=
  match c with
  | Blank => true
  | Num n => negb (isNaN n) && negb (num_lt n (Fin (ofZ 1)))
  end.

Definition holeOk (h : App.HoleState) : bool :=
  (length (App.teamPicks h) =? 5)%nat
  && (length (App.scores h) =? 5)%nat
  && parNotBelow3 h
  && forallb scoreOk (App.scores h).

(** Five name slots, eighteen holes with five picks and five scores each, a
    current hole among them, no par below 3 and no score below 1. *)
Definition stateOk (st : State) : bool :=
  (length (players st) =? 5)%nat
  && (length (holes st) =? 18)%nat
  && (0 <=? activeHole st)%Z && (activeHole st <=? 17)%Z
  && forallb holeOk (holes st).

(** No blank name comes before a name: the names fill the first slots. *)
Definition namesFirst (players : list string) : bool :=
  forallb trimNonEmpty (firstn (length (activeIdx players)) players).

End AppUI.

(** ** The rows of the hole editor of [part_000], lines 490-498

    A row is drawn for each slot [i] whose name is not blank, and writes
    slot [i] of a copy of the picks or of the scores. *)

Module PartUI.

(** Line 494: [tp[i] = val]. *)
Definition editPick (i : nat) (val : TeamPick) (h : Part000.HoleState)
    : option Part000.HoleState :=
  option_map
    (fun tp => {| Part000.par := Part000.par h; Part000.teamPicks := tp;
                  Part000.scores := Part000.scores h |})
    (writeAt (Part000.teamPicks h) i val).

(** Line 495: [sc[i] = v]. *)
Definition editScore (i : nat) (v : cell) (h : Part000.HoleState)
    : option Part000.HoleState :=
  option_map
    (fun sc => {| Part000.par := Part000.par h;
                  Part000.teamPicks := Part000.teamPicks h;
                  Part000.scores := sc |})
    (writeAt (Part000.scores h) i v).

End PartUI.

(** ** Holes not played

    Nobody who is on a team has a score in the box.  Every hole is so when
    the match starts: all sit, every box is empty. *)
Definition unplayed (idx : list nat) (picks : list TeamPick) (scores : list cell)
    : bool :=
  allBlank idx scores (populated idx picks).

(* ================================================================== *)
(** * Arithmetic of [Qc] and of the numbers *)

Lemma Qc_eqb_eq (x y : Qc) : Qc_eqb x y = true <-> x = y.
Proof.
  unfold Qc_eqb. rewrite Qceq_alt.
  destruct (x ?= y); split; congruence.
Qed.

Lemma Qc_eqb_refl (x : Qc) : Qc_eqb x x = true.
Proof. now apply Qc_eqb_eq. Qed.

Lemma Qc_ltb_lt (x y : Qc) : Qc_ltb x y = true <-> x < y.
Proof.
  unfold Qc_ltb. rewrite Qclt_alt.
  destruct (x ?= y); split; congruence.
Qed.

Lemma Qc_ltb_irrefl (x : Qc) : Qc_ltb x x = false.
Proof.
  destruct (Qc_ltb x x) eqn:E; [|reflexivity].
  apply Qc_ltb_lt in E. now apply Qclt_not_eq in E.
Qed.

Lemma ofZ_add (a b : Z) : ofZ (a + b) = ofZ a + ofZ b.
Proof.
  unfold ofZ, Qcplus. apply Q2Qc_eq_iff. unfold Q2Qc. cbn [this].
  rewrite !Qred_correct, inject_Z_plus. reflexivity.
Qed.

Lemma ofNat_0 : ofNat 0 = 0.
Proof. reflexivity. Qed.

Lemma ofNat_S (n : nat) : ofNat (S n) = ofNat n + 1.
Proof.
  unfold ofNat. rewrite Nat2Z.inj_succ, <- Z.add_1_r. apply ofZ_add.
Qed.

Lemma ofNat_pos (n : nat) : (0 < n)%nat -> 0 < ofNat n.
Proof.
  intros H. unfold Qclt, ofNat, ofZ, Q2Qc. cbn [this].
  rewrite !Qred_correct. unfold Qlt. simpl. lia.
Qed.

Lemma ofNat_neq_0 (n : nat) : (0 < n)%nat -> ofNat n <> 0.
Proof.
  intros H E. apply ofNat_pos in H. rewrite E in H.
  now apply Qclt_not_eq in H.
Qed.

(* ================================================================== *)
(** * Rows: writes, sums and reads *)

Lemma upd_length (row : list Qc) (i : nat) (f : Qc -> Qc) :
  length (upd row i f) = length row.
Proof.
  revert i. induction row as [|x r IH]; intros [|j]; simpl; auto.
Qed.

Lemma zeroRow_length (n : nat) : length (zeroRow n) = n.
Proof. apply repeat_length. Qed.

Lemma sumRow_zeroRow (n : nat) : sumRow (zeroRow n) = 0.
Proof.
  induction n as [|n IH]; simpl; [reflexivity|].
  unfold zeroRow in IH. rewrite IH. ring.
Qed.

Lemma sumRow_upd_add (row : list Qc) (i : nat) (x : Qc) :
  (i < length row)%nat ->
  sumRow (upd row i (fun d => d + x)) = sumRow row + x.
Proof.
  revert i. induction row as [|y r IH]; intros [|j] H; simpl in *; try lia.
  - ring.
  - rewrite IH by lia. ring.
Qed.

Lemma nth_upd_same (row : list Qc) (i : nat) (f : Qc -> Qc) :
  (i < length row)%nat -> nth i (upd row i f) 0 = f (nth i row 0).
Proof.
  revert i. induction row as [|y r IH]; intros [|j] H; simpl in *;
    try lia; try reflexivity.
  apply IH. lia.
Qed.

Lemma nth_upd_other (row : list Qc) (i j : nat) (f : Qc -> Qc) :
  i <> j -> nth j (upd row i f) 0 = nth j row 0.
Proof.
  revert i j. induction row as [|y r IH]; intros [|i] [|j] H; simpl; auto;
    try congruence.
Qed.

Lemma nth_zeroRow (n k : nat) : nth k (zeroRow n) 0 = 0.
Proof.
  unfold zeroRow. revert k. induction n as [|n IH]; intros [|k]; simpl; auto.
Qed.

Lemma addAt_length (x : Qc) (l : list nat) (row : list Qc) :
  length (addAt x l row) = length row.
Proof.
  unfold addAt. revert row. induction l as [|a l IH]; intros row; simpl; auto.
  rewrite IH. apply upd_length.
Qed.

Lemma sumRow_addAt (x : Qc) (l : list nat) (row : list Qc) :
  Forall (fun aj => (aj < length row)%nat) l ->
  sumRow (addAt x l row) = sumRow row + ofNat (length l) * x.
Proof.
  unfold addAt. revert row. induction l as [|a l IH]; intros row H.
  - simpl. rewrite ofNat_0. ring.
  - inversion H as [|? ? Ha Hl]; subst. cbn [fold_left length].
    rewrite IH.
    + rewrite sumRow_upd_add by assumption. rewrite ofNat_S. ring.
    + rewrite upd_length. assumption.
Qed.

Lemma nth_addAt_notin (x : Qc) (l : list nat) (row : list Qc) (k : nat) :
  ~ In k l -> nth k (addAt x l row) 0 = nth k row 0.
Proof.
  unfold addAt. revert row. induction l as [|a l IH]; intros row H; simpl in *.
  - reflexivity.
  - rewrite IH by tauto. apply nth_upd_other. tauto.
Qed.

Lemma nth_addAt_in (x : Qc) (l : list nat) (row : list Qc) (k : nat) :
  NoDup l -> In k l -> (k < length row)%nat ->
  nth k (addAt x l row) 0 = nth k row 0 + x.
Proof.
  unfold addAt. revert row. induction l as [|a l IH]; intros row Hnd Hin Hk.
  - destruct Hin.
  - inversion Hnd as [|? ? Hna Hnd']; subst. simpl.
    destruct Hin as [->|Hin].
    + fold (addAt x l (upd row k (fun d => d + x))).
      rewrite nth_addAt_notin by assumption.
      now rewrite nth_upd_same.
    + rewrite IH; auto.
      * rewrite nth_upd_other; [reflexivity|]. intros ->. contradiction.
      * now rewrite upd_length.
Qed.

(* ================================================================== *)
(** * The teams of a hole *)

Lemma team_bound (tp : TeamPick) (idx : list nat) (picks : list TeamPick) :
  Forall (fun aj => (aj < length idx)%nat) (teamOf tp idx picks).
Proof.
  apply Forall_forall. intros aj H. unfold teamOf in H.
  apply filter_In in H. destruct H as [H _]. apply in_seq in H. lia.
Qed.

Lemma team_NoDup (tp : TeamPick) (idx : list nat) (picks : list TeamPick) :
  NoDup (teamOf tp idx picks).
Proof. unfold teamOf. apply NoDup_filter, seq_NoDup. Qed.

Lemma teams_disjoint (idx : list nat) (picks : list TeamPick) (aj : nat) :
  In aj (teamOf T1 idx picks) -> ~ In aj (teamOf T2 idx picks).
Proof.
  unfold teamOf. rewrite !filter_In. intros [_ H1] [_ H2].
  unfold pickIs in *. destruct (nth_error picks (nth aj idx 0%nat)) as [[]|];
    discriminate.
Qed.

Lemma filter_singleton_In {A : Type} (f : A -> bool) (l : list A) (d : A) :
  length (filter f l) = 1%nat -> In (nth 0 (filter f l) d) l /\ f (nth 0 (filter f l) d) = true.
Proof.
  intros H. apply filter_In.
  destruct (filter f l) as [|a [|b r]]; simpl in *; try discriminate.
  now left.
Qed.

(* ================================================================== *)
(** * Zero-sum rows *)

(** The uneven split is balanced: what the winners gain is what the losers
    lose, with or without the solo doubling. *)
Lemma App_team_balance (s : App.Settings) (W L : nat) (stake : Qc) :
  (0 < W)%nat -> (0 < L)%nat ->
  ofNat W * App.perWinnerGain s W L stake = ofNat L * App.perLoserLoss s W L stake.
Proof.
  intros HW HL. pose proof (ofNat_neq_0 W HW) as HW0.
  pose proof (ofNat_neq_0 L HL) as HL0.
  unfold App.perWinnerGain, App.perLoserLoss.
  destruct (App.soloDouble s && ((W =? 1)%nat && (2 <=? L)%nat));
    destruct (Nat.leb_spec L W) as [E1|E1];
    destruct (Nat.ltb_spec L W) as [E2|E2];
    try lia; try (assert (W = L) by lia; subst L);
    try reflexivity; field; assumption.
Qed.

Lemma App_paySolo_length (ps : list nat) (w : nat) (stake : Qc) (row : list Qc) :
  length (App.paySolo ps w stake row) = length row.
Proof.
  unfold App.paySolo. revert row.
  induction ps as [|a ps IH]; intros row; simpl; [reflexivity|].
  rewrite IH. destruct (a =? w)%nat; [reflexivity|]. now rewrite !upd_length.
Qed.

Lemma App_paySolo_sum (ps : list nat) (w : nat) (stake : Qc) (row : list Qc) :
  Forall (fun aj => (aj < length row)%nat) ps -> (w < length row)%nat ->
  sumRow (App.paySolo ps w stake row) = sumRow row.
Proof.
  unfold App.paySolo. revert row.
  induction ps as [|a ps IH]; intros row H Hw; simpl; [reflexivity|].
  inversion H as [|? ? Ha Hps]; subst.
  destruct (a =? w)%nat.
  - now apply IH.
  - rewrite IH; rewrite ?upd_length; auto.
    rewrite sumRow_upd_add by now rewrite upd_length.
    unfold Qcminus. rewrite sumRow_upd_add by assumption. ring.
Qed.

Lemma App_payTeams_addAt (ws ls : list nat) (gain loss : Qc) (row : list Qc) :
  App.payTeams ws ls gain loss row = addAt (- loss) ls (addAt gain ws row).
Proof. reflexivity. Qed.

Lemma App_settleSolo_length s idx carry h ps row0 :
  length (fst (App.settleSolo s idx carry h ps row0)) = length row0.
Proof.
  unfold App.settleSolo.
  destruct (negb (isFinite _)); [reflexivity|].
  destruct (negb (_ =? 1)%nat); [reflexivity|].
  apply App_paySolo_length.
Qed.

Lemma App_settleTeams_length s idx carry h t1 t2 row0 :
  length (fst (App.settleTeams s idx carry h t1 t2 row0)) = length row0.
Proof.
  unfold App.settleTeams.
  destruct (negb _ || negb _); [reflexivity|].
  destruct (num_seq _ _); [reflexivity|].
  cbn [fst]. now rewrite App_payTeams_addAt, !addAt_length.
Qed.

Lemma App_settleHole_length (s : App.Settings) (idx : list nat) (carry : nat)
    (h : App.HoleState) :
  length (fst (App.settleHole s idx carry h)) = length idx.
Proof.
  unfold App.settleHole.
  destruct (App.onlyOneTeam _ _).
  - now rewrite App_settleSolo_length, zeroRow_length.
  - destruct (_ || _); [apply zeroRow_length|].
    now rewrite App_settleTeams_length, zeroRow_length.
Qed.

Lemma App_settleSolo_sum s idx carry h ps row0 :
  Forall (fun aj => (aj < length row0)%nat) ps ->
  sumRow (fst (App.settleSolo s idx carry h ps row0)) = sumRow row0.
Proof.
  intros Bp. unfold App.settleSolo.
  destruct (negb (isFinite _)); [reflexivity|].
  destruct (negb (_ =? 1)%nat) eqn:El; [reflexivity|].
  apply negb_false_iff, Nat.eqb_eq in El. cbn [fst].
  apply App_paySolo_sum; [assumption|].
  apply (filter_singleton_In _ _ 0%nat) in El. destruct El as [El _].
  rewrite Forall_forall in Bp. now apply Bp.
Qed.

Lemma App_settleTeams_sum s idx carry h t1 t2 row0 :
  Forall (fun aj => (aj < length row0)%nat) t1 ->
  Forall (fun aj => (aj < length row0)%nat) t2 ->
  (0 < length t1)%nat -> (0 < length t2)%nat ->
  sumRow (fst (App.settleTeams s idx carry h t1 t2 row0)) = sumRow row0.
Proof.
  intros B1 B2 N1 N2. unfold App.settleTeams.
  destruct (negb _ || negb _); [reflexivity|].
  destruct (num_seq _ _); [reflexivity|].
  cbn [fst]. rewrite App_payTeams_addAt.
  destruct (num_lt _ _); rewrite !sumRow_addAt;
    rewrite ?addAt_length; try assumption.
  - pose proof (App_team_balance s (length t1) (length t2)
      (App.stakeForScore s carry (App.holePar h)
         (Math_min (App.teamBest idx h t1) (App.teamBest idx h t2))) N1 N2) as Hb.
    rewrite Hb. ring.
  - pose proof (App_team_balance s (length t2) (length t1)
      (App.stakeForScore s carry (App.holePar h)
         (Math_min (App.teamBest idx h t1) (App.teamBest idx h t2))) N2 N1) as Hb.
    rewrite Hb. ring.
Qed.

Lemma App_settleHole_sum (s : App.Settings) (idx : list nat) (carry : nat)
    (h : App.HoleState) :
  sumRow (fst (App.settleHole s idx carry h)) = 0.
Proof.
  unfold App.settleHole.
  set (t1 := teamOf T1 idx (App.teamPicks h)).
  set (t2 := teamOf T2 idx (App.teamPicks h)).
  pose proof (team_bound T1 idx (App.teamPicks h)) as B1. fold t1 in B1.
  pose proof (team_bound T2 idx (App.teamPicks h)) as B2. fold t2 in B2.
  rewrite <- (zeroRow_length (length idx)) in B1, B2.
  destruct (App.onlyOneTeam t1 t2).
  - rewrite App_settleSolo_sum; [apply sumRow_zeroRow|].
    destruct (length t1 =? 0)%nat; assumption.
  - destruct (_ || _) eqn:E; [apply sumRow_zeroRow|].
    apply orb_false_iff in E. destruct E as [E1 E2].
    apply Nat.eqb_neq in E1, E2.
    rewrite App_settleTeams_sum; try assumption; try lia.
    apply sumRow_zeroRow.
Qed.

Lemma Part000_team_balance (W L : nat) (baseStake : Qc) :
  (0 < W)%nat -> (0 < L)%nat ->
  ofNat W * (baseStake * (if (W <? L)%nat then ofNat L / ofNat W else 1))
  = ofNat L * (baseStake * (if (L <? W)%nat then ofNat W / ofNat L else 1)).
Proof.
  intros HW HL. pose proof (ofNat_neq_0 W HW) as HW0.
  pose proof (ofNat_neq_0 L HL) as HL0.
  destruct (Nat.ltb_spec W L) as [E1|E1];
    destruct (Nat.ltb_spec L W) as [E2|E2];
    try lia; try (assert (W = L) by lia; subst L);
    try reflexivity; field; assumption.
Qed.

Lemma Part000_paySolo_addAt (ls : list nat) (w : nat) (b : Qc) (row : list Qc) :
  Part000.paySolo ls w b row
  = upd (addAt (- b) ls row) w (fun d => d + b * ofNat (length ls)).
Proof. reflexivity. Qed.

Lemma Part000_payTeams_addAt (ws ls : list nat) (pw pl : Qc) (row : list Qc) :
  Part000.payTeams ws ls pw pl row = addAt pw ws (addAt (- pl) ls row).
Proof. reflexivity. Qed.

Lemma Part000_settleSolo_length s idx carry h ps row0 :
  length (fst (Part000.settleSolo s idx carry h ps row0)) = length row0.
Proof.
  unfold Part000.settleSolo.
  destruct (negb (isFinite _)); [reflexivity|].
  destruct (negb (_ =? 1)%nat); [reflexivity|].
  cbn [fst]. now rewrite Part000_paySolo_addAt, upd_length, addAt_length.
Qed.

Lemma Part000_settleTeams_length s idx carry h t1 t2 row0 :
  length (fst (Part000.settleTeams s idx carry h t1 t2 row0)) = length row0.
Proof.
  unfold Part000.settleTeams.
  destruct (negb _ || negb _); [reflexivity|].
  destruct (num_seq _ _); [reflexivity|].
  destruct (_ || _); [reflexivity|].
  cbn [fst]. now rewrite Part000_payTeams_addAt, !addAt_length.
Qed.

Lemma Part000_settleHole_length (s : Part000.Settings) (idx : list nat)
    (carry : nat) (h : Part000.HoleState) :
  length (fst (Part000.settleHole s idx carry h)) = length idx.
Proof.
  unfold Part000.settleHole.
  destruct (Part000.onlyOneTeam _ _).
  - now rewrite Part000_settleSolo_length, zeroRow_length.
  - destruct (_ || _); [apply zeroRow_length|].
    now rewrite Part000_settleTeams_length, zeroRow_length.
Qed.

Lemma Forall_filter_keep {A : Type} (P : A -> Prop) (f : A -> bool) (l : list A) :
  Forall P l -> Forall P (filter f l).
Proof.
  rewrite !Forall_forall. intros H x Hx. apply filter_In in Hx. now apply H.
Qed.

Lemma Part000_settleSolo_sum s idx carry h ps row0 :
  Forall (fun aj => (aj < length row0)%nat) ps ->
  sumRow (fst (Part000.settleSolo s idx carry h ps row0)) = sumRow row0.
Proof.
  intros Bp. unfold Part000.settleSolo.
  destruct (negb (isFinite _)); [reflexivity|].
  destruct (negb (_ =? 1)%nat) eqn:El; [reflexivity|].
  apply negb_false_iff, Nat.eqb_eq in El. cbn [fst].
  rewrite Part000_paySolo_addAt.
  apply (filter_singleton_In _ _ 0%nat) in El. destruct El as [El _].
  rewrite sumRow_upd_add.
  - rewrite sumRow_addAt by now apply Forall_filter_keep. ring.
  - rewrite addAt_length. rewrite Forall_forall in Bp. now apply Bp.
Qed.

Lemma Part000_settleTeams_sum s idx carry h t1 t2 row0 :
  Forall (fun aj => (aj < length row0)%nat) t1 ->
  Forall (fun aj => (aj < length row0)%nat) t2 ->
  sumRow (fst (Part000.settleTeams s idx carry h t1 t2 row0)) = sumRow row0.
Proof.
  intros B1 B2. unfold Part000.settleTeams.
  destruct (negb _ || negb _); [reflexivity|].
  destruct (num_seq _ _); [reflexivity|].
  destruct (_ || _) eqn:E; [reflexivity|].
  apply orb_false_iff in E. destruct E as [E1 E2].
  apply Nat.eqb_neq in E1, E2.
  cbn [fst]. rewrite Part000_payTeams_addAt.
  destruct (num_lt _ _); rewrite !sumRow_addAt;
    rewrite ?addAt_length; try assumption.
  - pose proof (Part000_team_balance (length t1) (length t2)
      (Part000.computeBaseStake s carry (Part000.holePar h)
         (Math_min (Part000.bestOfTeam idx h t1) (Part000.bestOfTeam idx h t2)))
      ltac:(lia) ltac:(lia)) as Hb.
    rewrite Hb. ring.
  - pose proof (Part000_team_balance (length t2) (length t1)
      (Part000.computeBaseStake s carry (Part000.holePar h)
         (Math_min (Part000.bestOfTeam idx h t1) (Part000.bestOfTeam idx h t2)))
      ltac:(lia) ltac:(lia)) as Hb.
    rewrite Hb. ring.
Qed.

Lemma Part000_settleHole_sum (s : Part000.Settings) (idx : list nat)
    (carry : nat) (h : Part000.HoleState) :
  sumRow (fst (Part000.settleHole s idx carry h)) = 0.
Proof.
  unfold Part000.settleHole.
  set (t1 := teamOf T1 idx (Part000.teamPicks h)).
  set (t2 := teamOf T2 idx (Part000.teamPicks h)).
  pose proof (team_bound T1 idx (Part000.teamPicks h)) as B1. fold t1 in B1.
  pose proof (team_bound T2 idx (Part000.teamPicks h)) as B2. fold t2 in B2.
  rewrite <- (zeroRow_length (length idx)) in B1, B2.
  destruct (Part000.onlyOneTeam t1 t2).
  - rewrite Part000_settleSolo_sum; [apply sumRow_zeroRow|].
    destruct (0 <? length t1)%nat; assumption.
  - destruct (_ || _); [apply sumRow_zeroRow|].
    rewrite Part000_settleTeams_sum; try assumption.
    apply sumRow_zeroRow.
Qed.

(** ** The totals *)

Lemma sumRow_addRowFrom (i : nat) (row totals : list Qc) :
  (i + length row <= length totals)%nat ->
  sumRow (addRowFrom i row totals) = sumRow totals + sumRow row.
Proof.
  revert i totals. induction row as [|v r IH]; intros i totals H; simpl in *.
  - ring.
  - rewrite IH by (rewrite upd_length; lia).
    rewrite sumRow_upd_add by lia. ring.
Qed.

Lemma addRowFrom_length (i : nat) (row totals : list Qc) :
  length (addRowFrom i row totals) = length totals.
Proof.
  revert i totals. induction row as [|v r IH]; intros i totals; simpl; auto.
  rewrite IH. apply upd_length.
Qed.

Lemma sumRow_fold_columns (deltas : list (list Qc)) (totals : list Qc) :
  Forall (fun row => sumRow row = 0 /\ length row = length totals) deltas ->
  sumRow (fold_left (fun totals row => addRowFrom 0 row totals) deltas totals)
  = sumRow totals.
Proof.
  revert totals. induction deltas as [|row ds IH]; intros totals H; simpl.
  - reflexivity.
  - inversion H as [|? ? [Hs Hl] Hds]; subst.
    rewrite IH.
    + rewrite sumRow_addRowFrom by (simpl; lia). rewrite Hs. ring.
    + rewrite addRowFrom_length. assumption.
Qed.

Lemma App_settleAll_rows (s : App.Settings) (idx : list nat) (carry : nat)
    (holes : list App.HoleState) :
  Forall (fun row => sumRow row = 0 /\ length row = length idx)
    (fst (App.settleAll s idx carry holes)).
Proof.
  revert carry. induction holes as [|h hs IH]; intros carry; simpl.
  - constructor.
  - constructor; [|apply IH].
    split; [apply App_settleHole_sum|apply App_settleHole_length].
Qed.

Lemma Part000_settleAll_rows (s : Part000.Settings) (idx : list nat)
    (carry : nat) (holes : list Part000.HoleState) :
  Forall (fun row => sumRow row = 0 /\ length row = length idx)
    (fst (Part000.settleAll s idx carry holes)).
Proof.
  revert carry. induction holes as [|h hs IH]; intros carry; simpl.
  - constructor.
  - constructor; [|apply IH].
    split; [apply Part000_settleHole_sum|apply Part000_settleHole_length].
Qed.


(* ================================================================== *)
(** * The stake *)

Lemma Qc_sub_lt_iff (x p c : Qc) : x - p < c <-> x < p + c.
Proof.
  rewrite (Qclt_minus_iff (x - p) c), (Qclt_minus_iff x (p + c)).
  replace (c + - (x - p)) with (p + c + - x) by ring. reflexivity.
Qed.

Lemma Qc_sub_eq_iff (x p c : Qc) : x - p = c <-> x = p + c.
Proof.
  split; intros H.
  - rewrite <- H. ring.
  - rewrite H. ring.
Qed.

Lemma Qc_ltb_sub (x p c : Qc) : Qc_ltb (x - p) c = Qc_ltb x (p + c).
Proof.
  apply eq_true_iff_eq. rewrite !Qc_ltb_lt. apply Qc_sub_lt_iff.
Qed.

Lemma Qc_eqb_sub (x p c : Qc) : Qc_eqb (x - p) c = Qc_eqb x (p + c).
Proof.
  apply eq_true_iff_eq. rewrite !Qc_eqb_eq. apply Qc_sub_eq_iff.
Qed.

(** The test on [rel = winningBest - par] is the test of the specification
    on [target - k]. *)
Lemma rel_le_target (par : num) (wb : Qc) (k : Z) :
  num_le (num_sub (Fin wb) par) (Fin (ofZ (- k)))
  = num_le (Fin wb) (num_sub par (Fin (ofZ k))).
Proof.
  destruct par as [| | |p]; try reflexivity.
  unfold num_le, num_sub, num_lt, num_seq.
  rewrite Qc_ltb_sub, Qc_eqb_sub.
  replace (p + ofZ (- k)) with (p - ofZ k); [reflexivity|].
  unfold Qcminus. f_equal. unfold ofZ, Qcopp. apply Q2Qc_eq_iff.
  unfold Q2Qc. cbn [this]. rewrite Qred_correct, inject_Z_opp. reflexivity.
Qed.

Lemma rel_seq_target (par : num) (wb : Qc) (k : Z) :
  num_seq (num_sub (Fin wb) par) (Fin (ofZ (- k)))
  = num_seq (Fin wb) (num_sub par (Fin (ofZ k))).
Proof.
  destruct par as [| | |p]; try reflexivity.
  unfold num_sub, num_seq. rewrite Qc_eqb_sub.
  replace (p + ofZ (- k)) with (p - ofZ k); [reflexivity|].
  unfold Qcminus. f_equal. unfold ofZ, Qcopp. apply Q2Qc_eq_iff.
  unfold Q2Qc. cbn [this]. rewrite Qred_correct, inject_Z_opp. reflexivity.
Qed.

Lemma App_stake_spec (s : App.Settings) (carry : nat) (par : num) (wb : Qc) :
  App.stakeForScore s carry par (Fin wb)
  = spec_stake (App.wager s) (App.carryOver s) carry (App.birdieDouble s)
      (App.eagleTriple s) par wb.
Proof.
  unfold App.stakeForScore, spec_stake, spec_multiplier.
  change (ofZ (-2)) with (ofZ (- (2))). change (ofZ (-1)) with (ofZ (- (1))).
  now rewrite rel_le_target, rel_seq_target.
Qed.

Lemma Part000_stake_spec (s : Part000.Settings) (carry : nat) (par : num) (wb : Qc) :
  Part000.computeBaseStake s carry par (Fin wb)
  = spec_stake (Part000.wager s) (Part000.carryOver s) carry
      (Part000.birdieDouble s) (Part000.eagleTriple s) par wb.
Proof.
  unfold Part000.computeBaseStake, spec_stake, spec_multiplier.
  change (ofZ (-2)) with (ofZ (- (2))). change (ofZ (-1)) with (ofZ (- (1))).
  now rewrite rel_le_target, rel_seq_target.
Qed.

(* ================================================================== *)
(** * The bests computed by the code, on the cells of the data model *)

Lemma Math_min_toNum (o : option Qc) (q : Qc) :
  Math_min (toNum o) (Fin q) = toNum (lower o (Some q)).
Proof.
  destruct o as [m|]; simpl; [|reflexivity].
  unfold Qc_min. now destruct (Qc_ltb q m).
Qed.

Lemma lt_pick_toNum (o : option Qc) (q : Qc) :
  (if num_lt (Fin q) (toNum o) then Fin q else toNum o) = toNum (lower o (Some q)).
Proof.
  destruct o as [m|]; simpl; [|reflexivity].
  unfold Qc_min. now destruct (Qc_ltb q m).
Qed.

Lemma Math_min_PosInf_r (b : num) : Math_min b PosInf = b.
Proof. now destruct b. Qed.

Section CleanGroups.

Variable idx : list nat.
Variable scores : list cell.

Lemma clean_cases (aj : nat) :
  cleanCell (readScore scores (nth aj idx 0%nat)) = true ->
  (readScore scores (nth aj idx 0%nat) = Blank /\ recorded idx scores aj = None)
  \/ exists q, readScore scores (nth aj idx 0%nat) = Num (Fin q)
               /\ recorded idx scores aj = Some q.
Proof.
  unfold recorded. destruct (readScore scores (nth aj idx 0%nat)) as [|[| | |q]];
    simpl; intros H; try discriminate; [left; auto|right; eauto].
Qed.

(** A loop that lowers [best] with each recorded value computes the best of
    the group. *)
Lemma fold_best_clean (step : num -> nat -> num) (group : list nat) :
  (forall o aj, In aj group ->
     cleanCell (readScore scores (nth aj idx 0%nat)) = true ->
     step (toNum o) aj = toNum (lower o (recorded idx scores aj))) ->
  cleanGroup idx scores group = true ->
  forall o,
    fold_left step group (toNum o)
    = toNum (fold_left (fun best aj => lower best (recorded idx scores aj)) group o).
Proof.
  induction group as [|a g IH]; intros Hstep Hc o; simpl.
  - reflexivity.
  - simpl in Hc. apply andb_true_iff in Hc. destruct Hc as [Ha Hg].
    rewrite Hstep by (simpl; auto). apply IH; [|assumption].
    intros o' aj Hin. apply Hstep. now right.
Qed.

Lemma fold_left_map_num (f : nat -> num) (g : list nat) (acc : num) :
  fold_left Math_min (map f g) acc = fold_left (fun b aj => Math_min b (f aj)) g acc.
Proof.
  revert acc. induction g as [|a g IH]; intros acc; simpl; auto.
Qed.

End CleanGroups.

Lemma App_teamBest_clean (idx : list nat) (h : App.HoleState) (g : list nat) :
  cleanGroup idx (App.scores h) g = true ->
  App.teamBest idx h g = toNum (groupBest idx (App.scores h) g).
Proof.
  intros Hc. unfold App.teamBest, groupBest.
  apply (fold_best_clean idx (App.scores h) _ g) with (o := None); [|assumption].
  intros o aj _ Hcl. destruct (clean_cases _ _ _ Hcl) as [[-> ->]|[q [-> ->]]].
  - reflexivity.
  - apply lt_pick_toNum.
Qed.

Lemma App_soloBest_clean (idx : list nat) (h : App.HoleState) (g : list nat) :
  cleanGroup idx (App.scores h) g = true ->
  App.soloBest idx h g = toNum (groupBest idx (App.scores h) g).
Proof.
  intros Hc. unfold App.soloBest, groupBest.
  apply (fold_best_clean idx (App.scores h) _ g) with (o := None); [|assumption].
  intros o aj _ Hcl. destruct (clean_cases _ _ _ Hcl) as [[-> ->]|[q [-> ->]]].
  - reflexivity.
  - apply Math_min_toNum.
Qed.

Lemma Part000_minOf_clean (idx : list nat) (h : Part000.HoleState) (g : list nat) :
  cleanGroup idx (Part000.scores h) g = true ->
  Part000.minOf (map (Part000.scoreOrInf idx h) g)
  = toNum (groupBest idx (Part000.scores h) g).
Proof.
  intros Hc. unfold Part000.minOf, groupBest. rewrite fold_left_map_num.
  apply (fold_best_clean idx (Part000.scores h) _ g) with (o := None); [|assumption].
  intros o aj _ Hcl. unfold Part000.scoreOrInf.
  destruct (clean_cases _ _ _ Hcl) as [[-> ->]|[q [-> ->]]].
  - apply Math_min_PosInf_r.
  - apply Math_min_toNum.
Qed.

Lemma App_bestList_clean (idx : list nat) (h : App.HoleState) (g : list nat) (m : Qc) :
  cleanGroup idx (App.scores h) g = true ->
  App.bestList idx h g (Fin m) = holders idx (App.scores h) g m.
Proof.
  intros Hc. unfold App.bestList, holders. apply filter_ext_in.
  intros aj Hin. unfold cleanGroup in Hc. rewrite forallb_forall in Hc.
  destruct (clean_cases _ _ _ (Hc aj Hin)) as [[-> ->]|[q [-> ->]]]; reflexivity.
Qed.

Lemma Part000_lowCompressed_clean (idx : list nat) (h : Part000.HoleState)
    (g : list nat) (m : Qc) :
  cleanGroup idx (Part000.scores h) g = true ->
  Part000.lowCompressed idx h g (Fin m) = holders idx (Part000.scores h) g m.
Proof.
  intros Hc. unfold Part000.lowCompressed, holders, Part000.scoreOrInf.
  apply filter_ext_in.
  intros aj Hin. unfold cleanGroup in Hc. rewrite forallb_forall in Hc.
  destruct (clean_cases _ _ _ (Hc aj Hin)) as [[-> ->]|[q [-> ->]]]; reflexivity.
Qed.

(* ================================================================== *)
(** * The two blocks of a round, on the cells of the data model *)

Lemma App_settleSolo_clean s idx carry h g row0 :
  cleanGroup idx (App.scores h) g = true ->
  App.settleSolo s idx carry h g row0
  = match groupBest idx (App.scores h) g with
    | None => (row0, carry)
    | Some m =>
        if (length (holders idx (App.scores h) g m) =? 1)%nat
        then (App.paySolo g (nth 0 (holders idx (App.scores h) g m) 0%nat)
                (App.stakeForScore s carry (App.holePar h) (Fin m)) row0, 0%nat)
        else (row0, App.bump s carry)
    end.
Proof.
  intros Hc. unfold App.settleSolo. rewrite App_soloBest_clean by assumption.
  destruct (groupBest idx (App.scores h) g) as [m|]; simpl; [|reflexivity].
  rewrite App_bestList_clean by assumption.
  now destruct (length (holders idx (App.scores h) g m) =? 1)%nat.
Qed.

Lemma Part000_settleSolo_clean s idx carry h g row0 :
  cleanGroup idx (Part000.scores h) g = true ->
  Part000.settleSolo s idx carry h g row0
  = match groupBest idx (Part000.scores h) g with
    | None => (row0, carry)
    | Some m =>
        if (length (holders idx (Part000.scores h) g m) =? 1)%nat
        then
          let winner := nth 0 (holders idx (Part000.scores h) g m) 0%nat in
          (Part000.paySolo (filter (fun aj => negb (aj =? winner)%nat) g) winner
             (Part000.computeBaseStake s carry (Part000.holePar h) (Fin m)) row0,
           0%nat)
        else (row0, Part000.bump s carry)
    end.
Proof.
  intros Hc. unfold Part000.settleSolo. rewrite Part000_minOf_clean by assumption.
  destruct (groupBest idx (Part000.scores h) g) as [m|]; simpl; [|reflexivity].
  rewrite Part000_lowCompressed_clean by assumption.
  now destruct (length (holders idx (Part000.scores h) g m) =? 1)%nat.
Qed.

(** The team block once the two bests are known to be finite. *)
Lemma App_settleTeams_finite s idx carry h t1 t2 row0 b1 b2 :
  App.teamBest idx h t1 = Fin b1 -> App.teamBest idx h t2 = Fin b2 ->
  App.settleTeams s idx carry h t1 t2 row0
  = if Qc_eqb b1 b2 then (row0, App.bump s carry)
    else
      let winners := if Qc_ltb b1 b2 then t1 else t2 in
      let losers := if Qc_ltb b1 b2 then t2 else t1 in
      let stake := App.stakeForScore s carry (App.holePar h) (Fin (Qc_min b1 b2)) in
      (App.payTeams winners losers
         (App.perWinnerGain s (length winners) (length losers) stake)
         (App.perLoserLoss s (length winners) (length losers) stake) row0, 0%nat).
Proof.
  intros H1 H2. unfold App.settleTeams. rewrite H1, H2. simpl.
  destruct (Qc_eqb b1 b2); [reflexivity|].
  unfold Qc_min. destruct (Qc_ltb b2 b1); reflexivity.
Qed.

Lemma Part000_settleTeams_finite s idx carry h t1 t2 row0 b1 b2 :
  Part000.bestOfTeam idx h t1 = Fin b1 -> Part000.bestOfTeam idx h t2 = Fin b2 ->
  (0 < length t1)%nat -> (0 < length t2)%nat ->
  Part000.settleTeams s idx carry h t1 t2 row0
  = if Qc_eqb b1 b2 then (row0, Part000.bump s carry)
    else
      let winners := if Qc_ltb b1 b2 then t1 else t2 in
      let losers := if Qc_ltb b1 b2 then t2 else t1 in
      let W := length winners in
      let L := length losers in
      let baseStake :=
        Part000.computeBaseStake s carry (Part000.holePar h) (Fin (Qc_min b1 b2)) in
      (Part000.payTeams winners losers
         (baseStake * (if (W <? L)%nat then ofNat L / ofNat W else 1))
         (baseStake * (if (L <? W)%nat then ofNat W / ofNat L else 1)) row0, 0%nat).
Proof.
  intros H1 H2 N1 N2. unfold Part000.settleTeams. rewrite H1, H2. simpl.
  destruct (Qc_eqb b1 b2); [reflexivity|].
  assert (E1 : (length t1 =? 0)%nat = false) by (apply Nat.eqb_neq; lia).
  assert (E2 : (length t2 =? 0)%nat = false) by (apply Nat.eqb_neq; lia).
  unfold Qc_min.
  destruct (Qc_ltb b1 b2); rewrite E1, E2; simpl;
    destruct (Qc_ltb b2 b1); reflexivity.
Qed.

Lemma App_settleTeams_void s idx carry h t1 t2 row0 :
  isFinite (App.teamBest idx h t1) = false
  \/ isFinite (App.teamBest idx h t2) = false ->
  App.settleTeams s idx carry h t1 t2 row0 = (row0, carry).
Proof.
  intros H. unfold App.settleTeams.
  destruct H as [-> | ->]; simpl; [reflexivity|].
  now rewrite orb_true_r.
Qed.

Lemma Part000_settleTeams_void s idx carry h t1 t2 row0 :
  isFinite (Part000.bestOfTeam idx h t1) = false
  \/ isFinite (Part000.bestOfTeam idx h t2) = false ->
  Part000.settleTeams s idx carry h t1 t2 row0 = (row0, carry).
Proof.
  intros H. unfold Part000.settleTeams.
  destruct H as [-> | ->]; simpl; [reflexivity|].
  now rewrite orb_true_r.
Qed.

(** Which block a hole runs, by the shape of its two teams. *)
Lemma App_settleHole_shape s idx carry h :
  App.settleHole s idx carry h
  = match teamOf T1 idx (App.teamPicks h), teamOf T2 idx (App.teamPicks h) with
    | [], [] => (zeroRow (length idx), carry)
    | (_ :: _) as t1, [] => App.settleSolo s idx carry h t1 (zeroRow (length idx))
    | [], (_ :: _) as t2 => App.settleSolo s idx carry h t2 (zeroRow (length idx))
    | (_ :: _) as t1, (_ :: _) as t2 =>
        App.settleTeams s idx carry h t1 t2 (zeroRow (length idx))
    end.
Proof.
  unfold App.settleHole.
  destruct (teamOf T1 idx (App.teamPicks h)) as [|a t1];
    destruct (teamOf T2 idx (App.teamPicks h)) as [|b t2]; reflexivity.
Qed.

Lemma Part000_settleHole_shape s idx carry h :
  Part000.settleHole s idx carry h
  = match teamOf T1 idx (Part000.teamPicks h), teamOf T2 idx (Part000.teamPicks h) with
    | [], [] => (zeroRow (length idx), carry)
    | (_ :: _) as t1, [] => Part000.settleSolo s idx carry h t1 (zeroRow (length idx))
    | [], (_ :: _) as t2 => Part000.settleSolo s idx carry h t2 (zeroRow (length idx))
    | (_ :: _) as t1, (_ :: _) as t2 =>
        Part000.settleTeams s idx carry h t1 t2 (zeroRow (length idx))
    end.
Proof.
  unfold Part000.settleHole.
  destruct (teamOf T1 idx (Part000.teamPicks h)) as [|a t1];
    destruct (teamOf T2 idx (Part000.teamPicks h)) as [|b t2]; reflexivity.
Qed.

(* ================================================================== *)
(** * The carry counter *)

Lemma App_solo_carry s idx carry h g row0 :
  cleanGroup idx (App.scores h) g = true ->
  snd (App.settleSolo s idx carry h g row0)
  = carryStep (App.carryOver s) (soloKind idx (App.scores h) g) carry.
Proof.
  intros Hc. rewrite App_settleSolo_clean by assumption. unfold soloKind.
  destruct (groupBest idx (App.scores h) g) as [m|]; [|reflexivity].
  now destruct (length (holders idx (App.scores h) g m) =? 1)%nat.
Qed.

Lemma App_teams_carry s idx carry h t1 t2 row0 :
  cleanGroup idx (App.scores h) t1 = true ->
  cleanGroup idx (App.scores h) t2 = true ->
  snd (App.settleTeams s idx carry h t1 t2 row0)
  = carryStep (App.carryOver s) (teamKind idx (App.scores h) t1 t2) carry.
Proof.
  intros H1 H2. unfold teamKind.
  pose proof (App_teamBest_clean idx h t1 H1) as B1.
  pose proof (App_teamBest_clean idx h t2 H2) as B2.
  destruct (groupBest idx (App.scores h) t1) as [a|];
    [destruct (groupBest idx (App.scores h) t2) as [b|]|].
  - rewrite (App_settleTeams_finite _ _ _ _ _ _ _ a b) by assumption.
    now destruct (Qc_eqb a b).
  - rewrite App_settleTeams_void; [reflexivity|]. right. now rewrite B2.
  - rewrite App_settleTeams_void; [reflexivity|]. left. now rewrite B1.
Qed.

Lemma App_carry_step (s : App.Settings) (idx : list nat) (carry : nat)
    (h : App.HoleState) :
  wellFormed idx (App.teamPicks h) (App.scores h) = true ->
  snd (App.settleHole s idx carry h)
  = carryStep (App.carryOver s)
      (roundKind idx (App.teamPicks h) (App.scores h)) carry.
Proof.
  unfold wellFormed, roundKind. rewrite App_settleHole_shape.
  destruct (teamOf T1 idx (App.teamPicks h)) as [|a t1];
    destruct (teamOf T2 idx (App.teamPicks h)) as [|b t2];
    intros Hwf; apply andb_true_iff in Hwf; destruct Hwf as [H1 H2].
  - reflexivity.
  - now apply App_solo_carry.
  - now apply App_solo_carry.
  - now apply App_teams_carry.
Qed.

Lemma Part000_solo_carry s idx carry h g row0 :
  cleanGroup idx (Part000.scores h) g = true ->
  snd (Part000.settleSolo s idx carry h g row0)
  = carryStep (Part000.carryOver s) (soloKind idx (Part000.scores h) g) carry.
Proof.
  intros Hc. rewrite Part000_settleSolo_clean by assumption. unfold soloKind.
  destruct (groupBest idx (Part000.scores h) g) as [m|]; [|reflexivity].
  now destruct (length (holders idx (Part000.scores h) g m) =? 1)%nat.
Qed.

Lemma Part000_bestOfTeam_clean (idx : list nat) (h : Part000.HoleState)
    (g : list nat) :
  cleanGroup idx (Part000.scores h) g = true ->
  Part000.bestOfTeam idx h g = toNum (groupBest idx (Part000.scores h) g).
Proof. apply Part000_minOf_clean. Qed.

Lemma Part000_teams_carry s idx carry h t1 t2 row0 :
  (0 < length t1)%nat -> (0 < length t2)%nat ->
  cleanGroup idx (Part000.scores h) t1 = true ->
  cleanGroup idx (Part000.scores h) t2 = true ->
  snd (Part000.settleTeams s idx carry h t1 t2 row0)
  = carryStep (Part000.carryOver s) (teamKind idx (Part000.scores h) t1 t2) carry.
Proof.
  intros N1 N2 H1 H2. unfold teamKind.
  pose proof (Part000_bestOfTeam_clean idx h t1 H1) as B1.
  pose proof (Part000_bestOfTeam_clean idx h t2 H2) as B2.
  destruct (groupBest idx (Part000.scores h) t1) as [a|];
    [destruct (groupBest idx (Part000.scores h) t2) as [b|]|].
  - rewrite (Part000_settleTeams_finite _ _ _ _ _ _ _ a b) by assumption.
    now destruct (Qc_eqb a b).
  - rewrite Part000_settleTeams_void; [reflexivity|]. right. now rewrite B2.
  - rewrite Part000_settleTeams_void; [reflexivity|]. left. now rewrite B1.
Qed.

Lemma Part000_carry_step (s : Part000.Settings) (idx : list nat) (carry : nat)
    (h : Part000.HoleState) :
  wellFormed idx (Part000.teamPicks h) (Part000.scores h) = true ->
  snd (Part000.settleHole s idx carry h)
  = carryStep (Part000.carryOver s)
      (roundKind idx (Part000.teamPicks h) (Part000.scores h)) carry.
Proof.
  unfold wellFormed, roundKind. rewrite Part000_settleHole_shape.
  destruct (teamOf T1 idx (Part000.teamPicks h)) as [|a t1];
    destruct (teamOf T2 idx (Part000.teamPicks h)) as [|b t2];
    intros Hwf; apply andb_true_iff in Hwf; destruct Hwf as [H1 H2].
  - reflexivity.
  - now apply Part000_solo_carry.
  - now apply Part000_solo_carry.
  - apply Part000_teams_carry; simpl; try assumption; lia.
Qed.

Lemma App_settleAll_app (s : App.Settings) (idx : list nat) (carry : nat)
    (hs1 hs2 : list App.HoleState) :
  App.settleAll s idx carry (hs1 ++ hs2)
  = (fst (App.settleAll s idx carry hs1)
       ++ fst (App.settleAll s idx (snd (App.settleAll s idx carry hs1)) hs2),
     snd (App.settleAll s idx (snd (App.settleAll s idx carry hs1)) hs2)).
Proof.
  revert carry. induction hs1 as [|h hs1 IH]; intros carry; simpl.
  - now destruct (App.settleAll s idx carry hs2).
  - now rewrite IH.
Qed.

Lemma Part000_settleAll_app (s : Part000.Settings) (idx : list nat) (carry : nat)
    (hs1 hs2 : list Part000.HoleState) :
  Part000.settleAll s idx carry (hs1 ++ hs2)
  = (fst (Part000.settleAll s idx carry hs1)
       ++ fst (Part000.settleAll s idx (snd (Part000.settleAll s idx carry hs1)) hs2),
     snd (Part000.settleAll s idx (snd (Part000.settleAll s idx carry hs1)) hs2)).
Proof.
  revert carry. induction hs1 as [|h hs1 IH]; intros carry; simpl.
  - now destruct (Part000.settleAll s idx carry hs2).
  - now rewrite IH.
Qed.

(* ================================================================== *)
(** * What a paid row holds *)

Lemma upd_ext (row : list Qc) (i : nat) (f g : Qc -> Qc) :
  (forall d, f d = g d) -> upd row i f = upd row i g.
Proof.
  intros H. revert i. induction row as [|x r IH]; intros [|j]; simpl; auto.
  - now rewrite H.
  - now rewrite IH.
Qed.

Lemma upd_upd_same (row : list Qc) (i : nat) (f g : Qc -> Qc) :
  upd (upd row i f) i g = upd row i (fun d => g (f d)).
Proof.
  revert i. induction row as [|x r IH]; intros [|j]; simpl; auto.
  now rewrite IH.
Qed.

Lemma upd_upd_comm (row : list Qc) (i j : nat) (f g : Qc -> Qc) :
  i <> j -> upd (upd row i f) j g = upd (upd row j g) i f.
Proof.
  revert i j. induction row as [|x r IH]; intros [|i] [|j] H; simpl; auto.
  - congruence.
  - rewrite IH; [reflexivity|congruence].
Qed.

Lemma addAt_upd_comm (x : Qc) (l : list nat) (row : list Qc) (w : nat)
    (f : Qc -> Qc) :
  ~ In w l -> addAt x l (upd row w f) = upd (addAt x l row) w f.
Proof.
  unfold addAt. revert row. induction l as [|a l IH]; intros row H; simpl in *.
  - reflexivity.
  - rewrite <- IH by tauto. f_equal. apply upd_upd_comm. intros ->. tauto.
Qed.

(** The loop of [App.tsx] that pays the winner one stake at a time writes
    the same row as the two statements of [part_000]. *)
Lemma App_paySolo_Part000 (ps : list nat) (w : nat) (stake : Qc) (row : list Qc) :
  App.paySolo ps w stake row
  = Part000.paySolo (filter (fun aj => negb (aj =? w)%nat) ps) w stake row.
Proof.
  rewrite Part000_paySolo_addAt. unfold App.paySolo. revert row.
  induction ps as [|a ps IH]; intros row; simpl.
  - unfold addAt. simpl. rewrite ofNat_0.
    rewrite <- (upd_ext row w (fun d => d)); [|intros d; ring].
    clear. revert w. induction row as [|x r IH]; intros [|j]; simpl; auto.
    now rewrite <- IH.
  - destruct (a =? w)%nat eqn:E; simpl; [apply IH|].
    apply Nat.eqb_neq in E. rewrite IH.
    set (F := filter (fun aj => negb (aj =? w)%nat) ps).
    assert (HwF : ~ In w F).
    { unfold F. intros HF. apply filter_In in HF. destruct HF as [_ HF].
      now rewrite Nat.eqb_refl in HF. }
    unfold addAt at 2. simpl. fold (addAt (- stake) F (upd row a (fun d => d + - stake))).
    rewrite addAt_upd_comm by assumption.
    rewrite upd_upd_same. apply upd_ext. intros d. rewrite ofNat_S. ring.
Qed.

Section PaidRows.

Variable n : nat.

Lemma nth_pay_outer (x y : Qc) (A B : list nat) (k : nat) :
  NoDup A -> In k A -> ~ In k B -> (k < n)%nat ->
  nth k (addAt x A (addAt y B (zeroRow n))) 0 = x.
Proof.
  intros HA Hin Hn Hk.
  rewrite nth_addAt_in by (rewrite ?addAt_length, ?zeroRow_length; assumption).
  rewrite nth_addAt_notin by assumption. rewrite nth_zeroRow. ring.
Qed.

Lemma nth_pay_inner (x y : Qc) (A B : list nat) (k : nat) :
  NoDup B -> In k B -> ~ In k A -> (k < n)%nat ->
  nth k (addAt x A (addAt y B (zeroRow n))) 0 = y.
Proof.
  intros HB Hin Hn Hk.
  rewrite nth_addAt_notin by assumption.
  rewrite nth_addAt_in by (rewrite ?zeroRow_length; assumption).
  rewrite nth_zeroRow. ring.
Qed.

Lemma nth_pay_none (x y : Qc) (A B : list nat) (k : nat) :
  ~ In k A -> ~ In k B ->
  nth k (addAt x A (addAt y B (zeroRow n))) 0 = 0.
Proof.
  intros HA HB. rewrite !nth_addAt_notin by assumption. apply nth_zeroRow.
Qed.

(** The row of an individual-mode win. *)
Lemma nth_paySolo_winner (ps : list nat) (w : nat) (b : Qc) :
  (w < n)%nat ->
  nth w (Part000.paySolo (filter (fun aj => negb (aj =? w)%nat) ps) w b (zeroRow n)) 0
  = b * ofNat (length (filter (fun aj => negb (aj =? w)%nat) ps)).
Proof.
  intros Hw. rewrite Part000_paySolo_addAt.
  rewrite nth_upd_same by now rewrite addAt_length, zeroRow_length.
  rewrite nth_addAt_notin.
  - rewrite nth_zeroRow. ring.
  - intros HF. apply filter_In in HF. destruct HF as [_ HF].
    now rewrite Nat.eqb_refl in HF.
Qed.

Lemma nth_paySolo_loser (ps : list nat) (w k : nat) (b : Qc) :
  NoDup ps -> In k ps -> k <> w -> (k < n)%nat ->
  nth k (Part000.paySolo (filter (fun aj => negb (aj =? w)%nat) ps) w b (zeroRow n)) 0
  = - b.
Proof.
  intros Hnd Hin Hne Hk. rewrite Part000_paySolo_addAt.
  rewrite nth_upd_other by congruence.
  rewrite nth_addAt_in.
  - rewrite nth_zeroRow. ring.
  - now apply NoDup_filter.
  - apply filter_In. split; [assumption|].
    apply negb_true_iff. now apply Nat.eqb_neq.
  - now rewrite zeroRow_length.
Qed.

Lemma nth_paySolo_outside (ps : list nat) (w k : nat) (b : Qc) :
  ~ In k ps -> k <> w ->
  nth k (Part000.paySolo (filter (fun aj => negb (aj =? w)%nat) ps) w b (zeroRow n)) 0
  = 0.
Proof.
  intros Hin Hne. rewrite Part000_paySolo_addAt.
  rewrite nth_upd_other by congruence.
  rewrite nth_addAt_notin; [apply nth_zeroRow|].
  intros HF. apply filter_In in HF. tauto.
Qed.

End PaidRows.

Lemma length_filter_others (ps : list nat) (w : nat) :
  NoDup ps -> In w ps ->
  length (filter (fun aj => negb (aj =? w)%nat) ps) = (length ps - 1)%nat.
Proof.
  induction ps as [|a ps IH]; intros Hnd Hin; [destruct Hin|].
  inversion Hnd as [|? ? Hna Hnd']; subst. simpl.
  destruct (a =? w)%nat eqn:E; simpl.
  - apply Nat.eqb_eq in E. subst a. rewrite Nat.sub_0_r.
    clear IH Hin Hnd Hnd'. induction ps as [|c ps IH]; simpl; [reflexivity|].
    destruct (c =? w)%nat eqn:Ec.
    + apply Nat.eqb_eq in Ec. subst c. exfalso. apply Hna. now left.
    + simpl. f_equal. apply IH. intros H. apply Hna. now right.
  - apply Nat.eqb_neq in E. destruct Hin as [->|Hin]; [congruence|].
    rewrite IH by assumption. destruct ps; [destruct Hin|simpl; lia].
Qed.

(* ================================================================== *)
(** * A unique holder of the minimum *)

Lemma Qc_min_low (v m : Qc) : v <= m -> Qc_min m v = v.
Proof.
  intros H. unfold Qc_min. destruct (Qc_ltb v m) eqn:E; [reflexivity|].
  apply Qcle_antisym; [|assumption].
  apply Qcnot_lt_le. intros Hlt. apply Qc_ltb_lt in Hlt. congruence.
Qed.

Lemma Qc_min_keep (v u : Qc) : v <= u -> Qc_min v u = v.
Proof.
  intros H. unfold Qc_min. destruct (Qc_ltb u v) eqn:E; [|reflexivity].
  apply Qc_ltb_lt in E. exfalso. now apply (Qcle_not_lt v u).
Qed.

Lemma filter_unique {A : Type} (f : A -> bool) (l : list A) (w : A) :
  NoDup l -> In w l -> (forall x, In x l -> f x = true <-> x = w) ->
  filter f l = [w].
Proof.
  induction l as [|a l IH]; intros Hnd Hin Hf; [destruct Hin|].
  inversion Hnd as [|? ? Hna Hnd']; subst. simpl.
  destruct (f a) eqn:Ea.
  - apply Hf in Ea; [|now left]. subst a. f_equal.
    assert (Hnone : forall x, In x l -> f x = false).
    { intros x Hx. destruct (f x) eqn:Ex; [|reflexivity].
      apply Hf in Ex; [|now right]. subst x. contradiction. }
    clear - Hnone. induction l as [|c l IH]; simpl; [reflexivity|].
    rewrite Hnone by now left. apply IH. intros x Hx. apply Hnone. now right.
  - destruct Hin as [->|Hin].
    + assert (f w = true) by (apply Hf; [now left|reflexivity]). congruence.
    + apply IH; try assumption. intros x Hx. apply Hf. now right.
Qed.

Section UniqueLow.

Variable idx : list nat.
Variable scores : list cell.
Variable winner : nat.
Variable v : Qc.

Lemma beats_cases (aj : nat) :
  beats v (readScore scores (nth aj idx 0%nat)) = true ->
  cleanCell (readScore scores (nth aj idx 0%nat)) = true
  /\ (recorded idx scores aj = None
      \/ exists u, recorded idx scores aj = Some u /\ v < u).
Proof.
  unfold recorded. destruct (readScore scores (nth aj idx 0%nat)) as [|[| | |u]];
    simpl; intros H; try discriminate; split; auto.
  right. exists u. split; [reflexivity|]. now apply Qc_ltb_lt.
Qed.

Lemma uniqueLow_parts (g : list nat) :
  uniqueLow idx scores g winner v = true ->
  In winner g
  /\ recorded idx scores winner = Some v
  /\ forall aj, In aj g -> aj <> winner ->
       beats v (readScore scores (nth aj idx 0%nat)) = true.
Proof.
  unfold uniqueLow. intros H.
  apply andb_true_iff in H. destruct H as [H H3].
  apply andb_true_iff in H. destruct H as [H1 H2].
  split; [|split].
  - apply existsb_exists in H1. destruct H1 as [x [Hx Ex]].
    apply Nat.eqb_eq in Ex. now subst x.
  - destruct (recorded idx scores winner) as [q|]; [|discriminate].
    apply Qc_eqb_eq in H2. now subst q.
  - intros aj Hin Hne. rewrite forallb_forall in H3. specialize (H3 aj Hin).
    apply orb_true_iff in H3. destruct H3 as [E|E]; [|assumption].
    apply Nat.eqb_eq in E. contradiction.
Qed.

Lemma recorded_clean (aj : nat) (q : Qc) :
  recorded idx scores aj = Some q ->
  cleanCell (readScore scores (nth aj idx 0%nat)) = true.
Proof.
  unfold recorded. now destruct (readScore scores (nth aj idx 0%nat)) as [|[| | |u]].
Qed.

Lemma uniqueLow_clean (g : list nat) :
  uniqueLow idx scores g winner v = true -> cleanGroup idx scores g = true.
Proof.
  intros H. destruct (uniqueLow_parts g H) as [Hin [Hrec Hoth]].
  unfold cleanGroup. apply forallb_forall. intros aj Haj.
  destruct (Nat.eq_dec aj winner) as [->|Hne].
  - eapply recorded_clean; eassumption.
  - now apply beats_cases, Hoth.
Qed.

(** Once the best is [v] it stays [v] while the values met are above it. *)
Lemma fold_lower_stays (g : list nat) :
  (forall aj, In aj g ->
     recorded idx scores aj = None
     \/ exists u, recorded idx scores aj = Some u /\ v <= u) ->
  fold_left (fun best aj => lower best (recorded idx scores aj)) g (Some v) = Some v.
Proof.
  induction g as [|a g IH]; intros H; simpl; [reflexivity|].
  destruct (H a (or_introl eq_refl)) as [->|[u [-> Hu]]]; simpl.
  - apply IH. intros aj Haj. apply H. now right.
  - rewrite Qc_min_keep by assumption. apply IH. intros aj Haj. apply H. now right.
Qed.

Lemma fold_lower_reaches (g : list nat) (acc : option Qc) :
  (forall aj, In aj g ->
     recorded idx scores aj = None
     \/ exists u, recorded idx scores aj = Some u /\ v <= u) ->
  match acc with None => True | Some m => v <= m end ->
  (exists w, In w g /\ recorded idx scores w = Some v) ->
  fold_left (fun best aj => lower best (recorded idx scores aj)) g acc = Some v.
Proof.
  revert acc. induction g as [|a g IH]; intros acc H Hacc [w [Hw Hrec]];
    [destruct Hw|]. simpl.
  assert (Hg : forall aj, In aj g ->
     recorded idx scores aj = None
     \/ exists u, recorded idx scores aj = Some u /\ v <= u)
    by (intros aj Haj; apply H; now right).
  destruct (H a (or_introl eq_refl)) as [Ea|[u [Ea Hu]]]; rewrite Ea.
  - apply IH; try assumption.
    destruct Hw as [->|Hw]; [congruence|]. now exists w.
  - destruct Hw as [->|Hw].
    + assert (u = v) by congruence. subst u.
      replace (lower acc (Some v)) with (Some v).
      * now apply fold_lower_stays.
      * destruct acc as [m|]; simpl; [|reflexivity]. now rewrite Qc_min_low.
    + apply IH; try assumption; [|now exists w].
      destruct acc as [m|]; simpl; [|assumption].
      unfold Qc_min. now destruct (Qc_ltb u m).
Qed.

Lemma uniqueLow_groupBest (g : list nat) :
  uniqueLow idx scores g winner v = true -> groupBest idx scores g = Some v.
Proof.
  intros H. destruct (uniqueLow_parts g H) as [Hin [Hrec Hoth]].
  unfold groupBest. apply fold_lower_reaches; [|exact I|now exists winner].
  intros aj Haj. destruct (Nat.eq_dec aj winner) as [->|Hne].
  - right. exists v. split; [assumption|apply Qcle_refl].
  - destruct (beats_cases aj (Hoth aj Haj Hne)) as [_ [E|[u [E Hu]]]]; [now left|].
    right. exists u. split; [assumption|now apply Qclt_le_weak].
Qed.

Lemma uniqueLow_holders (g : list nat) :
  NoDup g -> uniqueLow idx scores g winner v = true ->
  holders idx scores g v = [winner].
Proof.
  intros Hnd H. destruct (uniqueLow_parts g H) as [Hin [Hrec Hoth]].
  unfold holders. apply filter_unique; try assumption.
  intros aj Haj. split.
  - intros E. destruct (Nat.eq_dec aj winner) as [->|Hne]; [reflexivity|].
    exfalso. destruct (beats_cases aj (Hoth aj Haj Hne)) as [_ [E'|[u [E' Hu]]]];
      rewrite E' in E; [discriminate|].
    apply Qc_eqb_eq in E. subst u. now apply Qclt_not_eq in Hu.
  - intros ->. rewrite Hrec. apply Qc_eqb_refl.
Qed.

End UniqueLow.

(* ================================================================== *)
(** * Individual mode: the unique low score takes a full stake from each *)

Lemma App_solo_win s idx carry h g w v row0 :
  NoDup g -> uniqueLow idx (App.scores h) g w v = true ->
  App.settleSolo s idx carry h g row0
  = (Part000.paySolo (filter (fun aj => negb (aj =? w)%nat) g) w
       (App.stakeForScore s carry (App.holePar h) (Fin v)) row0, 0%nat).
Proof.
  intros Hnd H.
  rewrite App_settleSolo_clean by (eapply uniqueLow_clean; eassumption).
  rewrite (uniqueLow_groupBest _ _ _ _ _ H).
  rewrite (uniqueLow_holders _ _ _ _ _ Hnd H). simpl.
  now rewrite App_paySolo_Part000.
Qed.

Lemma Part000_solo_win s idx carry h g w v row0 :
  NoDup g -> uniqueLow idx (Part000.scores h) g w v = true ->
  Part000.settleSolo s idx carry h g row0
  = (Part000.paySolo (filter (fun aj => negb (aj =? w)%nat) g) w
       (Part000.computeBaseStake s carry (Part000.holePar h) (Fin v)) row0, 0%nat).
Proof.
  intros Hnd H.
  rewrite Part000_settleSolo_clean by (eapply uniqueLow_clean; eassumption).
  rewrite (uniqueLow_groupBest _ _ _ _ _ H).
  now rewrite (uniqueLow_holders _ _ _ _ _ Hnd H).
Qed.

Lemma individualMode_cases (idx : list nat) (picks : list TeamPick) :
  individualMode idx picks = true ->
  (teamOf T2 idx picks = [] /\ populated idx picks = teamOf T1 idx picks
   /\ teamOf T1 idx picks <> [])
  \/ (teamOf T1 idx picks = [] /\ populated idx picks = teamOf T2 idx picks
      /\ teamOf T2 idx picks <> []).
Proof.
  unfold individualMode, populated.
  destruct (teamOf T1 idx picks) as [|a t1]; destruct (teamOf T2 idx picks) as [|b t2];
    try discriminate; intros _.
  - right. repeat split. discriminate.
  - left. repeat split; [apply app_nil_r|discriminate].
Qed.

Lemma populated_NoDup (idx : list nat) (picks : list TeamPick) :
  individualMode idx picks = true -> NoDup (populated idx picks).
Proof.
  intros H. destruct (individualMode_cases _ _ H) as [[_ [-> _]]|[_ [-> _]]];
    apply team_NoDup.
Qed.

Lemma populated_bound (idx : list nat) (picks : list TeamPick) (aj : nat) :
  In aj (populated idx picks) -> (aj < length idx)%nat.
Proof.
  unfold populated. intros H. apply in_app_or in H.
  destruct H as [H|H];
    [pose proof (team_bound T1 idx picks) as B|pose proof (team_bound T2 idx picks) as B];
    rewrite Forall_forall in B; now apply B.
Qed.

Lemma App_settleHole_individual s idx carry h :
  individualMode idx (App.teamPicks h) = true ->
  App.settleHole s idx carry h
  = App.settleSolo s idx carry h (populated idx (App.teamPicks h))
      (zeroRow (length idx)).
Proof.
  intros H. rewrite App_settleHole_shape.
  unfold individualMode, populated in *.
  destruct (teamOf T1 idx (App.teamPicks h)) as [|a t1];
    destruct (teamOf T2 idx (App.teamPicks h)) as [|b t2]; try discriminate.
  - reflexivity.
  - now rewrite app_nil_r.
Qed.

Lemma Part000_settleHole_individual s idx carry h :
  individualMode idx (Part000.teamPicks h) = true ->
  Part000.settleHole s idx carry h
  = Part000.settleSolo s idx carry h (populated idx (Part000.teamPicks h))
      (zeroRow (length idx)).
Proof.
  intros H. rewrite Part000_settleHole_shape.
  unfold individualMode, populated in *.
  destruct (teamOf T1 idx (Part000.teamPicks h)) as [|a t1];
    destruct (teamOf T2 idx (Part000.teamPicks h)) as [|b t2]; try discriminate.
  - reflexivity.
  - now rewrite app_nil_r.
Qed.

(** The three kinds of entries of the row of an individual-mode win. *)
Lemma solo_row_entries (n : nat) (g : list nat) (w : nat) (stake : Qc) :
  NoDup g -> In w g -> (forall aj, In aj g -> (aj < n)%nat) ->
  let row := Part000.paySolo (filter (fun aj => negb (aj =? w)%nat) g) w stake
               (zeroRow n) in
  nth w row 0 = stake * ofNat (length g - 1)
  /\ (forall aj, In aj g -> aj <> w -> nth aj row 0 = - stake)
  /\ (forall k, ~ In k g -> nth k row 0 = 0).
Proof.
  intros Hnd Hin Hb row. unfold row. split; [|split].
  - rewrite nth_paySolo_winner by now apply Hb.
    now rewrite length_filter_others.
  - intros aj Haj Hne. apply nth_paySolo_loser; auto.
  - intros k Hk. apply nth_paySolo_outside; [assumption|].
    intros ->. contradiction.
Qed.


(* ================================================================== *)
(** * Team mode: the rows of a decisive round *)

Lemma App_teamBest_nil idx h : App.teamBest idx h [] = PosInf.
Proof. reflexivity. Qed.

Lemma Part000_bestOfTeam_nil idx h : Part000.bestOfTeam idx h [] = PosInf.
Proof. reflexivity. Qed.

Lemma sides_facts (idx : list nat) (picks : list TeamPick) (b1 b2 : Qc) :
  teamOf T1 idx picks <> [] -> teamOf T2 idx picks <> [] ->
  let winners := winnersOf idx picks b1 b2 in
  let losers := losersOf idx picks b1 b2 in
  NoDup winners /\ NoDup losers
  /\ (forall aj, In aj winners -> ~ In aj losers)
  /\ (forall aj, In aj winners -> (aj < length idx)%nat)
  /\ (forall aj, In aj losers -> (aj < length idx)%nat)
  /\ (0 < length winners)%nat /\ (0 < length losers)%nat.
Proof.
  intros N1 N2. unfold winnersOf, losersOf.
  pose proof (team_bound T1 idx picks) as B1.
  pose proof (team_bound T2 idx picks) as B2.
  rewrite Forall_forall in B1, B2.
  assert (L1 : (0 < length (teamOf T1 idx picks))%nat)
    by (destruct (teamOf T1 idx picks); [congruence|simpl; lia]).
  assert (L2 : (0 < length (teamOf T2 idx picks))%nat)
    by (destruct (teamOf T2 idx picks); [congruence|simpl; lia]).
  destruct (Qc_ltb b1 b2); cbv zeta; repeat split;
    try apply team_NoDup; try assumption.
  - intros aj. apply teams_disjoint.
  - intros aj H2 H1. now apply (teams_disjoint idx picks aj).
Qed.

Lemma App_team_round (s : App.Settings) (idx : list nat) (carry : nat)
    (h : App.HoleState) (b1 b2 : Qc) :
  App.teamBest idx h (teamOf T1 idx (App.teamPicks h)) = Fin b1 ->
  App.teamBest idx h (teamOf T2 idx (App.teamPicks h)) = Fin b2 ->
  Qc_eqb b1 b2 = false ->
  let winners := winnersOf idx (App.teamPicks h) b1 b2 in
  let losers := losersOf idx (App.teamPicks h) b1 b2 in
  let W := length winners in
  let L := length losers in
  let stake := App.stakeForScore s carry (App.holePar h) (Fin (Qc_min b1 b2)) in
  teamOf T1 idx (App.teamPicks h) <> [] /\ teamOf T2 idx (App.teamPicks h) <> []
  /\ App.settleHole s idx carry h
     = (addAt (- App.perLoserLoss s W L stake) losers
          (addAt (App.perWinnerGain s W L stake) winners (zeroRow (length idx))),
        0%nat).
Proof.
  intros H1 H2 Hne. cbv zeta.
  assert (N1 : teamOf T1 idx (App.teamPicks h) <> [])
    by (intros E; rewrite E in H1; discriminate).
  assert (N2 : teamOf T2 idx (App.teamPicks h) <> [])
    by (intros E; rewrite E in H2; discriminate).
  split; [assumption|split; [assumption|]].
  rewrite App_settleHole_shape. unfold winnersOf, losersOf.
  destruct (teamOf T1 idx (App.teamPicks h)) as [|a t1] eqn:E1; [congruence|].
  destruct (teamOf T2 idx (App.teamPicks h)) as [|b t2] eqn:E2; [congruence|].
  rewrite (App_settleTeams_finite _ _ _ _ _ _ _ b1 b2) by assumption.
  now rewrite Hne.
Qed.

Lemma Part000_team_round (s : Part000.Settings) (idx : list nat) (carry : nat)
    (h : Part000.HoleState) (b1 b2 : Qc) :
  Part000.bestOfTeam idx h (teamOf T1 idx (Part000.teamPicks h)) = Fin b1 ->
  Part000.bestOfTeam idx h (teamOf T2 idx (Part000.teamPicks h)) = Fin b2 ->
  Qc_eqb b1 b2 = false ->
  let winners := winnersOf idx (Part000.teamPicks h) b1 b2 in
  let losers := losersOf idx (Part000.teamPicks h) b1 b2 in
  let W := length winners in
  let L := length losers in
  let baseStake :=
    Part000.computeBaseStake s carry (Part000.holePar h) (Fin (Qc_min b1 b2)) in
  teamOf T1 idx (Part000.teamPicks h) <> [] /\ teamOf T2 idx (Part000.teamPicks h) <> []
  /\ Part000.settleHole s idx carry h
     = (addAt (baseStake * (if (W <? L)%nat then ofNat L / ofNat W else 1)) winners
          (addAt (- (baseStake * (if (L <? W)%nat then ofNat W / ofNat L else 1)))
             losers (zeroRow (length idx))),
        0%nat).
Proof.
  intros H1 H2 Hne. cbv zeta.
  assert (N1 : teamOf T1 idx (Part000.teamPicks h) <> [])
    by (intros E; rewrite E in H1; discriminate).
  assert (N2 : teamOf T2 idx (Part000.teamPicks h) <> [])
    by (intros E; rewrite E in H2; discriminate).
  split; [assumption|split; [assumption|]].
  rewrite Part000_settleHole_shape. unfold winnersOf, losersOf.
  destruct (teamOf T1 idx (Part000.teamPicks h)) as [|a t1] eqn:E1; [congruence|].
  destruct (teamOf T2 idx (Part000.teamPicks h)) as [|b t2] eqn:E2; [congruence|].
  rewrite (Part000_settleTeams_finite _ _ _ _ _ _ _ b1 b2);
    try assumption; try (simpl; lia).
  now rewrite Hne.
Qed.

Lemma App_gain_spec (s : App.Settings) (W L : nat) (stake : Qc) :
  App.perWinnerGain s W L stake
  = if minorityWin (App.soloDouble s) W L then spec_gain W L stake * ofZ 2
    else spec_gain W L stake.
Proof. reflexivity. Qed.

Lemma App_loss_spec (s : App.Settings) (W L : nat) (stake : Qc) :
  App.perLoserLoss s W L stake
  = if minorityWin (App.soloDouble s) W L then spec_loss W L stake * ofZ 2
    else spec_loss W L stake.
Proof. reflexivity. Qed.

Lemma Part000_gain_spec (W L : nat) (b : Qc) :
  b * (if (W <? L)%nat then ofNat L / ofNat W else 1) = spec_gain W L b.
Proof.
  unfold spec_gain.
  destruct (Nat.ltb_spec W L); destruct (Nat.leb_spec L W); try lia;
    [reflexivity|ring].
Qed.

Lemma Part000_loss_spec (W L : nat) (b : Qc) :
  b * (if (L <? W)%nat then ofNat W / ofNat L else 1) = spec_loss W L b.
Proof.
  unfold spec_loss. destruct (L <? W)%nat; [reflexivity|ring].
Qed.

Lemma spec_balance (W L : nat) (stake : Qc) :
  (0 < W)%nat -> (0 < L)%nat ->
  spec_gain W L stake * ofNat W = spec_loss W L stake * ofNat L.
Proof.
  intros HW HL. pose proof (ofNat_neq_0 W HW) as HW0.
  pose proof (ofNat_neq_0 L HL) as HL0. unfold spec_gain, spec_loss.
  destruct (Nat.leb_spec L W) as [E1|E1];
    destruct (Nat.ltb_spec L W) as [E2|E2];
    try lia; try (assert (W = L) by lia; subst L);
    try reflexivity; field; assumption.
Qed.

(** C3.  In a two-sided decisive round (both teams have a finite best and
    the bests differ) with [W >= 1] winners and [L >= 1] losers, each
    winner's delta before any minority-win doubling is [+stake] when
    [W >= L] and [+stake * (L / W)] when [W < L], and each loser's delta is
    [-stake * (W / L)] when [W > L] and [-stake] otherwise: the row of
    [App.tsx] holds these amounts times the doubling factor (1 unless the
    doubling applies), the row of [part_000] holds them as they are; and for
    all [W, L >= 1] the gains equal the losses,
    [perWinnerGain * W = perLoserLoss * L]. *)
Theorem C3_team_uneven_payout :
  (forall (s : App.Settings) (idx : list nat) (carry : nat) (h : App.HoleState)
          (b1 b2 : Qc),
      App.teamBest idx h (teamOf T1 idx (App.teamPicks h)) = Fin b1 ->
      App.teamBest idx h (teamOf T2 idx (App.teamPicks h)) = Fin b2 ->
      Qc_eqb b1 b2 = false ->
      let winners := winnersOf idx (App.teamPicks h) b1 b2 in
      let losers := losersOf idx (App.teamPicks h) b1 b2 in
      let W := length winners in
      let L := length losers in
      let stake := App.stakeForScore s carry (App.holePar h) (Fin (Qc_min b1 b2)) in
      let row := fst (App.settleHole s idx carry h) in
      let doubling := if minorityWin (App.soloDouble s) W L then ofZ 2 else 1 in
      (1 <= W)%nat /\ (1 <= L)%nat
      /\ (forall aj, In aj winners ->
            nth aj row 0
            = (if (L <=? W)%nat then stake else stake * (ofNat L / ofNat W)) * doubling)
      /\ (forall aj, In aj losers ->
            nth aj row 0
            = - ((if (L <? W)%nat then stake * (ofNat W / ofNat L) else stake)
                 * doubling)))
  /\
  (forall (s : Part000.Settings) (idx : list nat) (carry : nat)
          (h : Part000.HoleState) (b1 b2 : Qc),
      Part000.bestOfTeam idx h (teamOf T1 idx (Part000.teamPicks h)) = Fin b1 ->
      Part000.bestOfTeam idx h (teamOf T2 idx (Part000.teamPicks h)) = Fin b2 ->
      Qc_eqb b1 b2 = false ->
      let winners := winnersOf idx (Part000.teamPicks h) b1 b2 in
      let losers := losersOf idx (Part000.teamPicks h) b1 b2 in
      let W := length winners in
      let L := length losers in
      let stake :=
        Part000.computeBaseStake s carry (Part000.holePar h) (Fin (Qc_min b1 b2)) in
      let row := fst (Part000.settleHole s idx carry h) in
      (1 <= W)%nat /\ (1 <= L)%nat
      /\ (forall aj, In aj winners ->
            nth aj row 0 = if (L <=? W)%nat then stake else stake * (ofNat L / ofNat W))
      /\ (forall aj, In aj losers ->
            nth aj row 0 = - (if (L <? W)%nat then stake * (ofNat W / ofNat L) else stake)))
  /\
  (forall (W L : nat) (stake : Qc), (1 <= W)%nat -> (1 <= L)%nat ->
      spec_gain W L stake * ofNat W = spec_loss W L stake * ofNat L)
  /\
  (forall (s : App.Settings) (W L : nat) (stake : Qc),
      (1 <= W)%nat -> (1 <= L)%nat ->
      App.perWinnerGain s W L stake * ofNat W
      = App.perLoserLoss s W L stake * ofNat L).
Proof.
  split; [|split; [|split]].
  - intros s idx carry h b1 b2 H1 H2 Hne winners losers W L stake row doubling.
    destruct (App_team_round s idx carry h b1 b2 H1 H2 Hne) as [N1 [N2 Hrow]].
    destruct (sides_facts idx (App.teamPicks h) b1 b2 N1 N2)
      as [Dw [Dl [Hdis [Bw [Bl [Pw Pl]]]]]].
    unfold row. rewrite Hrow. cbn [fst].
    rewrite App_gain_spec, App_loss_spec.
    fold winners losers W L stake. unfold doubling.
    split; [exact Pw|split; [exact Pl|split]].
    + intros aj Haj. rewrite nth_pay_inner; auto.
      unfold spec_gain. destruct (minorityWin (App.soloDouble s) W L); ring.
    + intros aj Haj. rewrite nth_pay_outer; auto.
      * unfold spec_loss. destruct (minorityWin (App.soloDouble s) W L); ring.
      * intros Hw. now apply (Hdis aj).
  - intros s idx carry h b1 b2 H1 H2 Hne winners losers W L stake row.
    destruct (Part000_team_round s idx carry h b1 b2 H1 H2 Hne) as [N1 [N2 Hrow]].
    destruct (sides_facts idx (Part000.teamPicks h) b1 b2 N1 N2)
      as [Dw [Dl [Hdis [Bw [Bl [Pw Pl]]]]]].
    unfold row. rewrite Hrow. cbn [fst].
    rewrite Part000_gain_spec, Part000_loss_spec.
    fold winners losers W L stake.
    split; [exact Pw|split; [exact Pl|split]].
    + intros aj Haj. apply nth_pay_outer; auto.
    + intros aj Haj. apply nth_pay_inner; auto.
      intros Hw. now apply (Hdis aj).
  - intros W L stake HW HL. now apply spec_balance.
  - intros s W L stake HW HL.
    rewrite (Qcmult_comm (App.perWinnerGain s W L stake)).
    rewrite (Qcmult_comm (App.perLoserLoss s W L stake)).
    now apply App_team_balance.
Qed.

(** C8.  In [App.tsx], with [soloDouble] on, the per-winner gain and the
    per-loser loss of a two-sided decisive round are both multiplied by 2
    exactly when the winning group has one member and the losing group two
    or more; they are unchanged in every other configuration (for example
    [W = 2], [L = 3]) and whenever the option is off. *)
Theorem C8_minority_win_doubling :
  (forall (s : App.Settings) (idx : list nat) (carry : nat) (h : App.HoleState)
          (b1 b2 : Qc),
      App.teamBest idx h (teamOf T1 idx (App.teamPicks h)) = Fin b1 ->
      App.teamBest idx h (teamOf T2 idx (App.teamPicks h)) = Fin b2 ->
      Qc_eqb b1 b2 = false ->
      let winners := winnersOf idx (App.teamPicks h) b1 b2 in
      let losers := losersOf idx (App.teamPicks h) b1 b2 in
      let W := length winners in
      let L := length losers in
      let stake := App.stakeForScore s carry (App.holePar h) (Fin (Qc_min b1 b2)) in
      let row := fst (App.settleHole s idx carry h) in
      let factor := if minorityWin (App.soloDouble s) W L then ofZ 2 else 1 in
      (forall aj, In aj winners -> nth aj row 0 = spec_gain W L stake * factor)
      /\ (forall aj, In aj losers -> nth aj row 0 = - (spec_loss W L stake * factor)))
  /\ (forall W L : nat, minorityWin true W L = true <-> W = 1%nat /\ (2 <= L)%nat)
  /\ minorityWin true 2 3 = false
  /\ (forall W L : nat, minorityWin false W L = false).
Proof.
  split; [|split; [|split]].
  - intros s idx carry h b1 b2 H1 H2 Hne winners losers W L stake row factor.
    destruct (App_team_round s idx carry h b1 b2 H1 H2 Hne) as [N1 [N2 Hrow]].
    destruct (sides_facts idx (App.teamPicks h) b1 b2 N1 N2)
      as [Dw [Dl [Hdis [Bw [Bl [Pw Pl]]]]]].
    unfold row. rewrite Hrow. cbn [fst].
    rewrite App_gain_spec, App_loss_spec.
    fold winners losers W L stake. unfold factor.
    split.
    + intros aj Haj. rewrite nth_pay_inner; auto.
      destruct (minorityWin (App.soloDouble s) W L); ring.
    + intros aj Haj. rewrite nth_pay_outer; auto.
      * destruct (minorityWin (App.soloDouble s) W L); ring.
      * intros Hw. now apply (Hdis aj).
  - intros W L. unfold minorityWin. rewrite andb_true_l.
    rewrite andb_true_iff, Nat.eqb_eq, Nat.leb_le. reflexivity.
  - reflexivity.
  - reflexivity.
Qed.

(* ================================================================== *)
(** * The stake of a decisive round *)

Lemma Qc_sub_pos_lt (t k : Qc) : 0 < k -> t - k < t.
Proof.
  intros Hk. apply Qclt_minus_iff.
  replace (t + - (t - k)) with k by ring. assumption.
Qed.

Lemma ofZ_pos (z : Z) : (0 < z)%Z -> 0 < ofZ z.
Proof.
  intros H. unfold Qclt, ofZ, Q2Qc. cbn [this].
  rewrite !Qred_correct. unfold Qlt. simpl. lia.
Qed.

Lemma not_below_target (target : num) (wb : Qc) (k : Z) :
  (0 < k)%Z -> num_lt (Fin wb) target = false ->
  num_le (Fin wb) (num_sub target (Fin (ofZ k))) = false.
Proof.
  intros Hk H. destruct target as [| | |t]; try reflexivity; try discriminate.
  simpl in H. unfold num_sub, num_le, num_lt, num_seq.
  pose proof (Qc_sub_pos_lt t (ofZ k) (ofZ_pos k Hk)) as Hlt.
  destruct (Qc_ltb wb (t - ofZ k)) eqn:E1.
  - apply Qc_ltb_lt in E1.
    assert (Hw : wb < t) by (eapply Qclt_trans; eassumption).
    apply Qc_ltb_lt in Hw. congruence.
  - destruct (Qc_eqb wb (t - ofZ k)) eqn:E2; [|reflexivity].
    apply Qc_eqb_eq in E2. subst wb. apply Qc_ltb_lt in Hlt. congruence.
Qed.

Lemma num_le_seq (a b : num) : num_seq a b = true -> num_le a b = true.
Proof. unfold num_le. intros ->. apply orb_true_r. Qed.


(* ================================================================== *)
(** * Void rounds *)

Lemma allBlank_clean (idx : list nat) (scores : list cell) (g : list nat) :
  allBlank idx scores g = true -> cleanGroup idx scores g = true.
Proof.
  unfold allBlank, cleanGroup. rewrite !forallb_forall. intros H aj Haj.
  specialize (H aj Haj). now destruct (readScore scores (nth aj idx 0%nat)).
Qed.

Lemma allBlank_groupBest (idx : list nat) (scores : list cell) (g : list nat) :
  allBlank idx scores g = true -> groupBest idx scores g = None.
Proof.
  unfold allBlank, groupBest. induction g as [|a g IH]; simpl; [reflexivity|].
  intros H. apply andb_true_iff in H. destruct H as [Ha Hg].
  unfold recorded at 2.
  destruct (readScore scores (nth a idx 0%nat)); [|discriminate].
  now apply IH.
Qed.

Lemma twoSided_cases (idx : list nat) (picks : list TeamPick) :
  twoSided idx picks = true ->
  exists a t1 b t2, teamOf T1 idx picks = a :: t1 /\ teamOf T2 idx picks = b :: t2.
Proof.
  unfold twoSided.
  destruct (teamOf T1 idx picks) as [|a t1]; destruct (teamOf T2 idx picks) as [|b t2];
    try discriminate. intros _. now exists a, t1, b, t2.
Qed.

(** C6.  A void round -- the populated group of an individual-mode round
    has no recorded value at all, or one of the two teams of a two-sided
    round has none -- writes a row of zeros and leaves the carry unchanged;
    in both variants. *)
Theorem C6_void_round :
  (forall (s : App.Settings) (idx : list nat) (carry : nat) (h : App.HoleState),
      (individualMode idx (App.teamPicks h)
         && allBlank idx (App.scores h) (populated idx (App.teamPicks h))
       || twoSided idx (App.teamPicks h)
          && (allBlank idx (App.scores h) (teamOf T1 idx (App.teamPicks h))
              || allBlank idx (App.scores h) (teamOf T2 idx (App.teamPicks h))))
      = true ->
      App.settleHole s idx carry h = (zeroRow (length idx), carry))
  /\
  (forall (s : Part000.Settings) (idx : list nat) (carry : nat)
          (h : Part000.HoleState),
      (individualMode idx (Part000.teamPicks h)
         && allBlank idx (Part000.scores h) (populated idx (Part000.teamPicks h))
       || twoSided idx (Part000.teamPicks h)
          && (allBlank idx (Part000.scores h) (teamOf T1 idx (Part000.teamPicks h))
              || allBlank idx (Part000.scores h) (teamOf T2 idx (Part000.teamPicks h))))
      = true ->
      Part000.settleHole s idx carry h = (zeroRow (length idx), carry)).
Proof.
  split; intros s idx carry h H; apply orb_true_iff in H;
    destruct H as [H|H]; apply andb_true_iff in H; destruct H as [Hm Hb].
  - rewrite App_settleHole_individual by assumption.
    rewrite App_settleSolo_clean by now apply allBlank_clean.
    now rewrite allBlank_groupBest.
  - destruct (twoSided_cases _ _ Hm) as [a [t1 [b [t2 [E1 E2]]]]].
    rewrite App_settleHole_shape. rewrite E1, E2 in *.
    apply App_settleTeams_void. apply orb_true_iff in Hb.
    destruct Hb as [Hb|Hb]; [left|right];
      rewrite App_teamBest_clean by (now apply allBlank_clean);
      now rewrite allBlank_groupBest.
  - rewrite Part000_settleHole_individual by assumption.
    rewrite Part000_settleSolo_clean by now apply allBlank_clean.
    now rewrite allBlank_groupBest.
  - destruct (twoSided_cases _ _ Hm) as [a [t1 [b [t2 [E1 E2]]]]].
    rewrite Part000_settleHole_shape. rewrite E1, E2 in *.
    apply Part000_settleTeams_void. apply orb_true_iff in Hb.
    destruct Hb as [Hb|Hb]; [left|right];
      rewrite Part000_bestOfTeam_clean by (now apply allBlank_clean);
      now rewrite allBlank_groupBest.
Qed.

(** C5, as amended.  The carry is 0 before the first hole; a tie round adds
    1 to it when carry-over is on, a void or degenerate round leaves it
    unchanged, and a decisive round resets it to 0; the rows of the later
    holes depend on the earlier holes through the carry only.  In both
    variants, for rounds whose cells are empty or finite scores. *)
Theorem C5_carry_counter :
  (forall holes s players,
      App.deltas (App.computeDeltas holes s players)
      = fst (App.settleAll s (activeIdx players) 0 holes))
  /\
  (forall holes s players,
      Part000.deltas (Part000.computeDeltas holes s players)
      = fst (Part000.settleAll s (activeIdx players) 0 holes))
  /\
  (forall (s : App.Settings) (idx : list nat) (carry : nat) (h : App.HoleState),
      wellFormed idx (App.teamPicks h) (App.scores h) = true ->
      snd (App.settleHole s idx carry h)
      = carryStep (App.carryOver s)
          (roundKind idx (App.teamPicks h) (App.scores h)) carry)
  /\
  (forall (s : Part000.Settings) (idx : list nat) (carry : nat)
          (h : Part000.HoleState),
      wellFormed idx (Part000.teamPicks h) (Part000.scores h) = true ->
      snd (Part000.settleHole s idx carry h)
      = carryStep (Part000.carryOver s)
          (roundKind idx (Part000.teamPicks h) (Part000.scores h)) carry)
  /\
  (forall (s : App.Settings) (idx : list nat) (carry : nat)
          (before after : list App.HoleState),
      App.settleAll s idx carry (before ++ after)
      = (fst (App.settleAll s idx carry before)
           ++ fst (App.settleAll s idx (snd (App.settleAll s idx carry before)) after),
         snd (App.settleAll s idx (snd (App.settleAll s idx carry before)) after)))
  /\
  (forall (s : Part000.Settings) (idx : list nat) (carry : nat)
          (before after : list Part000.HoleState),
      Part000.settleAll s idx carry (before ++ after)
      = (fst (Part000.settleAll s idx carry before)
           ++ fst (Part000.settleAll s idx
                     (snd (Part000.settleAll s idx carry before)) after),
         snd (Part000.settleAll s idx
                (snd (Part000.settleAll s idx carry before)) after))).
Proof.
  repeat split.
  - apply App_carry_step.
  - apply Part000_carry_step.
  - apply App_settleAll_app.
  - apply Part000_settleAll_app.
Qed.

(** C5, as stated, fails: a void round with carry-over on does not add 1 to
    the carry.  Two players in one group, nobody has a score: the carry
    stays 0, and the next hole is played for a single stake. *)
Lemma C5_void_round_keeps_carry :
  let s := appSettings 1 true false false false in
  let void := appHole (score 4) [T1; T1] [Blank; Blank] in
  let win := appHole (score 4) [T1; T1] [score 4; score 5] in
  roundKind [0; 1]%nat (App.teamPicks void) (App.scores void) = Void
  /\ snd (App.settleHole s [0; 1]%nat 0 void) = 0%nat
  /\ snd (App.settleHole s [0; 1]%nat 0 void)
     <> carryStep_void_counts (App.carryOver s)
          (roundKind [0; 1]%nat (App.teamPicks void) (App.scores void)) 0
  /\ map shown (App.deltas (App.computeDeltas [void; win] s ["A"; "B"]%string))
     = [[0; 0]; [1; -1]]%Q.
Proof.
  cbv zeta. repeat split; try reflexivity.
  vm_compute. discriminate.
Qed.

(* ================================================================== *)
(** * The par of a hole *)

Lemma App_settleHole_par (s : App.Settings) (idx : list nat) (carry : nat)
    (h h' : App.HoleState) :
  App.holePar h = App.holePar h' -> App.teamPicks h = App.teamPicks h' ->
  App.scores h = App.scores h' ->
  App.settleHole s idx carry h = App.settleHole s idx carry h'.
Proof.
  intros Hp Ht Hs.
  unfold App.settleHole, App.settleSolo, App.settleTeams, App.soloBest,
    App.teamBest, App.bestList.
  rewrite Hp, Ht, Hs. reflexivity.
Qed.

(** C7, as amended.  [App.tsx] uses 4 for a par that is empty or is not a
    finite number [>= 3], and settles the round as it would with par 4; a
    finite par [>= 3], integer or not, is used as given by both variants;
    [part_000] uses 4 for a par that is [0] or [NaN]. *)
Theorem C7_par_fallback :
  (forall h : App.HoleState,
      App_parInvalid (App.par h) = true -> App.holePar h = Fin (ofZ 4))
  /\
  (forall (s : App.Settings) (idx : list nat) (carry : nat) (h : App.HoleState),
      App_parInvalid (App.par h) = true ->
      App.settleHole s idx carry h
      = App.settleHole s idx carry (App_withPar (score 4) h))
  /\
  (forall (h : App.HoleState) (q : Qc),
      App.par h = Num (Fin q) -> num_le (Fin (ofZ 3)) (Fin q) = true ->
      App.holePar h = Fin q)
  /\
  (forall (h : Part000.HoleState) (q : Qc),
      Part000.par h = Fin q -> num_le (Fin (ofZ 3)) (Fin q) = true ->
      Part000.holePar h = Fin q)
  /\
  (forall h : Part000.HoleState,
      Part000.par h = NaN \/ Part000.par h = Fin 0 ->
      Part000.holePar h = Fin (ofZ 4)).
Proof.
  assert (Hinv : forall h : App.HoleState,
             App_parInvalid (App.par h) = true -> App.holePar h = Fin (ofZ 4)).
  { intros h. unfold App_parInvalid, App.holePar.
    destruct (App.par h) as [|p]; [reflexivity|].
    intros H. apply negb_true_iff in H. now rewrite H. }
  split; [exact Hinv|split; [|split; [|split]]].
  - intros s idx carry h H. apply App_settleHole_par; try reflexivity.
    now rewrite (Hinv h H).
  - intros h q Hp Hq. unfold App.holePar. rewrite Hp. simpl isFinite.
    now rewrite Hq.
  - intros h q Hp Hq. unfold Part000.holePar. rewrite Hp.
    destruct (Qc_eqb q 0) eqn:E; [|reflexivity].
    apply Qc_eqb_eq in E. subst q. discriminate.
  - intros h [H|H]; unfold Part000.holePar; rewrite H; reflexivity.
Qed.

(** C7, as stated, fails: a par that is not an integer is not replaced by 4.
    With par 3.5 and both multipliers on, a lone low score of 2 is paid
    single (2 - 3.5 is neither [<= -2] nor [-1]); with par 4 it would be
    paid triple. *)
Lemma C7_fractional_par_is_used :
  let s := appSettings 1 false false true true in
  let h := appHole (Num (Fin (Q2Qc (7 # 2)))) [T1; T1] [score 2; score 5] in
  (forall z : Z, Q2Qc (7 # 2) <> ofZ z)
  /\ App.holePar h = Fin (Q2Qc (7 # 2))
  /\ App.holePar h <> Fin (ofZ 4)
  /\ shown (fst (App.settleHole s [0; 1]%nat 0 h)) = [1; -1]%Q
  /\ shown (fst (App.settleHole s [0; 1]%nat 0 (App_withPar (score 4) h)))
     = [3; -3]%Q.
Proof.
  cbv zeta. split; [|repeat split; try reflexivity].
  - intros z E. apply Q2Qc_eq_iff in E. unfold Qeq in E. simpl in E. lia.
  - intros E. injection E as E. discriminate.
Qed.

(** [part_000] keeps a par below 3 as well: with par 2 a lone low score of 1
    is a birdie (paid double); with par 4 it would be an eagle (paid triple). *)
Example Part000_par_below_3_is_used :
  let s := partSettings 1 false true true in
  let h := partHole (Fin (ofZ 2)) [T1; T1] [score 1; score 5] in
  Part000.holePar h = Fin (ofZ 2)
  /\ shown (fst (Part000.settleHole s [0; 1]%nat 0 h)) = [2; -2]%Q
  /\ shown (fst (Part000.settleHole s [0; 1]%nat 0 (Part000_withPar (Fin (ofZ 4)) h)))
     = [3; -3]%Q.
Proof. cbv zeta. repeat split; reflexivity. Qed.

(* ================================================================== *)
(** * The wager scales every pay-out *)

Lemma scaleRow_zeroRow (w : Qc) (n : nat) : scaleRow w (zeroRow n) = zeroRow n.
Proof.
  unfold scaleRow, zeroRow. induction n as [|n IH]; simpl; [reflexivity|].
  rewrite IH. f_equal. ring.
Qed.

Lemma scaleRow_upd (w x : Qc) (row : list Qc) (i : nat) :
  scaleRow w (upd row i (fun d => d + x))
  = upd (scaleRow w row) i (fun d => d + w * x).
Proof.
  unfold scaleRow. revert i. induction row as [|y r IH]; intros [|j]; simpl; auto.
  - f_equal. ring.
  - now rewrite IH.
Qed.

Lemma scaleRow_addAt (w x : Qc) (l : list nat) (row : list Qc) :
  scaleRow w (addAt x l row) = addAt (w * x) l (scaleRow w row).
Proof.
  unfold addAt. revert row. induction l as [|a l IH]; intros row; simpl.
  - reflexivity.
  - now rewrite IH, scaleRow_upd.
Qed.

Lemma scaleRow_paySolo (w b : Qc) (ls : list nat) (k n : nat) :
  scaleRow w (Part000.paySolo ls k b (zeroRow n))
  = Part000.paySolo ls k (w * b) (zeroRow n).
Proof.
  rewrite !Part000_paySolo_addAt, scaleRow_upd, scaleRow_addAt, scaleRow_zeroRow.
  replace (w * - b) with (- (w * b)) by ring.
  apply upd_ext. intros d. ring.
Qed.

Lemma App_stake_scale (w : Qc) (s : App.Settings) carry par wb :
  App.stakeForScore (App_withWager w s) carry par wb
  = w * App.stakeForScore (App_withWager 1 s) carry par wb.
Proof. unfold App.stakeForScore. simpl. ring. Qed.

Lemma Part000_stake_scale (w : Qc) (s : Part000.Settings) carry par wb :
  Part000.computeBaseStake (Part000_withWager w s) carry par wb
  = w * Part000.computeBaseStake (Part000_withWager 1 s) carry par wb.
Proof. unfold Part000.computeBaseStake. simpl. ring. Qed.

Lemma App_gain_scale (w : Qc) (s : App.Settings) (W L : nat) (st : Qc) :
  App.perWinnerGain (App_withWager w s) W L (w * st)
  = w * App.perWinnerGain (App_withWager 1 s) W L st.
Proof.
  unfold App.perWinnerGain. simpl.
  destruct (App.soloDouble s && _); destruct (L <=? W)%nat; unfold Qcdiv; ring.
Qed.

Lemma App_loss_scale (w : Qc) (s : App.Settings) (W L : nat) (st : Qc) :
  App.perLoserLoss (App_withWager w s) W L (w * st)
  = w * App.perLoserLoss (App_withWager 1 s) W L st.
Proof.
  unfold App.perLoserLoss. simpl.
  destruct (App.soloDouble s && _); destruct (L <? W)%nat; unfold Qcdiv; ring.
Qed.

Lemma App_settleHole_scale (w : Qc) (s : App.Settings) (idx : list nat)
    (carry : nat) (h : App.HoleState) :
  App.settleHole (App_withWager w s) idx carry h
  = (scaleRow w (fst (App.settleHole (App_withWager 1 s) idx carry h)),
     snd (App.settleHole (App_withWager 1 s) idx carry h)).
Proof.
  unfold App.settleHole.
  destruct (App.onlyOneTeam _ _).
  - unfold App.settleSolo.
    destruct (negb (isFinite _)); cbn [fst snd];
      [now rewrite scaleRow_zeroRow|].
    destruct (negb (_ =? 1)%nat); cbn [fst snd];
      [now rewrite scaleRow_zeroRow|].
    rewrite !App_paySolo_Part000, scaleRow_paySolo.
    now rewrite <- App_stake_scale.
  - destruct (_ || _); cbn [fst snd]; [now rewrite scaleRow_zeroRow|].
    unfold App.settleTeams.
    destruct (negb _ || negb _); cbn [fst snd];
      [now rewrite scaleRow_zeroRow|].
    destruct (num_seq _ _); cbn [fst snd]; [now rewrite scaleRow_zeroRow|].
    rewrite !App_payTeams_addAt, !scaleRow_addAt, scaleRow_zeroRow.
    rewrite App_stake_scale, App_gain_scale, App_loss_scale.
    f_equal. f_equal. ring.
Qed.

Lemma Part000_settleHole_scale (w : Qc) (s : Part000.Settings) (idx : list nat)
    (carry : nat) (h : Part000.HoleState) :
  Part000.settleHole (Part000_withWager w s) idx carry h
  = (scaleRow w (fst (Part000.settleHole (Part000_withWager 1 s) idx carry h)),
     snd (Part000.settleHole (Part000_withWager 1 s) idx carry h)).
Proof.
  unfold Part000.settleHole.
  destruct (Part000.onlyOneTeam _ _).
  - unfold Part000.settleSolo.
    destruct (negb (isFinite _)); cbn [fst snd];
      [now rewrite scaleRow_zeroRow|].
    destruct (negb (_ =? 1)%nat); cbn [fst snd];
      [now rewrite scaleRow_zeroRow|].
    rewrite scaleRow_paySolo. now rewrite <- Part000_stake_scale.
  - destruct (_ || _); cbn [fst snd]; [now rewrite scaleRow_zeroRow|].
    unfold Part000.settleTeams.
    destruct (negb _ || negb _); cbn [fst snd];
      [now rewrite scaleRow_zeroRow|].
    destruct (num_seq _ _); cbn [fst snd]; [now rewrite scaleRow_zeroRow|].
    destruct (_ || _); cbn [fst snd]; [now rewrite scaleRow_zeroRow|].
    rewrite !Part000_payTeams_addAt, !scaleRow_addAt, scaleRow_zeroRow.
    rewrite Part000_stake_scale.
    f_equal. f_equal; [ring|]. f_equal. ring.
Qed.

Lemma App_settleAll_scale (w : Qc) (s : App.Settings) (idx : list nat)
    (carry : nat) (holes : list App.HoleState) :
  App.settleAll (App_withWager w s) idx carry holes
  = (scaleRows w (fst (App.settleAll (App_withWager 1 s) idx carry holes)),
     snd (App.settleAll (App_withWager 1 s) idx carry holes)).
Proof.
  revert carry. induction holes as [|h hs IH]; intros carry; simpl.
  - reflexivity.
  - rewrite App_settleHole_scale. cbn [fst snd]. now rewrite IH.
Qed.

Lemma Part000_settleAll_scale (w : Qc) (s : Part000.Settings) (idx : list nat)
    (carry : nat) (holes : list Part000.HoleState) :
  Part000.settleAll (Part000_withWager w s) idx carry holes
  = (scaleRows w (fst (Part000.settleAll (Part000_withWager 1 s) idx carry holes)),
     snd (Part000.settleAll (Part000_withWager 1 s) idx carry holes)).
Proof.
  revert carry. induction holes as [|h hs IH]; intros carry; simpl.
  - reflexivity.
  - rewrite Part000_settleHole_scale. cbn [fst snd]. now rewrite IH.
Qed.

Lemma scaleRow_addRowFrom (w : Qc) (i : nat) (row totals : list Qc) :
  addRowFrom i (scaleRow w row) (scaleRow w totals)
  = scaleRow w (addRowFrom i row totals).
Proof.
  revert i totals. induction row as [|v r IH]; intros i totals; simpl.
  - reflexivity.
  - rewrite <- IH. now rewrite scaleRow_upd.
Qed.

Lemma sumColumns_scale (w : Qc) (n : nat) (ds : list (list Qc)) :
  sumColumns n (scaleRows w ds) = scaleRow w (sumColumns n ds).
Proof.
  unfold sumColumns. rewrite <- (scaleRow_zeroRow w n) at 1.
  generalize (zeroRow n) as totals.
  induction ds as [|row ds IH]; intros totals; simpl.
  - reflexivity.
  - rewrite scaleRow_addRowFrom. apply IH.
Qed.

Lemma scaleRow_0 (row : list Qc) : scaleRow 0 row = zeroRow (length row).
Proof.
  unfold scaleRow, zeroRow. induction row as [|x r IH]; simpl; [reflexivity|].
  rewrite IH. f_equal. ring.
Qed.


(* ================================================================== *)
(** * The two variants side by side *)

Lemma upd_add_comm (row : list Qc) (i j : nat) (x y : Qc) :
  upd (upd row i (fun d => d + x)) j (fun d => d + y)
  = upd (upd row j (fun d => d + y)) i (fun d => d + x).
Proof.
  destruct (Nat.eq_dec i j) as [->|Hne].
  - rewrite !upd_upd_same. apply upd_ext. intros d. ring.
  - now apply upd_upd_comm.
Qed.

Lemma addAt_upd_add (x y : Qc) (l : list nat) (row : list Qc) (j : nat) :
  addAt x l (upd row j (fun d => d + y)) = upd (addAt x l row) j (fun d => d + y).
Proof.
  unfold addAt. revert row. induction l as [|a l IH]; intros row; simpl.
  - reflexivity.
  - rewrite <- IH. f_equal. apply upd_add_comm.
Qed.

Lemma addAt_comm (x y : Qc) (A B : list nat) (row : list Qc) :
  addAt x A (addAt y B row) = addAt y B (addAt x A row).
Proof.
  revert row. induction B as [|b B IH]; intros row.
  - reflexivity.
  - unfold addAt at 2 3. simpl.
    fold (addAt y B (upd row b (fun d => d + y))).
    fold (addAt y B (upd (addAt x A row) b (fun d => d + y))).
    rewrite IH. now rewrite addAt_upd_add.
Qed.

Lemma App_soloBest_minOf (idx : list nat) (h : Part000.HoleState) (g : list nat) :
  App.soloBest idx (toAppHole h) g = Part000.minOf (map (Part000.scoreOrInf idx h) g).
Proof.
  unfold App.soloBest, Part000.minOf. rewrite fold_left_map_num.
  generalize PosInf as acc.
  induction g as [|a g IH]; intros acc; simpl; [reflexivity|].
  rewrite IH. f_equal. unfold Part000.scoreOrInf.
  destruct (readScore (Part000.scores h) (nth a idx 0%nat));
    [now rewrite Math_min_PosInf_r|reflexivity].
Qed.

Lemma App_bestList_lowCompressed (idx : list nat) (h : Part000.HoleState)
    (g : list nat) (best : num) :
  isFinite best = true ->
  App.bestList idx (toAppHole h) g best = Part000.lowCompressed idx h g best.
Proof.
  intros Hf. unfold App.bestList, Part000.lowCompressed, Part000.scoreOrInf.
  apply filter_ext. intros aj. simpl.
  destruct (readScore (Part000.scores h) (nth aj idx 0%nat)); [|reflexivity].
  now destruct best.
Qed.

(** Without [NaN] among the scores of the team, skipping the values that
    are not below [best] is taking the minimum. *)
Lemma App_teamBest_bestOfTeam (idx : list nat) (h : Part000.HoleState)
    (g : list nat) :
  Forall (fun aj => readScore (Part000.scores h) (nth aj idx 0%nat) <> Num NaN) g ->
  App.teamBest idx (toAppHole h) g = Part000.bestOfTeam idx h g.
Proof.
  unfold App.teamBest, Part000.bestOfTeam, Part000.minOf.
  rewrite fold_left_map_num.
  assert (Hacc : PosInf <> NaN) by discriminate. revert Hacc.
  generalize PosInf as acc.
  induction g as [|a g IH]; intros acc Hacc H; simpl; [reflexivity|].
  inversion H as [|? ? Ha Hg]; subst.
  unfold Part000.scoreOrInf at 2. simpl.
  destruct (readScore (Part000.scores h) (nth a idx 0%nat)) as [|v].
  - rewrite Math_min_PosInf_r. now apply IH.
  - assert (Hv : v <> NaN) by congruence.
    replace (Math_min acc v) with (if num_lt v acc then v else acc)
      by (destruct acc, v; try reflexivity; congruence).
    apply IH; [|assumption]. now destruct (num_lt v acc).
Qed.

Lemma noNaN_team (idx : list nat) (h : Part000.HoleState) (tp : TeamPick) :
  noNaN idx h = true ->
  Forall (fun aj => readScore (Part000.scores h) (nth aj idx 0%nat) <> Num NaN)
    (teamOf tp idx (Part000.teamPicks h)).
Proof.
  intros H. unfold noNaN in H. rewrite forallb_forall in H.
  pose proof (team_bound tp idx (Part000.teamPicks h)) as B.
  eapply Forall_impl; [|exact B]. intros aj Haj E.
  specialize (H (nth aj idx 0%nat) (nth_In idx 0%nat Haj)).
  rewrite E in H. discriminate.
Qed.

Lemma holePar_agree (h : Part000.HoleState) :
  parFiniteGe3 h = true -> App.holePar (toAppHole h) = Part000.holePar h.
Proof.
  unfold parFiniteGe3, App.holePar, Part000.holePar. simpl.
  intros H. rewrite H. apply andb_true_iff in H. destruct H as [Hf Hge].
  destruct (Part000.par h) as [| | |q]; try discriminate.
  destruct (Qc_eqb q 0) eqn:E; [|reflexivity].
  apply Qc_eqb_eq in E. subst q. discriminate.
Qed.

Lemma stake_agree (s : Part000.Settings) (carry : nat) (par wb : num) :
  App.stakeForScore (toAppSettings s) carry par wb
  = Part000.computeBaseStake s carry par wb.
Proof. reflexivity. Qed.

Lemma settleHole_agree (s : Part000.Settings) (idx : list nat) (carry : nat)
    (h : Part000.HoleState) :
  parFiniteGe3 h = true -> noNaN idx h = true ->
  App.settleHole (toAppSettings s) idx carry (toAppHole h)
  = Part000.settleHole s idx carry h.
Proof.
  intros Hpar Hnan.
  pose proof (noNaN_team idx h T1 Hnan) as N1.
  pose proof (noNaN_team idx h T2 Hnan) as N2.
  rewrite App_settleHole_shape, Part000_settleHole_shape. simpl App.teamPicks.
  destruct (teamOf T1 idx (Part000.teamPicks h)) as [|a t1] eqn:E1;
    destruct (teamOf T2 idx (Part000.teamPicks h)) as [|b t2] eqn:E2;
    try reflexivity.
  - unfold App.settleSolo, Part000.settleSolo.
    rewrite App_soloBest_minOf, holePar_agree by assumption.
    destruct (isFinite (Part000.minOf _)) eqn:Ef; [|reflexivity]. cbn [negb].
    rewrite App_bestList_lowCompressed by assumption.
    destruct (negb (_ =? 1)%nat); [reflexivity|].
    now rewrite App_paySolo_Part000.
  - unfold App.settleSolo, Part000.settleSolo.
    rewrite App_soloBest_minOf, holePar_agree by assumption.
    destruct (isFinite (Part000.minOf _)) eqn:Ef; [|reflexivity]. cbn [negb].
    rewrite App_bestList_lowCompressed by assumption.
    destruct (negb (_ =? 1)%nat); [reflexivity|].
    now rewrite App_paySolo_Part000.
  - unfold App.settleTeams, Part000.settleTeams.
    rewrite !App_teamBest_bestOfTeam, holePar_agree by assumption.
    destruct (negb _ || negb _); [reflexivity|].
    destruct (num_seq _ _); [reflexivity|].
    rewrite App_payTeams_addAt, App_gain_spec, App_loss_spec.
    unfold minorityWin. simpl App.soloDouble. cbn [andb].
    rewrite stake_agree.
    destruct (num_lt _ _); cbn [length Nat.eqb orb];
      rewrite Part000_payTeams_addAt, Part000_gain_spec, Part000_loss_spec;
      now rewrite addAt_comm.
Qed.

Lemma settleAll_agree (s : Part000.Settings) (idx : list nat) (carry : nat)
    (holes : list Part000.HoleState) :
  forallb parFiniteGe3 holes = true -> forallb (noNaN idx) holes = true ->
  App.settleAll (toAppSettings s) idx carry (map toAppHole holes)
  = Part000.settleAll s idx carry holes.
Proof.
  revert carry. induction holes as [|h hs IH]; intros carry Hp Hn; simpl in *.
  - reflexivity.
  - apply andb_true_iff in Hp. destruct Hp as [Hp Hps].
    apply andb_true_iff in Hn. destruct Hn as [Hn Hns].
    rewrite settleHole_agree by assumption. now rewrite IH.
Qed.



(* ================================================================== *)
(** * The properties on the holes of the sanity tests *)


Lemma C3_team_uneven_payout_witness :
  (App.teamBest sampleIdx teamHoleA (teamOf T1 sampleIdx samplePicks) = Fin (ofZ 4)
   /\ App.teamBest sampleIdx teamHoleA (teamOf T2 sampleIdx samplePicks) = Fin (ofZ 5)
   /\ minorityWin (App.soloDouble sampleApp) 2 2 = false
   /\ nth 0 (fst (App.settleHole sampleApp sampleIdx 0 teamHoleA)) 0
      = App.stakeForScore sampleApp 0 (Fin (ofZ 4)) (Fin (ofZ 4))
   /\ nth 2 (fst (App.settleHole sampleApp sampleIdx 0 teamHoleA)) 0
      = - App.stakeForScore sampleApp 0 (Fin (ofZ 4)) (Fin (ofZ 4)))
  /\ (Part000.bestOfTeam sampleIdx teamHoleP (teamOf T1 sampleIdx samplePicks)
      = Fin (ofZ 4)
      /\ nth 0 (fst (Part000.settleHole samplePart sampleIdx 0 teamHoleP)) 0
         = Part000.computeBaseStake samplePart 0 (Fin (ofZ 4)) (Fin (ofZ 4))
      /\ nth 2 (fst (Part000.settleHole samplePart sampleIdx 0 teamHoleP)) 0
         = - Part000.computeBaseStake samplePart 0 (Fin (ofZ 4)) (Fin (ofZ 4)))
  /\ ((1 <= 2)%nat /\ (1 <= 3)%nat
      /\ spec_gain 2 3 1 * ofNat 2 = spec_loss 2 3 1 * ofNat 3).
Proof.
  destruct C3_team_uneven_payout as [HA [HP [HB _]]].
  split; [|split].
  - destruct (HA sampleApp sampleIdx 0%nat teamHoleA (ofZ 4) (ofZ 5)
                eq_refl eq_refl eq_refl) as [_ [_ [Hw Hl]]].
    refine (conj eq_refl (conj eq_refl (conj eq_refl (conj _ _)))).
    + rewrite (Hw 0%nat (or_introl eq_refl)). apply Qcmult_1_r.
    + rewrite (Hl 2%nat (or_introl eq_refl)). reflexivity.
  - destruct (HP samplePart sampleIdx 0%nat teamHoleP (ofZ 4) (ofZ 5)
                eq_refl eq_refl eq_refl) as [_ [_ [Hw Hl]]].
    exact (conj eq_refl
             (conj (Hw 0%nat (or_introl eq_refl)) (Hl 2%nat (or_introl eq_refl)))).
  - split; [lia|split; [lia|]]. apply HB; lia.
Defined.


Lemma C5_carry_counter_witness :
  wellFormed sampleIdx samplePicks [score 4; score 4; score 4; score 4; Blank] = true
  /\ snd (App.settleHole sampleApp sampleIdx 1
            (appHole (score 4) samplePicks [score 4; score 4; score 4; score 4; Blank]))
     = 2%nat
  /\ snd (Part000.settleHole samplePart sampleIdx 1
            (partHole (Fin (ofZ 4)) samplePicks
               [score 4; score 4; score 4; score 4; Blank]))
     = 2%nat
  /\ snd (App.settleHole sampleApp sampleIdx 1 voidHoleA) = 1%nat
  /\ snd (App.settleHole sampleApp sampleIdx 1 teamHoleA) = 0%nat.
Proof.
  destruct C5_carry_counter as [_ [_ [HA [HP _]]]].
  refine (conj eq_refl (conj _ (conj _ (conj _ _)))).
  - now rewrite HA.
  - now rewrite HP.
  - now rewrite HA.
  - now rewrite HA.
Defined.

Lemma C6_void_round_witness :
  individualMode sampleIdx soloPicks
    && allBlank sampleIdx noScores (populated sampleIdx soloPicks) = true
  /\ App.settleHole sampleApp sampleIdx 2 voidHoleA = (zeroRow 4, 2%nat)
  /\ Part000.settleHole samplePart sampleIdx 2 voidHoleP = (zeroRow 4, 2%nat)
  /\ App.settleHole sampleApp sampleIdx 2
       (appHole (score 4) samplePicks [score 4; score 4; Blank; Blank; Blank])
     = (zeroRow 4, 2%nat).
Proof.
  destruct C6_void_round as [HA HP].
  refine (conj eq_refl (conj _ (conj _ _))).
  - now apply (HA sampleApp sampleIdx 2%nat voidHoleA).
  - now apply (HP samplePart sampleIdx 2%nat voidHoleP).
  - now apply (HA sampleApp sampleIdx 2%nat
                 (appHole (score 4) samplePicks [score 4; score 4; Blank; Blank; Blank])).
Defined.

Lemma C7_par_fallback_witness :
  App_parInvalid (App.par blankParHole) = true
  /\ App_parInvalid (score 2) = true
  /\ App.holePar blankParHole = Fin (ofZ 4)
  /\ App.holePar (appHole (score 2) soloPicks soloScores) = Fin (ofZ 4)
  /\ App.settleHole sampleApp sampleIdx 0 blankParHole
     = App.settleHole sampleApp sampleIdx 0 (App_withPar (score 4) blankParHole)
  /\ App.holePar (appHole (score 5) soloPicks soloScores) = Fin (ofZ 5)
  /\ Part000.holePar (partHole (Fin (ofZ 5)) soloPicks soloScores) = Fin (ofZ 5)
  /\ Part000.holePar (partHole NaN soloPicks soloScores) = Fin (ofZ 4).
Proof.
  destruct C7_par_fallback as [H1 [H2 [H3 [H4 H5]]]].
  refine (conj eq_refl (conj eq_refl
            (conj _ (conj _ (conj _ (conj _ (conj _ _))))))).
  - now apply H1.
  - now apply H1.
  - now apply H2.
  - now apply (H3 _ (ofZ 5)).
  - now apply (H4 _ (ofZ 5)).
  - apply H5. now left.
Defined.

Lemma C8_minority_win_doubling_witness :
  let h := appHole (score 4) [T1; Sit; T2; T2; Sit]
             [score 4; Blank; score 5; score 6; Blank] in
  App.teamBest sampleIdx h (teamOf T1 sampleIdx (App.teamPicks h)) = Fin (ofZ 4)
  /\ App.teamBest sampleIdx h (teamOf T2 sampleIdx (App.teamPicks h)) = Fin (ofZ 5)
  /\ Qc_eqb (ofZ 4) (ofZ 5) = false
  /\ nth 0 (fst (App.settleHole sampleApp sampleIdx 0 h)) 0
     = spec_gain 1 2 (App.stakeForScore sampleApp 0 (Fin (ofZ 4)) (Fin (ofZ 4))) * ofZ 2
  /\ nth 2 (fst (App.settleHole sampleApp sampleIdx 0 h)) 0
     = - (spec_loss 1 2 (App.stakeForScore sampleApp 0 (Fin (ofZ 4)) (Fin (ofZ 4)))
          * ofZ 2)
  /\ (minorityWin true 1 2 = true <-> 1%nat = 1%nat /\ (2 <= 2)%nat).
Proof.
  intros h. destruct C8_minority_win_doubling as [HA [Hiff _]].
  destruct (HA sampleApp sampleIdx 0%nat h (ofZ 4) (ofZ 5) eq_refl eq_refl eq_refl)
    as [Hw Hl].
  exact (conj eq_refl (conj eq_refl (conj eq_refl
           (conj (Hw 0%nat (or_introl eq_refl))
              (conj (Hl 2%nat (or_introl eq_refl)) (Hiff 1%nat 2%nat)))))).
Defined.


(* ================================================================== *)
(** * The sanity tests of [part_000], run on both variants *)

(** Test 1: basic 2 v 2, T1 wins by 1. *)
Example sanity_test_1 :
  bothTotals [partHole (Fin (ofZ 4)) samplePicks sampleScores]
    (partSettings 1 true false false) four
  = ([1; 1; -1; -1]%Q, [1; 1; -1; -1]%Q).
Proof. reflexivity. Qed.

(** Test 2: a tie, then 1 v 2 at par: the stake is 2, the winner gets 4. *)
Example sanity_test_2 :
  bothTotals
    [partHole (Fin (ofZ 4)) samplePicks [score 4; score 4; score 4; score 4; Blank];
     partHole (Fin (ofZ 4)) [T1; Sit; T2; T2; Sit]
       [score 4; Blank; score 5; score 6; Blank]]
    (partSettings 1 true false false) four
  = ([4; 0; -2; -2]%Q, [4; 0; -2; -2]%Q).
Proof. reflexivity. Qed.

(** Test 3: individual mode, two ties, then a birdie: stake 6. *)
Example sanity_test_3 :
  bothTotals
    [partHole (Fin (ofZ 4)) [T1; T1; T1; T1; T1]
       [score 4; score 4; score 4; score 4; score 4];
     partHole (Fin (ofZ 4)) [T1; T1; T1; T1; T1]
       [score 5; score 5; score 5; score 5; score 5];
     partHole (Fin (ofZ 4)) [T1; T1; T1; T1; T1]
       [score 3; score 4; score 4; score 4; score 4]]
    (partSettings 1 true true true) five
  = ([24; -6; -6; -6; -6]%Q, [24; -6; -6; -6; -6]%Q).
Proof. reflexivity. Qed.

(** Test 5: individual mode with one player sitting out. *)
Example sanity_test_5 :
  bothTotals
    [partHole (Fin (ofZ 4)) [T1; T1; T1; T1; Sit]
       [score 3; score 4; score 4; score 4; Blank]]
    (partSettings 1 false true false) five
  = ([6; -2; -2; -2; 0]%Q, [6; -2; -2; -2; 0]%Q).
Proof. reflexivity. Qed.

(** Test 6: 2 v 3 after a tie, with a birdie: stake 4, winners get 6 each. *)
Example sanity_test_6 :
  bothTotals
    [partHole (Fin (ofZ 4)) [T1; T1; T2; T2; T2]
       [score 4; score 5; score 4; score 5; score 5];
     partHole (Fin (ofZ 4)) [T1; T1; T2; T2; T2]
       [score 3; score 5; score 4; score 5; score 5]]
    (partSettings 1 true true true) five
  = ([6; 6; -4; -4; -4]%Q, [6; 6; -4; -4; -4]%Q).
Proof. reflexivity. Qed.

(** Test 7: 2 v 3, the two winners get 1.5 each. *)
Example sanity_test_7 :
  bothTotals
    [partHole (Fin (ofZ 4)) [T1; T1; T2; T2; T2]
       [score 4; score 5; score 5; score 5; score 5]]
    (partSettings 1 false false false) five
  = ([3 # 2; 3 # 2; -1; -1; -1]%Q, [3 # 2; 3 # 2; -1; -1; -1]%Q).
Proof. reflexivity. Qed.

(** Test 8: 3 v 2, the two losers pay 1.5 each. *)
Example sanity_test_8 :
  bothTotals
    [partHole (Fin (ofZ 4)) [T1; T1; T1; T2; T2]
       [score 4; score 4; score 4; score 5; score 5]]
    (partSettings 1 false false false) five
  = ([1; 1; 1; - (3 # 2); - (3 # 2)]%Q, [1; 1; 1; - (3 # 2); - (3 # 2)]%Q).
Proof. reflexivity. Qed.

(** Test 9: individual mode at par, no carry. *)
Example sanity_test_9 :
  bothTotals
    [partHole (Fin (ofZ 4)) [T1; T1; T1; T1; T1]
       [score 4; score 5; score 5; score 5; score 5]]
    (partSettings 1 false true true) five
  = ([4; -1; -1; -1; -1]%Q, [4; -1; -1; -1; -1]%Q).
Proof. reflexivity. Qed.

(** Scenario 4 of the specification: 2 v 3 with [soloDouble] on is not
    doubled; 1 v 2 is. *)
Example solo_double_scenarios :
  shown (App.totals (App.computeDeltas
           [appHole (score 4) [T1; T1; T2; T2; T2]
              [score 4; score 5; score 5; score 5; score 5]]
           (appSettings 1 false true false false) five))
  = [3 # 2; 3 # 2; -1; -1; -1]%Q
  /\ shown (App.totals (App.computeDeltas
              [appHole (score 4) [T1; Sit; T2; T2; Sit]
                 [score 4; Blank; score 5; score 6; Blank]]
              (appSettings 1 false true false false) five))
     = [4; 0; -2; -2; 0]%Q.
Proof. split; reflexivity. Qed.

(* ================================================================== *)
(** * The shape of the result *)

Lemma App_settleAll_length (s : App.Settings) (idx : list nat) (carry : nat)
    (holes : list App.HoleState) :
  length (fst (App.settleAll s idx carry holes)) = length holes.
Proof.
  revert carry. induction holes as [|h hs IH]; intros carry; simpl; auto.
Qed.

Lemma Part000_settleAll_length (s : Part000.Settings) (idx : list nat)
    (carry : nat) (holes : list Part000.HoleState) :
  length (fst (Part000.settleAll s idx carry holes)) = length holes.
Proof.
  revert carry. induction holes as [|h hs IH]; intros carry; simpl; auto.
Qed.

Lemma sumColumns_length (n : nat) (ds : list (list Qc)) :
  length (sumColumns n ds) = n.
Proof.
  unfold sumColumns. rewrite <- (zeroRow_length n) at 2.
  generalize (zeroRow n) as totals.
  induction ds as [|row ds IH]; intros totals; simpl; [reflexivity|].
  now rewrite IH, addRowFrom_length.
Qed.


(* ================================================================== *)
(** * The totals, column by column *)

Lemma nth_upd_add (row : list Qc) (i k : nat) (x : Qc) :
  (i < length row)%nat ->
  nth k (upd row i (fun d => d + x)) 0
  = nth k row 0 + (if (k =? i)%nat then x else 0).
Proof.
  intros Hi. destruct (Nat.eqb_spec k i) as [->|Hne].
  - now rewrite nth_upd_same.
  - rewrite nth_upd_other by congruence. ring.
Qed.

Lemma nth_addRowFrom (i k : nat) (row totals : list Qc) :
  (i + length row <= length totals)%nat ->
  nth k (addRowFrom i row totals) 0
  = nth k totals 0 + (if (i <=? k)%nat then nth (k - i) row 0 else 0).
Proof.
  revert i totals. induction row as [|v r IH]; intros i totals H; simpl in *.
  - destruct (i <=? k)%nat; destruct (k - i)%nat; ring.
  - rewrite IH by (rewrite upd_length; lia).
    rewrite nth_upd_add by lia.
    destruct (Nat.leb_spec (S i) k) as [H1|H1];
      destruct (Nat.leb_spec i k) as [H2|H2]; try lia;
      destruct (Nat.eqb_spec k i) as [H3|H3]; try lia.
    + replace (k - i)%nat with (S (k - S i)) by lia. ring.
    + subst k. rewrite Nat.sub_diag. ring.
    + ring.
Qed.

(** The entry [k] of the totals is the sum of the entries [k] of the rows. *)
Lemma nth_fold_columns (k : nat) (ds : list (list Qc)) (totals : list Qc) :
  Forall (fun row => length row = length totals) ds ->
  nth k (fold_left (fun totals row => addRowFrom 0 row totals) ds totals) 0
  = nth k totals 0 + sumRow (map (fun row => nth k row 0) ds).
Proof.
  revert totals. induction ds as [|row ds IH]; intros totals H; simpl.
  - ring.
  - inversion H as [|? ? Hl Hds]; subst.
    rewrite IH by now rewrite addRowFrom_length.
    rewrite nth_addRowFrom by (simpl; lia).
    simpl. rewrite Nat.sub_0_r. ring.
Qed.

Lemma nth_sumColumns (k n : nat) (ds : list (list Qc)) :
  Forall (fun row => length row = n) ds ->
  nth k (sumColumns n ds) 0 = sumRow (map (fun row => nth k row 0) ds).
Proof.
  intros H. unfold sumColumns. rewrite nth_fold_columns.
  - rewrite nth_zeroRow. ring.
  - now rewrite zeroRow_length.
Qed.

(** X2.  Each total is the sum of its column: for every active player [k],
    [totals[k]] is the sum over the holes of [deltas[hole][k]]; in both
    variants, for every input. *)
Theorem X2_totals_are_column_sums :
  (forall holes s players k,
      nth k (App.totals (App.computeDeltas holes s players)) 0
      = sumRow (map (fun row => nth k row 0)
                  (App.deltas (App.computeDeltas holes s players))))
  /\
  (forall holes s players k,
      nth k (Part000.totals (Part000.computeDeltas holes s players)) 0
      = sumRow (map (fun row => nth k row 0)
                  (Part000.deltas (Part000.computeDeltas holes s players)))).
Proof.
  split; intros holes s players k; cbn; apply nth_sumColumns.
  - eapply Forall_impl; [|apply App_settleAll_rows]. now intros row [_ H].
  - eapply Forall_impl; [|apply Part000_settleAll_rows]. now intros row [_ H].
Qed.

(* ================================================================== *)
(** * Players who sit out *)

Lemma sitsOut_not_in (idx : list nat) (picks : list TeamPick) (k : nat) :
  sitsOut idx picks k = true ->
  ~ In k (teamOf T1 idx picks) /\ ~ In k (teamOf T2 idx picks).
Proof.
  unfold sitsOut, teamOf. intros H. apply andb_true_iff in H.
  destruct H as [H1 H2]. apply negb_true_iff in H1, H2.
  split; intros Hin; apply filter_In in Hin; destruct Hin as [_ Hin]; congruence.
Qed.

Lemma App_settleSolo_outside s idx carry h ps n k :
  ~ In k ps -> nth k (fst (App.settleSolo s idx carry h ps (zeroRow n))) 0 = 0.
Proof.
  intros Hk. unfold App.settleSolo.
  destruct (negb (isFinite _)); [apply nth_zeroRow|].
  destruct (negb (_ =? 1)%nat) eqn:El; [apply nth_zeroRow|].
  apply negb_false_iff, Nat.eqb_eq in El. cbn [fst].
  apply (filter_singleton_In _ _ 0%nat) in El. destruct El as [El _].
  rewrite App_paySolo_Part000. apply nth_paySolo_outside; [assumption|].
  intros ->. contradiction.
Qed.

Lemma Part000_settleSolo_outside s idx carry h ps n k :
  ~ In k ps -> nth k (fst (Part000.settleSolo s idx carry h ps (zeroRow n))) 0 = 0.
Proof.
  intros Hk. unfold Part000.settleSolo.
  destruct (negb (isFinite _)); [apply nth_zeroRow|].
  destruct (negb (_ =? 1)%nat) eqn:El; [apply nth_zeroRow|].
  apply negb_false_iff, Nat.eqb_eq in El. cbn [fst].
  apply (filter_singleton_In _ _ 0%nat) in El. destruct El as [El _].
  apply nth_paySolo_outside; [assumption|].
  intros ->. contradiction.
Qed.

Lemma App_settleTeams_outside s idx carry h t1 t2 n k :
  ~ In k t1 -> ~ In k t2 ->
  nth k (fst (App.settleTeams s idx carry h t1 t2 (zeroRow n))) 0 = 0.
Proof.
  intros H1 H2. unfold App.settleTeams.
  destruct (negb _ || negb _); [apply nth_zeroRow|].
  destruct (num_seq _ _); [apply nth_zeroRow|].
  cbn [fst]. rewrite App_payTeams_addAt.
  destruct (num_lt _ _); now apply nth_pay_none.
Qed.

Lemma Part000_settleTeams_outside s idx carry h t1 t2 n k :
  ~ In k t1 -> ~ In k t2 ->
  nth k (fst (Part000.settleTeams s idx carry h t1 t2 (zeroRow n))) 0 = 0.
Proof.
  intros H1 H2. unfold Part000.settleTeams.
  destruct (negb _ || negb _); [apply nth_zeroRow|].
  destruct (num_seq _ _); [apply nth_zeroRow|].
  destruct (_ || _); [apply nth_zeroRow|].
  cbn [fst]. rewrite Part000_payTeams_addAt.
  destruct (num_lt _ _); now apply nth_pay_none.
Qed.

Lemma App_settleHole_outside s idx carry h k :
  sitsOut idx (App.teamPicks h) k = true ->
  nth k (fst (App.settleHole s idx carry h)) 0 = 0.
Proof.
  intros H. apply sitsOut_not_in in H. destruct H as [H1 H2].
  rewrite App_settleHole_shape. revert H1 H2.
  destruct (teamOf T1 idx (App.teamPicks h)) as [|a t1];
    destruct (teamOf T2 idx (App.teamPicks h)) as [|b t2]; intros H1 H2.
  - apply nth_zeroRow.
  - now apply App_settleSolo_outside.
  - now apply App_settleSolo_outside.
  - now apply App_settleTeams_outside.
Qed.

Lemma Part000_settleHole_outside s idx carry h k :
  sitsOut idx (Part000.teamPicks h) k = true ->
  nth k (fst (Part000.settleHole s idx carry h)) 0 = 0.
Proof.
  intros H. apply sitsOut_not_in in H. destruct H as [H1 H2].
  rewrite Part000_settleHole_shape. revert H1 H2.
  destruct (teamOf T1 idx (Part000.teamPicks h)) as [|a t1];
    destruct (teamOf T2 idx (Part000.teamPicks h)) as [|b t2]; intros H1 H2.
  - apply nth_zeroRow.
  - now apply Part000_settleSolo_outside.
  - now apply Part000_settleSolo_outside.
  - now apply Part000_settleTeams_outside.
Qed.

Lemma sumRow_all_zero (l : list Qc) : Forall (fun x => x = 0) l -> sumRow l = 0.
Proof.
  induction 1 as [|x l Hx Hl IH]; simpl; [reflexivity|].
  rewrite Hx, IH. ring.
Qed.

Lemma App_settleAll_outside s idx carry holes k :
  forallb (fun h => sitsOut idx (App.teamPicks h) k) holes = true ->
  Forall (fun x => x = 0)
    (map (fun row => nth k row 0) (fst (App.settleAll s idx carry holes))).
Proof.
  revert carry. induction holes as [|h hs IH]; intros carry H; simpl in *.
  - constructor.
  - apply andb_true_iff in H. destruct H as [Hh Hhs].
    constructor; [now apply App_settleHole_outside|now apply IH].
Qed.

Lemma Part000_settleAll_outside s idx carry holes k :
  forallb (fun h => sitsOut idx (Part000.teamPicks h) k) holes = true ->
  Forall (fun x => x = 0)
    (map (fun row => nth k row 0) (fst (Part000.settleAll s idx carry holes))).
Proof.
  revert carry. induction holes as [|h hs IH]; intros carry H; simpl in *.
  - constructor.
  - apply andb_true_iff in H. destruct H as [Hh Hhs].
    constructor; [now apply Part000_settleHole_outside|now apply IH].
Qed.

(** X3.  A player who sits out a hole (is in neither team) gets 0 for that
    hole, whatever the scores, the par and the carry; a player who sits out
    every hole has a total of 0.  In both variants. *)
Theorem X3_sitting_out_costs_nothing :
  (forall s idx carry (h : App.HoleState) k,
      sitsOut idx (App.teamPicks h) k = true ->
      nth k (fst (App.settleHole s idx carry h)) 0 = 0)
  /\
  (forall (holes : list App.HoleState) s players k,
      forallb (fun h => sitsOut (activeIdx players) (App.teamPicks h) k) holes = true ->
      nth k (App.totals (App.computeDeltas holes s players)) 0 = 0)
  /\
  (forall s idx carry (h : Part000.HoleState) k,
      sitsOut idx (Part000.teamPicks h) k = true ->
      nth k (fst (Part000.settleHole s idx carry h)) 0 = 0)
  /\
  (forall (holes : list Part000.HoleState) s players k,
      forallb (fun h => sitsOut (activeIdx players) (Part000.teamPicks h) k) holes
        = true ->
      nth k (Part000.totals (Part000.computeDeltas holes s players)) 0 = 0).
Proof.
  split; [|split; [|split]].
  - intros. now apply App_settleHole_outside.
  - intros holes s players k H. cbn. rewrite nth_sumColumns.
    + apply sumRow_all_zero. now apply App_settleAll_outside.
    + eapply Forall_impl; [|apply App_settleAll_rows]. now intros row [_ Hl].
  - intros. now apply Part000_settleHole_outside.
  - intros holes s players k H. cbn. rewrite nth_sumColumns.
    + apply sumRow_all_zero. now apply Part000_settleAll_outside.
    + eapply Forall_impl; [|apply Part000_settleAll_rows]. now intros row [_ Hl].
Qed.

Lemma X3_sitting_out_costs_nothing_witness :
  sitsOut (activeIdx five) soloPicks 4 = true
  /\ nth 4 (fst (App.settleHole sampleApp (activeIdx five) 0 soloHoleA)) 0 = 0
  /\ forallb (fun h => sitsOut (activeIdx five) (App.teamPicks h) 4)
       [soloHoleA; teamHoleA] = true
  /\ nth 4 (App.totals (App.computeDeltas [soloHoleA; teamHoleA] sampleApp five)) 0 = 0
  /\ nth 4 (fst (Part000.settleHole samplePart (activeIdx five) 0 soloHoleP)) 0 = 0
  /\ nth 4 (Part000.totals (Part000.computeDeltas [soloHoleP; teamHoleP] samplePart five)) 0
     = 0.
Proof.
  destruct X3_sitting_out_costs_nothing as [H1 [H2 [H3 H4]]].
  refine (conj eq_refl (conj _ (conj eq_refl (conj _ (conj _ _))))).
  - apply H1. reflexivity.
  - apply H2. reflexivity.
  - apply H3. reflexivity.
  - apply H4. reflexivity.
Defined.

(* ================================================================== *)
(** * Rounds without a winner, rounds with a single participant *)

Lemma App_solo_undecided s idx carry h g row0 :
  cleanGroup idx (App.scores h) g = true ->
  undecided (soloKind idx (App.scores h) g) = true ->
  fst (App.settleSolo s idx carry h g row0) = row0.
Proof.
  intros Hc. rewrite App_settleSolo_clean by assumption. unfold soloKind.
  destruct (groupBest idx (App.scores h) g) as [m|]; [|reflexivity].
  now destruct (length (holders idx (App.scores h) g m) =? 1)%nat.
Qed.

Lemma Part000_solo_undecided s idx carry h g row0 :
  cleanGroup idx (Part000.scores h) g = true ->
  undecided (soloKind idx (Part000.scores h) g) = true ->
  fst (Part000.settleSolo s idx carry h g row0) = row0.
Proof.
  intros Hc. rewrite Part000_settleSolo_clean by assumption. unfold soloKind.
  destruct (groupBest idx (Part000.scores h) g) as [m|]; [|reflexivity].
  now destruct (length (holders idx (Part000.scores h) g m) =? 1)%nat.
Qed.

Lemma App_teams_undecided s idx carry h t1 t2 row0 :
  cleanGroup idx (App.scores h) t1 = true ->
  cleanGroup idx (App.scores h) t2 = true ->
  undecided (teamKind idx (App.scores h) t1 t2) = true ->
  fst (App.settleTeams s idx carry h t1 t2 row0) = row0.
Proof.
  intros H1 H2. unfold teamKind.
  pose proof (App_teamBest_clean idx h t1 H1) as B1.
  pose proof (App_teamBest_clean idx h t2 H2) as B2.
  destruct (groupBest idx (App.scores h) t1) as [a|];
    [destruct (groupBest idx (App.scores h) t2) as [b|]|].
  - rewrite (App_settleTeams_finite _ _ _ _ _ _ _ a b) by assumption.
    now destruct (Qc_eqb a b).
  - intros _. rewrite App_settleTeams_void; [reflexivity|]. right. now rewrite B2.
  - intros _. rewrite App_settleTeams_void; [reflexivity|]. left. now rewrite B1.
Qed.

Lemma Part000_teams_undecided s idx carry h t1 t2 row0 :
  (0 < length t1)%nat -> (0 < length t2)%nat ->
  cleanGroup idx (Part000.scores h) t1 = true ->
  cleanGroup idx (Part000.scores h) t2 = true ->
  undecided (teamKind idx (Part000.scores h) t1 t2) = true ->
  fst (Part000.settleTeams s idx carry h t1 t2 row0) = row0.
Proof.
  intros N1 N2 H1 H2. unfold teamKind.
  pose proof (Part000_bestOfTeam_clean idx h t1 H1) as B1.
  pose proof (Part000_bestOfTeam_clean idx h t2 H2) as B2.
  destruct (groupBest idx (Part000.scores h) t1) as [a|];
    [destruct (groupBest idx (Part000.scores h) t2) as [b|]|].
  - rewrite (Part000_settleTeams_finite _ _ _ _ _ _ _ a b) by assumption.
    now destruct (Qc_eqb a b).
  - intros _. rewrite Part000_settleTeams_void; [reflexivity|]. right. now rewrite B2.
  - intros _. rewrite Part000_settleTeams_void; [reflexivity|]. left. now rewrite B1.
Qed.

(** X4.  A round that decides no winner -- a tie, a void round or a
    degenerate round, on cells that are empty or finite scores -- writes a
    row of zeros; in both variants. *)
Theorem X4_undecided_round_pays_nothing :
  (forall (s : App.Settings) (idx : list nat) (carry : nat) (h : App.HoleState),
      wellFormed idx (App.teamPicks h) (App.scores h) = true ->
      undecided (roundKind idx (App.teamPicks h) (App.scores h)) = true ->
      fst (App.settleHole s idx carry h) = zeroRow (length idx))
  /\
  (forall (s : Part000.Settings) (idx : list nat) (carry : nat)
          (h : Part000.HoleState),
      wellFormed idx (Part000.teamPicks h) (Part000.scores h) = true ->
      undecided (roundKind idx (Part000.teamPicks h) (Part000.scores h)) = true ->
      fst (Part000.settleHole s idx carry h) = zeroRow (length idx)).
Proof.
  split; intros s idx carry h; unfold wellFormed, roundKind.
  - rewrite App_settleHole_shape.
    destruct (teamOf T1 idx (App.teamPicks h)) as [|a t1];
      destruct (teamOf T2 idx (App.teamPicks h)) as [|b t2];
      intros Hwf Hk; apply andb_true_iff in Hwf; destruct Hwf as [H1 H2].
    + reflexivity.
    + now apply App_solo_undecided.
    + now apply App_solo_undecided.
    + now apply App_teams_undecided.
  - rewrite Part000_settleHole_shape.
    destruct (teamOf T1 idx (Part000.teamPicks h)) as [|a t1];
      destruct (teamOf T2 idx (Part000.teamPicks h)) as [|b t2];
      intros Hwf Hk; apply andb_true_iff in Hwf; destruct Hwf as [H1 H2].
    + reflexivity.
    + now apply Part000_solo_undecided.
    + now apply Part000_solo_undecided.
    + apply Part000_teams_undecided; simpl; try assumption; lia.
Qed.

Lemma X4_undecided_round_pays_nothing_witness :
  let tie := [score 4; score 4; score 4; score 4; Blank] in
  wellFormed sampleIdx samplePicks tie = true
  /\ undecided (roundKind sampleIdx samplePicks tie) = true
  /\ fst (App.settleHole sampleApp sampleIdx 3 (appHole (score 4) samplePicks tie))
     = zeroRow 4
  /\ fst (Part000.settleHole samplePart sampleIdx 3
            (partHole (Fin (ofZ 4)) samplePicks tie))
     = zeroRow 4.
Proof.
  intros tie. destruct X4_undecided_round_pays_nothing as [HA HP].
  refine (conj eq_refl (conj eq_refl (conj _ _))).
  - apply (HA sampleApp sampleIdx 3%nat (appHole (score 4) samplePicks tie));
      reflexivity.
  - apply (HP samplePart sampleIdx 3%nat (partHole (Fin (ofZ 4)) samplePicks tie));
      reflexivity.
Defined.

Lemma upd_fixed (row : list Qc) (i : nat) (f : Qc -> Qc) :
  (forall d, f d = d) -> upd row i f = row.
Proof.
  intros H. revert i. induction row as [|x r IH]; intros [|j]; simpl; auto.
  - now rewrite H.
  - now rewrite IH.
Qed.

Lemma uniqueLow_single (idx : list nat) (scores : list cell) (w : nat) (v : Qc) :
  recorded idx scores w = Some v -> uniqueLow idx scores [w] w v = true.
Proof.
  intros H. unfold uniqueLow. simpl. rewrite Nat.eqb_refl, H, Qc_eqb_refl.
  reflexivity.
Qed.

Lemma populated_single (idx : list nat) (picks : list TeamPick) (w : nat) :
  populated idx picks = [w] -> individualMode idx picks = true.
Proof.
  unfold populated, individualMode.
  destruct (teamOf T1 idx picks) as [|a [|a' t1]];
    destruct (teamOf T2 idx picks) as [|b [|b' t2]]; simpl; try discriminate;
    reflexivity.
Qed.



(* ================================================================== *)
(** * What a round reads of a hole *)

Lemma fold_left_ext_in {A B : Type} (f g : A -> B -> A) (l : list B) (a : A) :
  (forall a x, In x l -> f a x = g a x) -> fold_left f l a = fold_left g l a.
Proof.
  revert a. induction l as [|x l IH]; intros a H; simpl; [reflexivity|].
  rewrite H by now left. apply IH. intros a' y Hy. apply H. now right.
Qed.

Lemma cell_same_eq (a b : cell) : cell_same a b = true -> a = b.
Proof.
  destruct a as [|[| | |x]], b as [|[| | |y]]; simpl; try discriminate;
    try reflexivity.
  intros H. apply Qc_eqb_eq in H. now subst.
Qed.

Section SameCells.

Variable idx : list nat.
Variables sc sc' : list cell.
Variable g : list nat.
Hypothesis same : forall aj, In aj g ->
  readScore sc (nth aj idx 0%nat) = readScore sc' (nth aj idx 0%nat).

Lemma App_teamBest_ext (h h' : App.HoleState) :
  App.scores h = sc -> App.scores h' = sc' ->
  App.teamBest idx h g = App.teamBest idx h' g.
Proof.
  intros Hs Hs'. unfold App.teamBest. rewrite Hs, Hs'. apply fold_left_ext_in.
  intros a aj Haj. now rewrite same.
Qed.

Lemma App_settleSolo_ext s carry (h h' : App.HoleState) row0 :
  App.scores h = sc -> App.scores h' = sc' -> App.holePar h = App.holePar h' ->
  App.settleSolo s idx carry h g row0 = App.settleSolo s idx carry h' g row0.
Proof.
  intros Hs Hs' Hp. unfold App.settleSolo.
  assert (Hb : App.soloBest idx h g = App.soloBest idx h' g).
  { unfold App.soloBest. rewrite Hs, Hs'. apply fold_left_ext_in.
    intros a aj Haj. now rewrite same. }
  assert (Hl : forall best, App.bestList idx h g best = App.bestList idx h' g best).
  { intros best. unfold App.bestList. rewrite Hs, Hs'. apply filter_ext_in.
    intros aj Haj. now rewrite same. }
  now rewrite Hb, Hl, Hp.
Qed.

Lemma Part000_scoreOrInf_ext (h h' : Part000.HoleState) :
  Part000.scores h = sc -> Part000.scores h' = sc' ->
  map (Part000.scoreOrInf idx h) g = map (Part000.scoreOrInf idx h') g.
Proof.
  intros Hs Hs'. apply map_ext_in. intros aj Haj.
  unfold Part000.scoreOrInf. now rewrite Hs, Hs', same.
Qed.

Lemma Part000_bestOfTeam_ext (h h' : Part000.HoleState) :
  Part000.scores h = sc -> Part000.scores h' = sc' ->
  Part000.bestOfTeam idx h g = Part000.bestOfTeam idx h' g.
Proof.
  intros Hs Hs'. unfold Part000.bestOfTeam.
  now rewrite (Part000_scoreOrInf_ext h h').
Qed.

Lemma Part000_settleSolo_ext s carry (h h' : Part000.HoleState) row0 :
  Part000.scores h = sc -> Part000.scores h' = sc' ->
  Part000.holePar h = Part000.holePar h' ->
  Part000.settleSolo s idx carry h g row0 = Part000.settleSolo s idx carry h' g row0.
Proof.
  intros Hs Hs' Hp. unfold Part000.settleSolo.
  rewrite (Part000_scoreOrInf_ext h h') by assumption.
  assert (Hl : forall best,
             Part000.lowCompressed idx h g best = Part000.lowCompressed idx h' g best).
  { intros best. unfold Part000.lowCompressed. apply filter_ext_in.
    intros aj Haj. unfold Part000.scoreOrInf. now rewrite Hs, Hs', same. }
  now rewrite Hl, Hp.
Qed.

End SameCells.

(** The team block reads the hole through the two bests and the par. *)
Lemma App_settleTeams_bests s idx carry (h h' : App.HoleState) t1 t2 row0 :
  App.teamBest idx h t1 = App.teamBest idx h' t1 ->
  App.teamBest idx h t2 = App.teamBest idx h' t2 ->
  App.holePar h = App.holePar h' ->
  App.settleTeams s idx carry h t1 t2 row0 = App.settleTeams s idx carry h' t1 t2 row0.
Proof.
  intros H1 H2 Hp. unfold App.settleTeams. now rewrite H1, H2, Hp.
Qed.

Lemma Part000_settleTeams_bests s idx carry (h h' : Part000.HoleState) t1 t2 row0 :
  Part000.bestOfTeam idx h t1 = Part000.bestOfTeam idx h' t1 ->
  Part000.bestOfTeam idx h t2 = Part000.bestOfTeam idx h' t2 ->
  Part000.holePar h = Part000.holePar h' ->
  Part000.settleTeams s idx carry h t1 t2 row0
  = Part000.settleTeams s idx carry h' t1 t2 row0.
Proof.
  intros H1 H2 Hp. unfold Part000.settleTeams. now rewrite H1, H2, Hp.
Qed.

Lemma agreeOnTeams_parts (idx : list nat) (picks : list TeamPick)
    (sc sc' : list cell) :
  agreeOnTeams idx picks sc sc' = true ->
  (forall aj, In aj (teamOf T1 idx picks) ->
     readScore sc (nth aj idx 0%nat) = readScore sc' (nth aj idx 0%nat))
  /\ (forall aj, In aj (teamOf T2 idx picks) ->
        readScore sc (nth aj idx 0%nat) = readScore sc' (nth aj idx 0%nat)).
Proof.
  unfold agreeOnTeams, populated. rewrite forallb_forall. intros H.
  split; intros aj Haj; apply cell_same_eq, H, in_or_app; auto.
Qed.

(** X6.  A hole is settled from the cells of the members of its two teams
    only: two score arrays that hold the same cells for those members give
    the same row and the same carry, so a score left in the box of a player
    who sits out has no effect.  In both variants. *)
Theorem X6_only_team_members_scores_count :
  (forall (s : App.Settings) (idx : list nat) (carry : nat) (h : App.HoleState)
          (scores' : list cell),
      agreeOnTeams idx (App.teamPicks h) (App.scores h) scores' = true ->
      App.settleHole s idx carry (App_withScores scores' h)
      = App.settleHole s idx carry h)
  /\
  (forall (s : Part000.Settings) (idx : list nat) (carry : nat)
          (h : Part000.HoleState) (scores' : list cell),
      agreeOnTeams idx (Part000.teamPicks h) (Part000.scores h) scores' = true ->
      Part000.settleHole s idx carry (Part000_withScores scores' h)
      = Part000.settleHole s idx carry h).
Proof.
  split; intros s idx carry h scores' H;
    destruct (agreeOnTeams_parts _ _ _ _ H) as [A1 A2].
  - rewrite !App_settleHole_shape. simpl App.teamPicks. revert A1 A2.
    destruct (teamOf T1 idx (App.teamPicks h)) as [|a t1];
      destruct (teamOf T2 idx (App.teamPicks h)) as [|b t2]; intros A1 A2.
    + reflexivity.
    + symmetry.
      now apply (App_settleSolo_ext idx (App.scores h) scores' (b :: t2) A2).
    + symmetry.
      now apply (App_settleSolo_ext idx (App.scores h) scores' (a :: t1) A1).
    + symmetry. apply App_settleTeams_bests; try reflexivity.
      * now apply (App_teamBest_ext idx (App.scores h) scores' (a :: t1) A1).
      * now apply (App_teamBest_ext idx (App.scores h) scores' (b :: t2) A2).
  - rewrite !Part000_settleHole_shape. simpl Part000.teamPicks. revert A1 A2.
    destruct (teamOf T1 idx (Part000.teamPicks h)) as [|a t1];
      destruct (teamOf T2 idx (Part000.teamPicks h)) as [|b t2]; intros A1 A2.
    + reflexivity.
    + symmetry.
      now apply (Part000_settleSolo_ext idx (Part000.scores h) scores' (b :: t2) A2).
    + symmetry.
      now apply (Part000_settleSolo_ext idx (Part000.scores h) scores' (a :: t1) A1).
    + symmetry. apply Part000_settleTeams_bests; try reflexivity.
      * now apply (Part000_bestOfTeam_ext idx (Part000.scores h) scores' (a :: t1) A1).
      * now apply (Part000_bestOfTeam_ext idx (Part000.scores h) scores' (b :: t2) A2).
Qed.

Lemma X6_only_team_members_scores_count_witness :
  let scores' := [score 4; score 4; score 5; score 5; score 1] in
  agreeOnTeams (activeIdx five) samplePicks sampleScores scores' = true
  /\ App.settleHole sampleApp (activeIdx five) 0 (App_withScores scores' teamHoleA)
     = App.settleHole sampleApp (activeIdx five) 0 teamHoleA
  /\ Part000.settleHole samplePart (activeIdx five) 0
       (Part000_withScores scores' teamHoleP)
     = Part000.settleHole samplePart (activeIdx five) 0 teamHoleP.
Proof.
  intros scores'. destruct X6_only_team_members_scores_count as [HA HP].
  refine (conj eq_refl (conj _ _)).
  - apply (HA sampleApp (activeIdx five) 0%nat teamHoleA scores'). reflexivity.
  - apply (HP samplePart (activeIdx five) 0%nat teamHoleP scores'). reflexivity.
Defined.

(* ================================================================== *)
(** * The names of the two teams *)

Lemma pickIs_swap (tp : TeamPick) (picks : list TeamPick) (oi : nat) :
  pickIs tp (map swapPick picks) oi = pickIs (swapPick tp) picks oi.
Proof.
  unfold pickIs. rewrite nth_error_map.
  destruct (nth_error picks oi) as [p|]; [|reflexivity].
  now destruct p, tp.
Qed.

Lemma teamOf_swap (tp : TeamPick) (idx : list nat) (picks : list TeamPick) :
  teamOf tp idx (map swapPick picks) = teamOf (swapPick tp) idx picks.
Proof.
  unfold teamOf. apply filter_ext. intros aj. apply pickIs_swap.
Qed.

Lemma Qc_eqb_sym (x y : Qc) : Qc_eqb x y = Qc_eqb y x.
Proof.
  apply eq_true_iff_eq. rewrite !Qc_eqb_eq. split; congruence.
Qed.

Lemma Qc_ltb_flip (x y : Qc) :
  Qc_eqb x y = false -> Qc_ltb y x = negb (Qc_ltb x y).
Proof.
  unfold Qc_eqb, Qc_ltb, Qccompare. rewrite <- (Qcompare_antisym x y).
  destruct (Qcompare x y); simpl; congruence.
Qed.

Lemma App_settleTeams_swap s idx carry h t1 t2 row0 :
  App.settleTeams s idx carry h t2 t1 row0 = App.settleTeams s idx carry h t1 t2 row0.
Proof.
  unfold App.settleTeams.
  destruct (App.teamBest idx h t1) as [| | |q1], (App.teamBest idx h t2) as [| | |q2];
    try reflexivity.
  simpl. rewrite (Qc_eqb_sym q2 q1).
  destruct (Qc_eqb q1 q2) eqn:E; [reflexivity|].
  rewrite (Qc_ltb_flip q1 q2 E). now destruct (Qc_ltb q1 q2).
Qed.

Lemma Part000_settleTeams_swap s idx carry h t1 t2 row0 :
  Part000.settleTeams s idx carry h t2 t1 row0
  = Part000.settleTeams s idx carry h t1 t2 row0.
Proof.
  unfold Part000.settleTeams.
  destruct (Part000.bestOfTeam idx h t1) as [| | |q1],
           (Part000.bestOfTeam idx h t2) as [| | |q2]; try reflexivity.
  simpl. rewrite (Qc_eqb_sym q2 q1).
  destruct (Qc_eqb q1 q2) eqn:E; [reflexivity|].
  rewrite (Qc_ltb_flip q1 q2 E).
  now destruct (Qc_ltb q1 q2).
Qed.

Lemma App_settleHole_swap s idx carry h :
  App.settleHole s idx carry (App_swapTeams h) = App.settleHole s idx carry h.
Proof.
  rewrite !App_settleHole_shape. simpl App.teamPicks. rewrite !teamOf_swap.
  simpl swapPick.
  destruct (teamOf T1 idx (App.teamPicks h)) as [|a t1];
    destruct (teamOf T2 idx (App.teamPicks h)) as [|b t2]; try reflexivity.
  rewrite <- App_settleTeams_swap. reflexivity.
Qed.

Lemma Part000_settleHole_swap s idx carry h :
  Part000.settleHole s idx carry (Part000_swapTeams h)
  = Part000.settleHole s idx carry h.
Proof.
  rewrite !Part000_settleHole_shape. simpl Part000.teamPicks. rewrite !teamOf_swap.
  simpl swapPick.
  destruct (teamOf T1 idx (Part000.teamPicks h)) as [|a t1];
    destruct (teamOf T2 idx (Part000.teamPicks h)) as [|b t2]; try reflexivity.
  rewrite <- Part000_settleTeams_swap. reflexivity.
Qed.

(** X7.  The result does not depend on which team is called T1: exchanging
    the two team names in a hole changes neither its row nor the carry after
    it, and exchanging them in every hole leaves [deltas] and [totals] as
    they are.  In both variants, for every input. *)
Theorem X7_team_names_are_interchangeable :
  (forall s idx carry (h : App.HoleState),
      App.settleHole s idx carry (App_swapTeams h) = App.settleHole s idx carry h)
  /\
  (forall (holes : list App.HoleState) s players,
      App.deltas (App.computeDeltas (map App_swapTeams holes) s players)
      = App.deltas (App.computeDeltas holes s players)
      /\ App.totals (App.computeDeltas (map App_swapTeams holes) s players)
         = App.totals (App.computeDeltas holes s players))
  /\
  (forall s idx carry (h : Part000.HoleState),
      Part000.settleHole s idx carry (Part000_swapTeams h)
      = Part000.settleHole s idx carry h)
  /\
  (forall (holes : list Part000.HoleState) s players,
      Part000.deltas (Part000.computeDeltas (map Part000_swapTeams holes) s players)
      = Part000.deltas (Part000.computeDeltas holes s players)
      /\ Part000.totals (Part000.computeDeltas (map Part000_swapTeams holes) s players)
         = Part000.totals (Part000.computeDeltas holes s players)).
Proof.
  assert (HA : forall s idx carry (holes : list App.HoleState),
             App.settleAll s idx carry (map App_swapTeams holes)
             = App.settleAll s idx carry holes).
  { intros s idx carry holes. revert carry.
    induction holes as [|h hs IH]; intros carry; simpl; [reflexivity|].
    now rewrite App_settleHole_swap, IH. }
  assert (HP : forall s idx carry (holes : list Part000.HoleState),
             Part000.settleAll s idx carry (map Part000_swapTeams holes)
             = Part000.settleAll s idx carry holes).
  { intros s idx carry holes. revert carry.
    induction holes as [|h hs IH]; intros carry; simpl; [reflexivity|].
    now rewrite Part000_settleHole_swap, IH. }
  split; [|split; [|split]].
  - apply App_settleHole_swap.
  - intros holes s players. unfold App.computeDeltas. cbn. now rewrite HA.
  - apply Part000_settleHole_swap.
  - intros holes s players. unfold Part000.computeDeltas. cbn. now rewrite HP.
Qed.

(** X8.  In team mode only the best score of each team counts: two holes
    with the same picks and the same par in which each team has the same
    best are settled alike, whatever the other scores.  In both variants. *)
Theorem X8_only_the_team_bests_count :
  (forall s idx carry (h h' : App.HoleState),
      twoSided idx (App.teamPicks h) = true ->
      App.teamPicks h' = App.teamPicks h -> App.par h' = App.par h ->
      App.teamBest idx h' (teamOf T1 idx (App.teamPicks h))
        = App.teamBest idx h (teamOf T1 idx (App.teamPicks h)) ->
      App.teamBest idx h' (teamOf T2 idx (App.teamPicks h))
        = App.teamBest idx h (teamOf T2 idx (App.teamPicks h)) ->
      App.settleHole s idx carry h' = App.settleHole s idx carry h)
  /\
  (forall s idx carry (h h' : Part000.HoleState),
      twoSided idx (Part000.teamPicks h) = true ->
      Part000.teamPicks h' = Part000.teamPicks h -> Part000.par h' = Part000.par h ->
      Part000.bestOfTeam idx h' (teamOf T1 idx (Part000.teamPicks h))
        = Part000.bestOfTeam idx h (teamOf T1 idx (Part000.teamPicks h)) ->
      Part000.bestOfTeam idx h' (teamOf T2 idx (Part000.teamPicks h))
        = Part000.bestOfTeam idx h (teamOf T2 idx (Part000.teamPicks h)) ->
      Part000.settleHole s idx carry h' = Part000.settleHole s idx carry h).
Proof.
  split; intros s idx carry h h' Hts Hp Hpar H1 H2;
    destruct (twoSided_cases _ _ Hts) as [a [t1 [b [t2 [E1 E2]]]]].
  - rewrite !App_settleHole_shape, Hp, E1, E2. rewrite E1 in H1. rewrite E2 in H2.
    apply App_settleTeams_bests; try assumption.
    unfold App.holePar. now rewrite Hpar.
  - rewrite !Part000_settleHole_shape, Hp, E1, E2.
    rewrite E1 in H1. rewrite E2 in H2.
    apply Part000_settleTeams_bests; try assumption.
    unfold Part000.holePar. now rewrite Hpar.
Qed.

Lemma X8_only_the_team_bests_count_witness :
  let other := [score 4; score 9; score 8; score 5; Blank] in
  twoSided sampleIdx samplePicks = true
  /\ App.teamBest sampleIdx (appHole (score 4) samplePicks other)
       (teamOf T1 sampleIdx samplePicks)
     = App.teamBest sampleIdx teamHoleA (teamOf T1 sampleIdx samplePicks)
  /\ App.settleHole sampleApp sampleIdx 1 (appHole (score 4) samplePicks other)
     = App.settleHole sampleApp sampleIdx 1 teamHoleA
  /\ Part000.settleHole samplePart sampleIdx 1 (partHole (Fin (ofZ 4)) samplePicks other)
     = Part000.settleHole samplePart sampleIdx 1 teamHoleP.
Proof.
  intros other. destruct X8_only_the_team_bests_count as [HA HP].
  refine (conj eq_refl (conj eq_refl (conj _ _))).
  - apply (HA sampleApp sampleIdx 1%nat teamHoleA (appHole (score 4) samplePicks other));
      reflexivity.
  - apply (HP samplePart sampleIdx 1%nat teamHoleP
             (partHole (Fin (ofZ 4)) samplePicks other)); reflexivity.
Defined.

(* ================================================================== *)
(** * The carry: its size, and holes played without carry-over *)

Lemma App_settleHole_carry_le s idx carry h :
  (snd (App.settleHole s idx carry h) <= S carry)%nat
  /\ (App.carryOver s = false -> (snd (App.settleHole s idx carry h) <= carry)%nat).
Proof.
  unfold App.settleHole, App.settleSolo, App.settleTeams, App.bump.
  repeat match goal with
         | |- context [if ?c then _ else _] => destruct c
         end; cbn [snd]; split; intros; try discriminate; lia.
Qed.

Lemma Part000_settleHole_carry_le s idx carry h :
  (snd (Part000.settleHole s idx carry h) <= S carry)%nat
  /\ (Part000.carryOver s = false ->
      (snd (Part000.settleHole s idx carry h) <= carry)%nat).
Proof.
  unfold Part000.settleHole, Part000.settleSolo, Part000.settleTeams, Part000.bump.
  repeat match goal with
         | |- context [if ?c then _ else _] => destruct c
         end; cbn [snd]; split; intros; try discriminate; lia.
Qed.

(** X9.  The carry never exceeds the number of holes played: after the
    holes it is at most their number, and with carry-over off it is 0.  In
    both variants, for every input. *)
Theorem X9_carry_is_bounded :
  (forall s idx (holes : list App.HoleState),
      (snd (App.settleAll s idx 0 holes) <= length holes)%nat
      /\ (App.carryOver s = false -> snd (App.settleAll s idx 0 holes) = 0%nat))
  /\
  (forall s idx (holes : list Part000.HoleState),
      (snd (Part000.settleAll s idx 0 holes) <= length holes)%nat
      /\ (Part000.carryOver s = false ->
          snd (Part000.settleAll s idx 0 holes) = 0%nat)).
Proof.
  split; intros s idx holes.
  - assert (H : forall carry,
               (snd (App.settleAll s idx carry holes) <= carry + length holes)%nat
               /\ (App.carryOver s = false ->
                   (snd (App.settleAll s idx carry holes) <= carry)%nat)).
    { induction holes as [|h hs IH]; intros carry; simpl; [split; intros; lia|].
      destruct (App_settleHole_carry_le s idx carry h) as [H1 H2].
      destruct (IH (snd (App.settleHole s idx carry h))) as [I1 I2].
      split; [lia|]. intros Hco. specialize (H2 Hco). specialize (I2 Hco). lia. }
    destruct (H 0%nat) as [H1 H2]. split; [exact H1|].
    intros Hco. specialize (H2 Hco). lia.
  - assert (H : forall carry,
               (snd (Part000.settleAll s idx carry holes) <= carry + length holes)%nat
               /\ (Part000.carryOver s = false ->
                   (snd (Part000.settleAll s idx carry holes) <= carry)%nat)).
    { induction holes as [|h hs IH]; intros carry; simpl; [split; intros; lia|].
      destruct (Part000_settleHole_carry_le s idx carry h) as [H1 H2].
      destruct (IH (snd (Part000.settleHole s idx carry h))) as [I1 I2].
      split; [lia|]. intros Hco. specialize (H2 Hco). specialize (I2 Hco). lia. }
    destruct (H 0%nat) as [H1 H2]. split; [exact H1|].
    intros Hco. specialize (H2 Hco). lia.
Qed.

Lemma X9_carry_is_bounded_witness :
  App.carryOver (appSettings 1 false false true true) = false
  /\ snd (App.settleAll (appSettings 1 false false true true) sampleIdx 0
            [voidHoleA; teamHoleA; soloHoleA]) = 0%nat
  /\ Part000.carryOver (partSettings 1 false true true) = false
  /\ snd (Part000.settleAll (partSettings 1 false true true) sampleIdx 0
            [voidHoleP; teamHoleP]) = 0%nat.
Proof.
  destruct X9_carry_is_bounded as [HA HP].
  refine (conj eq_refl (conj _ (conj eq_refl _))).
  - now apply (proj2 (HA (appSettings 1 false false true true) sampleIdx
                        [voidHoleA; teamHoleA; soloHoleA])).
  - now apply (proj2 (HP (partSettings 1 false true true) sampleIdx
                        [voidHoleP; teamHoleP])).
Defined.

Lemma App_row_without_carryOver s idx carry carry' h :
  App.carryOver s = false ->
  fst (App.settleHole s idx carry h) = fst (App.settleHole s idx carry' h).
Proof.
  intros Hco.
  unfold App.settleHole, App.settleSolo, App.settleTeams, App.stakeForScore.
  rewrite Hco.
  repeat match goal with
         | |- context [if ?c then (_, _) else _] => destruct c
         end; reflexivity.
Qed.

Lemma Part000_row_without_carryOver s idx carry carry' h :
  Part000.carryOver s = false ->
  fst (Part000.settleHole s idx carry h) = fst (Part000.settleHole s idx carry' h).
Proof.
  intros Hco.
  unfold Part000.settleHole, Part000.settleSolo, Part000.settleTeams,
    Part000.computeBaseStake.
  rewrite Hco.
  repeat match goal with
         | |- context [if ?c then (_, _) else _] => destruct c
         end; reflexivity.
Qed.

Lemma App_rows_without_carryOver s idx carry holes :
  App.carryOver s = false ->
  fst (App.settleAll s idx carry holes)
  = map (fun h => fst (App.settleHole s idx 0 h)) holes.
Proof.
  intros Hco. revert carry.
  induction holes as [|h hs IH]; intros carry; simpl; [reflexivity|].
  now rewrite IH, (App_row_without_carryOver s idx carry 0%nat h Hco).
Qed.

Lemma Part000_rows_without_carryOver s idx carry holes :
  Part000.carryOver s = false ->
  fst (Part000.settleAll s idx carry holes)
  = map (fun h => fst (Part000.settleHole s idx 0 h)) holes.
Proof.
  intros Hco. revert carry.
  induction holes as [|h hs IH]; intros carry; simpl; [reflexivity|].
  now rewrite IH, (Part000_row_without_carryOver s idx carry 0%nat h Hco).
Qed.

(** X10.  With carry-over off every hole is settled on its own: the row of
    a hole is the row it would get as the only hole of the match, so the
    matrix of two lists of holes played one after the other is the two
    matrices one after the other.  In both variants. *)
Theorem X10_holes_are_independent_without_carry_over :
  (forall (before after : list App.HoleState) s players,
      App.carryOver s = false ->
      App.deltas (App.computeDeltas (before ++ after) s players)
      = App.deltas (App.computeDeltas before s players)
        ++ App.deltas (App.computeDeltas after s players))
  /\
  (forall (before after : list Part000.HoleState) s players,
      Part000.carryOver s = false ->
      Part000.deltas (Part000.computeDeltas (before ++ after) s players)
      = Part000.deltas (Part000.computeDeltas before s players)
        ++ Part000.deltas (Part000.computeDeltas after s players)).
Proof.
  split; intros before after s players Hco; cbn.
  - rewrite !App_rows_without_carryOver by assumption. apply map_app.
  - rewrite !Part000_rows_without_carryOver by assumption. apply map_app.
Qed.

Lemma X10_holes_are_independent_without_carry_over_witness :
  let s := appSettings 1 false false true true in
  let tie := appHole (score 4) samplePicks [score 4; score 4; score 4; score 4; Blank] in
  App.carryOver s = false
  /\ App.deltas (App.computeDeltas ([tie] ++ [teamHoleA]) s four)
     = App.deltas (App.computeDeltas [tie] s four)
       ++ App.deltas (App.computeDeltas [teamHoleA] s four)
  /\ Part000.deltas (Part000.computeDeltas ([voidHoleP] ++ [teamHoleP])
                       (partSettings 1 false true true) four)
     = Part000.deltas (Part000.computeDeltas [voidHoleP]
                         (partSettings 1 false true true) four)
       ++ Part000.deltas (Part000.computeDeltas [teamHoleP]
                            (partSettings 1 false true true) four).
Proof.
  intros s tie.
  exact (conj eq_refl
           (conj (proj1 X10_holes_are_independent_without_carry_over
                    [tie] [teamHoleA] s four eq_refl)
              (proj2 X10_holes_are_independent_without_carry_over
                 [voidHoleP] [teamHoleP] (partSettings 1 false true true) four
                 eq_refl))).
Defined.

(* ================================================================== *)
(** * The active players *)

Lemma activeFrom_spec (k : nat) (players : list string) (i : nat) :
  In i (activeFrom k players)
  <-> (k <= i)%nat
      /\ exists p, nth_error players (i - k) = Some p /\ trimNonEmpty p = true.
Proof.
  revert k. induction players as [|q ps IH]; intros k; simpl.
  - split; [tauto|]. intros [_ [p [H _]]]. now destruct (i - k)%nat.
  - assert (Htail : In i (activeFrom (S k) ps)
                    <-> (k < i)%nat
                        /\ exists p, nth_error (q :: ps) (i - k) = Some p
                                     /\ trimNonEmpty p = true).
    { rewrite IH. split.
      - intros [Hle [p [Hp Ht]]]. split; [lia|]. exists p. split; [|assumption].
        replace (i - k)%nat with (S (i - S k)) by lia. assumption.
      - intros [Hlt [p [Hp Ht]]]. split; [lia|]. exists p. split; [|assumption].
        replace (i - k)%nat with (S (i - S k)) in Hp by lia. assumption. }
    destruct (trimNonEmpty q) eqn:Eq.
    + simpl. rewrite Htail. split.
      * intros [<-|[Hlt H]]; [|split; [lia|assumption]].
        split; [lia|]. exists q. rewrite Nat.sub_diag. auto.
      * intros [Hle H]. destruct (Nat.eq_dec k i) as [->|Hne]; [now left|].
        right. split; [lia|assumption].
    + rewrite Htail. split.
      * intros [Hlt H]. split; [lia|assumption].
      * intros [Hle [p [Hp Ht]]]. destruct (Nat.eq_dec k i) as [->|Hne].
        -- rewrite Nat.sub_diag in Hp. simpl in Hp. congruence.
        -- split; [lia|]. now exists p.
Qed.

Lemma activeFrom_sorted (k : nat) (players : list string) :
  StronglySorted lt (activeFrom k players).
Proof.
  revert k. induction players as [|q ps IH]; intros k; simpl; [constructor|].
  destruct (trimNonEmpty q); [|apply IH].
  constructor; [apply IH|]. apply Forall_forall. intros i Hi.
  apply activeFrom_spec in Hi. lia.
Qed.

Lemma activeFrom_length (k : nat) (players : list string) :
  length (activeFrom k players) = length (filter trimNonEmpty players).
Proof.
  revert k. induction players as [|q ps IH]; intros k; simpl; [reflexivity|].
  destruct (trimNonEmpty q); simpl; now rewrite IH.
Qed.


Lemma activeNames_from (pre players : list string) :
  map (fun oi => nth_error (pre ++ players) oi) (activeFrom (length pre) players)
  = map Some (filter trimNonEmpty players).
Proof.
  revert pre. induction players as [|q ps IH]; intros pre; simpl; [reflexivity|].
  assert (Hrest :
    map (fun oi => nth_error (pre ++ q :: ps) oi) (activeFrom (S (length pre)) ps)
    = map Some (filter trimNonEmpty ps)).
  { specialize (IH (pre ++ [q])). rewrite <- app_assoc in IH. simpl in IH.
    rewrite length_app in IH. simpl in IH. rewrite Nat.add_1_r in IH. exact IH. }
  destruct (trimNonEmpty q); [|exact Hrest].
  simpl. rewrite Hrest. f_equal.
  rewrite nth_error_app2 by lia. now rewrite Nat.sub_diag.
Qed.


(* ================================================================== *)
(** * Bounds on the stake *)

Lemma Qc_not_neg (w : Qc) : Qc_ltb w 0 = false -> 0 <= w.
Proof.
  intros H. apply Qcnot_lt_le. intros Hlt. apply Qc_ltb_lt in Hlt. congruence.
Qed.

Lemma Qc_mul_nonneg (a b : Qc) : 0 <= a -> 0 <= b -> 0 <= a * b.
Proof.
  intros Ha Hb. rewrite <- (Qcmult_0_l b). now apply Qcmult_le_compat_r.
Qed.

Lemma Qc_mul_le_l (a b c : Qc) : 0 <= a -> b <= c -> a * b <= a * c.
Proof.
  intros Ha Hbc. rewrite (Qcmult_comm a b), (Qcmult_comm a c).
  now apply Qcmult_le_compat_r.
Qed.

Lemma ofNat_nonneg (n : nat) : 0 <= ofNat n.
Proof.
  destruct n as [|n]; [apply Qcle_refl|].
  apply Qclt_le_weak, ofNat_pos. lia.
Qed.

Lemma ofZ_le (a b : Z) : (a <= b)%Z -> ofZ a <= ofZ b.
Proof.
  intros H. unfold Qcle, ofZ, Q2Qc. cbn [this]. rewrite !Qred_correct.
  unfold Qle. simpl. lia.
Qed.

Lemma stake_between (w : Qc) (co : bool) (carry : nat) (m : Qc) :
  0 <= w -> 1 <= m -> m <= ofZ 3 ->
  let units := 1 + (if co then ofNat carry else 0) in
  w <= w * units * m /\ w * units * m <= w * (1 + ofNat carry) * ofZ 3.
Proof.
  intros Hw Hm1 Hm3 units.
  assert (Hu1 : 1 <= units).
  { unfold units. rewrite <- (Qcplus_0_r 1) at 1.
    apply Qcplus_le_compat; [apply Qcle_refl|].
    destruct co; [apply ofNat_nonneg|apply Qcle_refl]. }
  assert (Hu2 : units <= 1 + ofNat carry).
  { unfold units. apply Qcplus_le_compat; [apply Qcle_refl|].
    destruct co; [apply Qcle_refl|apply ofNat_nonneg]. }
  assert (H0u : 0 <= units) by (eapply Qcle_trans; [|exact Hu1]; now apply (ofZ_le 0 1)).
  assert (Hwu : 0 <= w * units) by now apply Qc_mul_nonneg.
  split.
  - apply Qcle_trans with (w * units).
    + rewrite <- (Qcmult_1_r w) at 1. now apply Qc_mul_le_l.
    + rewrite <- (Qcmult_1_r (w * units)) at 1. now apply Qc_mul_le_l.
  - apply Qcle_trans with (w * units * ofZ 3).
    + now apply Qc_mul_le_l.
    + apply Qcmult_le_compat_r; [now apply Qc_mul_le_l|now apply (ofZ_le 0 3)].
Qed.

Lemma multiplier_range (b e : bool) (x y : bool) :
  let m := if e && x then ofZ 3 else if b && y then ofZ 2 else 1 in
  1 <= m /\ m <= ofZ 3.
Proof.
  cbv zeta. destruct (e && x); [|destruct (b && y)]; split;
    try apply (ofZ_le 1 3); try apply (ofZ_le 3 3); try apply (ofZ_le 1 2);
    try apply (ofZ_le 2 3); try apply (ofZ_le 1 1); lia.
Qed.

(** X13.  With a wager that is not negative, the stake of a round is at
    least the wager and at most three times the wager times one plus the
    carry, for every par and every winning score; in both variants. *)
Theorem X13_stake_bounds :
  (forall (s : App.Settings) (carry : nat) (par winningBest : num),
      Qc_ltb (App.wager s) 0 = false ->
      App.wager s <= App.stakeForScore s carry par winningBest
      /\ App.stakeForScore s carry par winningBest
         <= App.wager s * (1 + ofNat carry) * ofZ 3)
  /\
  (forall (s : Part000.Settings) (carry : nat) (par winningBest : num),
      Qc_ltb (Part000.wager s) 0 = false ->
      Part000.wager s <= Part000.computeBaseStake s carry par winningBest
      /\ Part000.computeBaseStake s carry par winningBest
         <= Part000.wager s * (1 + ofNat carry) * ofZ 3).
Proof.
  split; intros s carry par wb Hw; apply Qc_not_neg in Hw.
  - unfold App.stakeForScore. cbv zeta.
    apply stake_between; try assumption; apply multiplier_range.
  - unfold Part000.computeBaseStake. cbv zeta.
    apply stake_between; try assumption; apply multiplier_range.
Qed.

Lemma X13_stake_bounds_witness :
  Qc_ltb (App.wager sampleApp) 0 = false
  /\ App.wager sampleApp <= App.stakeForScore sampleApp 2 (Fin (ofZ 4)) (Fin (ofZ 3))
  /\ Qc_ltb (Part000.wager samplePart) 0 = false
  /\ Part000.computeBaseStake samplePart 2 (Fin (ofZ 4)) (Fin (ofZ 3))
     <= Part000.wager samplePart * (1 + ofNat 2) * ofZ 3.
Proof.
  destruct X13_stake_bounds as [HA HP].
  refine (conj eq_refl (conj _ (conj eq_refl _))).
  - apply (proj1 (HA sampleApp 2%nat (Fin (ofZ 4)) (Fin (ofZ 3)) eq_refl)).
  - apply (proj2 (HP samplePart 2%nat (Fin (ofZ 4)) (Fin (ofZ 3)) eq_refl)).
Defined.

(* ================================================================== *)
(** * Loading and saving a course in [App.tsx] *)

Lemma num_lt_irrefl (x : num) : num_lt x x = false.
Proof. destruct x; try reflexivity. apply Qc_ltb_irrefl. Qed.

Lemma Math_max_3_not_below (p : num) :
  num_lt (Math_max (Fin (ofZ 3)) p) (Fin (ofZ 3)) = false.
Proof.
  destruct p as [| | |q]; try reflexivity.
  unfold Math_max. destruct (num_lt (Fin (ofZ 3)) (Fin q)) eqn:E.
  - simpl in *. destruct (Qc_ltb q (ofZ 3)) eqn:E'; [|reflexivity].
    apply Qc_ltb_lt in E, E'. exfalso.
    apply (Qclt_not_le _ _ E). now apply Qclt_le_weak.
  - apply num_lt_irrefl.
Qed.

Lemma AppSetup_loadFrom_nth (i j : nat) (pars : list (option num))
    (holes : list App.HoleState) (h' : App.HoleState) :
  nth_error (AppSetup.loadFrom i pars holes) j = Some h' ->
  exists h, nth_error holes j = Some h
            /\ App.teamPicks h' = App.teamPicks h
            /\ App.scores h' = App.scores h
            /\ App.par h' = match nth_error pars (i + j) with
                            | Some (Some p) => Num (Math_max (Fin (ofZ 3)) p)
                            | _ => Num (Fin (ofZ 4))
                            end.
Proof.
  revert i j. induction holes as [|x r IH]; intros i j H; simpl in *.
  - now destruct j.
  - destruct j as [|j]; simpl in *.
    + injection H as <-. exists x. rewrite Nat.add_0_r. auto.
    + destruct (IH (S i) j H) as [h [H1 H2]]. exists h.
      now rewrite Nat.add_succ_r.
Qed.

Lemma AppSetup_loadFrom_length (i : nat) (pars : list (option num))
    (holes : list App.HoleState) :
  length (AppSetup.loadFrom i pars holes) = length holes.
Proof.
  revert i. induction holes as [|x r IH]; intros i; simpl; auto.
Qed.

Lemma AppSetup_loadFrom_picks_scores (i : nat) (pars : list (option num))
    (holes : list App.HoleState) :
  map App.teamPicks (AppSetup.loadFrom i pars holes) = map App.teamPicks holes
  /\ map App.scores (AppSetup.loadFrom i pars holes) = map App.scores holes.
Proof.
  revert i. induction holes as [|x r IH]; intros i; simpl; [auto|].
  destruct (IH (S i)) as [H1 H2]. now rewrite H1, H2.
Qed.

(** X14.  [loadCourse] of [App.tsx] keeps the number of holes, the picks
    and the scores, and leaves no par empty or below 3: a stored par that is
    a finite number is raised to 3 if it is smaller, and it is then the
    target [computeDeltas] uses; an entry that is missing or is not a number
    gives the target 4. *)
Theorem X14_loadCourse_pars :
  forall (pars : list (option num)) (holes : list App.HoleState),
    length (AppSetup.loadCourse pars holes) = length holes
    /\ map App.teamPicks (AppSetup.loadCourse pars holes) = map App.teamPicks holes
    /\ map App.scores (AppSetup.loadCourse pars holes) = map App.scores holes
    /\ (forall i h', nth_error (AppSetup.loadCourse pars holes) i = Some h' ->
          (exists p, App.par h' = Num p /\ num_lt p (Fin (ofZ 3)) = false)
          /\ (forall q, nth_error pars i = Some (Some (Fin q)) ->
                App.holePar h' = Fin (if Qc_ltb (ofZ 3) q then q else ofZ 3))
          /\ (nth_error pars i = None \/ nth_error pars i = Some None ->
              App.holePar h' = Fin (ofZ 4))).
Proof.
  intros pars holes. unfold AppSetup.loadCourse.
  split; [apply AppSetup_loadFrom_length|].
  split; [apply AppSetup_loadFrom_picks_scores|].
  split; [apply AppSetup_loadFrom_picks_scores|].
  intros i h' H. destruct (AppSetup_loadFrom_nth 0 i pars holes h' H)
    as [h [_ [_ [_ Hp]]]]. simpl in Hp.
  split; [|split].
  - destruct (nth_error pars i) as [[p|]|].
    + exists (Math_max (Fin (ofZ 3)) p). split; [assumption|].
      apply Math_max_3_not_below.
    + exists (Fin (ofZ 4)). now split.
    + exists (Fin (ofZ 4)). now split.
  - intros q Hq. rewrite Hq in Hp. unfold App.holePar. rewrite Hp.
    unfold Math_max. simpl num_lt.
    destruct (Qc_ltb (ofZ 3) q) eqn:E; simpl isFinite; cbn [andb].
    + unfold num_le. simpl num_lt. now rewrite E.
    + reflexivity.
  - intros [Hn|Hn]; rewrite Hn in Hp; unfold App.holePar; now rewrite Hp.
Qed.

Lemma X14_loadCourse_pars_witness :
  let pars := [Some (Fin (ofZ 5)); Some (Fin (ofZ 2)); None] in
  let loaded := AppSetup.loadCourse pars [teamHoleA; soloHoleA; voidHoleA; blankParHole] in
  App.holePar (nth 1 loaded teamHoleA) = Fin (ofZ 3)
  /\ App.holePar (nth 2 loaded teamHoleA) = Fin (ofZ 4)
  /\ App.holePar (nth 3 loaded teamHoleA) = Fin (ofZ 4).
Proof.
  intros pars loaded.
  destruct (X14_loadCourse_pars pars [teamHoleA; soloHoleA; voidHoleA; blankParHole])
    as [_ [_ [_ H]]].
  destruct (H 1%nat (nth 1 loaded teamHoleA) eq_refl) as [_ [H1 _]].
  destruct (H 2%nat (nth 2 loaded teamHoleA) eq_refl) as [_ [_ H2]].
  destruct (H 3%nat (nth 3 loaded teamHoleA) eq_refl) as [_ [_ H3]].
  exact (conj (H1 (ofZ 2) eq_refl)
           (conj (H2 (or_intror eq_refl)) (H3 (or_introl eq_refl)))).
Defined.

Lemma App_settleAll_same_reads (s : App.Settings) (idx : list nat) (carry : nat)
    (hs hs' : list App.HoleState) :
  Forall2 (fun h h' => App.holePar h = App.holePar h'
                       /\ App.teamPicks h = App.teamPicks h'
                       /\ App.scores h = App.scores h') hs hs' ->
  App.settleAll s idx carry hs = App.settleAll s idx carry hs'.
Proof.
  intros H. revert carry. induction H as [|h h' hs hs' [Hp [Ht Hs]] _ IH];
    intros carry; simpl; [reflexivity|].
  now rewrite (App_settleHole_par s idx carry h h' Hp Ht Hs), IH.
Qed.

Lemma reload_par (h : App.HoleState) :
  parNotBelow3 h = true ->
  Num (Math_max (Fin (ofZ 3)) (AppSetup.parToSave h))
  = match App.par h with Blank => Num (Fin (ofZ 4)) | Num p => Num p end.
Proof.
  unfold parNotBelow3, AppSetup.parToSave.
  destruct (App.par h) as [|p]; [reflexivity|].
  intros H. apply negb_true_iff in H. f_equal.
  destruct p as [| | |q]; try reflexivity; try discriminate.
  unfold Math_max. simpl in *. destruct (Qc_ltb (ofZ 3) q) eqn:E; [reflexivity|].
  f_equal. apply Qcle_antisym; apply Qcnot_lt_le; intros Hlt;
    apply Qc_ltb_lt in Hlt; congruence.
Qed.

Lemma reload_from (pre holes : list App.HoleState) :
  forallb parNotBelow3 holes = true ->
  Forall2 (fun h h' => App.holePar h = App.holePar h'
                       /\ App.teamPicks h = App.teamPicks h'
                       /\ App.scores h = App.scores h'
                       /\ (App.par h' <> Blank -> h = h'))
    (AppSetup.loadFrom (length pre)
       (map (fun h => Some (AppSetup.parToSave h)) (pre ++ holes)) holes)
    holes.
Proof.
  revert pre. induction holes as [|x r IH]; intros pre H.
  - constructor.
  - simpl in H. apply andb_true_iff in H. destruct H as [Hx Hr].
    cbn [AppSetup.loadFrom]. constructor.
    + rewrite nth_error_map, nth_error_app2 by lia.
      rewrite Nat.sub_diag. cbn [nth_error option_map].
      rewrite (reload_par x Hx).
      unfold App.holePar. destruct x as [p picks scores]. cbn.
      destruct p as [|p]; repeat split; try reflexivity; congruence.
    + specialize (IH (pre ++ [x]) Hr). rewrite <- app_assoc in IH.
      rewrite length_app in IH. cbn [length app] in IH.
      now rewrite Nat.add_1_r in IH.
Qed.

(** X15.  Saving the pars of the holes and loading them back ([saveCourse]
    then [loadCourse] of [App.tsx]) does not change the settlement when no
    par is below 3: empty pars come back as 4, the others as they were, and
    [computeDeltas] returns the same deltas and totals. *)
Theorem X15_save_then_load_keeps_the_settlement :
  forall (holes : list App.HoleState),
    forallb parNotBelow3 holes = true ->
    let reloaded :=
      AppSetup.loadCourse (map (fun h => Some (AppSetup.parToSave h)) holes) holes in
    (forall s players,
        App.deltas (App.computeDeltas reloaded s players)
        = App.deltas (App.computeDeltas holes s players)
        /\ App.totals (App.computeDeltas reloaded s players)
           = App.totals (App.computeDeltas holes s players))
    /\ (Forall (fun h => App.par h <> Blank) holes -> reloaded = holes).
Proof.
  intros holes H reloaded. pose proof (reload_from [] holes H) as HF.
  simpl in HF. fold (AppSetup.loadCourse
    (map (fun h => Some (AppSetup.parToSave h)) holes) holes) in HF.
  fold reloaded in HF. split.
  - intros s players. unfold App.computeDeltas. cbn.
    rewrite (App_settleAll_same_reads s (activeIdx players) 0 reloaded holes);
      [now split|].
    eapply Forall2_impl; [|exact HF]. intros a b [H1 [H2 [H3 _]]]. auto.
  - intros Hnb. clear H. induction HF as [|h' h hs' hs [_ [_ [_ Heq]]] _ IH];
      [reflexivity|].
    inversion Hnb as [|? ? Hh Hhs]; subst. rewrite (Heq Hh). f_equal.
    now apply IH.
Qed.

Lemma X15_save_then_load_keeps_the_settlement_witness :
  forallb parNotBelow3 [teamHoleA; blankParHole] = true
  /\ App.deltas (App.computeDeltas
                   (AppSetup.loadCourse
                      (map (fun h => Some (AppSetup.parToSave h))
                         [teamHoleA; blankParHole])
                      [teamHoleA; blankParHole]) sampleApp four)
     = App.deltas (App.computeDeltas [teamHoleA; blankParHole] sampleApp four).
Proof.
  refine (conj eq_refl _).
  apply (proj1 (X15_save_then_load_keeps_the_settlement
                  [teamHoleA; blankParHole] eq_refl)).
Defined.

Lemma trimStart_blank (s : string) : trimNonEmpty s = false -> trimStart s = EmptyString.
Proof.
  induction s as [|c r IH]; simpl; [reflexivity|].
  intros H. apply orb_false_iff in H. destruct H as [Hc Hr].
  apply negb_false_iff in Hc. rewrite Hc. now apply IH.
Qed.

Lemma trimStart_named (s : string) :
  trimNonEmpty s = true ->
  exists c r, trimStart s = String c r /\ isSpace c = false.
Proof.
  induction s as [|c r IH]; simpl; [discriminate|].
  destruct (isSpace c) eqn:Ec; simpl; [exact IH|].
  intros _. now exists c, r.
Qed.

Lemma trimEnd_named (c : ascii) (r : string) :
  isSpace c = false -> isEmptyString (trimEnd (String c r)) = false.
Proof.
  intros Hc. simpl. rewrite Hc. now destruct (trimEnd r).
Qed.

(** The guard [!name.trim()] is the blank test of the player names. *)
Lemma trim_blank (s : string) : isEmptyString (trim s) = negb (trimNonEmpty s).
Proof.
  unfold trim. destruct (trimNonEmpty s) eqn:E.
  - destruct (trimStart_named s E) as [c [r [-> Hc]]]. now apply trimEnd_named.
  - now rewrite trimStart_blank.
Qed.

Lemma dropIndexFrom_last {A : Type} (i : nat) (xs : list A) (c : A) :
  dropIndexFrom i (i + length xs) (xs ++ [c]) = xs.
Proof.
  revert i. induction xs as [|x r IH]; intros i; simpl.
  - now rewrite Nat.add_0_r, Nat.eqb_refl.
  - destruct (Nat.eqb_spec i (i + S (length r))) as [E|_]; [lia|].
    f_equal. rewrite <- Nat.add_succ_comm. apply IH.
Qed.



(* ================================================================== *)
(** * Saving and loading a course in [part_000] *)

Lemma find_app {A : Type} (f : A -> bool) (l1 l2 : list A) :
  find f (l1 ++ l2) = match find f l1 with Some x => Some x | None => find f l2 end.
Proof.
  induction l1 as [|x r IH]; simpl; [reflexivity|]. now destruct (f x).
Qed.

Lemma find_others (n n' : string) (saved : list PartSetup.Course) :
  n' <> n ->
  find (fun x => String.eqb (PartSetup.name x) n')
    (filter (fun c => negb (String.eqb (PartSetup.name c) n)) saved)
  = find (fun x => String.eqb (PartSetup.name x) n') saved.
Proof.
  intros Hne. induction saved as [|c r IH]; simpl; [reflexivity|].
  destruct (String.eqb_spec (PartSetup.name c) n) as [E|E]; simpl.
  - destruct (String.eqb_spec (PartSetup.name c) n') as [E'|E']; [congruence|].
    exact IH.
  - now rewrite IH.
Qed.

Lemma filter_filter_none (n : string) (saved : list PartSetup.Course) :
  filter (fun c => String.eqb (PartSetup.name c) n)
    (filter (fun c => negb (String.eqb (PartSetup.name c) n)) saved) = [].
Proof.
  induction saved as [|c r IH]; simpl; [reflexivity|].
  destruct (String.eqb (PartSetup.name c) n) eqn:E; simpl; [exact IH|].
  now rewrite E.
Qed.

Lemma find_filter_none (n : string) (saved : list PartSetup.Course) :
  find (fun x => String.eqb (PartSetup.name x) n)
    (filter (fun c => negb (String.eqb (PartSetup.name c) n)) saved) = None.
Proof.
  induction saved as [|c r IH]; simpl; [reflexivity|].
  destruct (String.eqb (PartSetup.name c) n) eqn:E; simpl; [exact IH|].
  now rewrite E.
Qed.



Lemma PartSetup_reload_from (pre holes : list Part000.HoleState) :
  PartSetup.loadFrom (length pre) (map Part000.par (pre ++ holes)) holes
  = map Some holes.
Proof.
  revert pre. induction holes as [|h r IH]; intros pre; [reflexivity|].
  cbn [PartSetup.loadFrom map].
  rewrite nth_error_map, nth_error_app2 by lia.
  rewrite Nat.sub_diag. cbn [nth_error option_map].
  f_equal; [now destruct h|].
  specialize (IH (pre ++ [h])). rewrite <- app_assoc in IH.
  rewrite length_app in IH. cbn [length app] in IH.
  now rewrite Nat.add_1_r in IH.
Qed.

Lemma PartSetup_loadFrom_short (i j : nat) (pars : list num)
    (holes : list Part000.HoleState) :
  (j < length holes)%nat -> (length pars <= i + j)%nat ->
  nth_error (PartSetup.loadFrom i pars holes) j = Some None.
Proof.
  revert i j. induction holes as [|h r IH]; intros i j Hj Hlen; simpl in *; [lia|].
  destruct j as [|j]; simpl.
  - rewrite Nat.add_0_r in Hlen. apply nth_error_None in Hlen. now rewrite Hlen.
  - apply IH; lia.
Qed.

(** X18.  In [part_000] a saved course loads back exactly: saving the holes
    under a name and loading that name gives every hole back as it was, pars
    below 3 included; a course with fewer pars than there are holes leaves
    the par of the remaining holes undefined. *)
Theorem X18_part000_save_then_load :
  (forall (n : string) (holes : list Part000.HoleState)
          (saved : list PartSetup.Course),
      trimNonEmpty n = true ->
      exists c,
        PartSetup.findCourse n (PartSetup.saveCourse n holes saved) = Some c
        /\ PartSetup.loadCourse (PartSetup.pars c) holes = map Some holes)
  /\
  (forall (pars : list num) (holes : list Part000.HoleState) (j : nat),
      (length pars <= j)%nat -> (j < length holes)%nat ->
      nth_error (PartSetup.loadCourse pars holes) j = Some None).
Proof.
  split.
  - intros n holes saved H.
    exists {| PartSetup.name := n; PartSetup.pars := map Part000.par holes |}.
    split.
    + unfold PartSetup.saveCourse, PartSetup.findCourse. rewrite H.
      simpl negb. cbv iota zeta.
      rewrite find_app, find_filter_none. simpl. now rewrite String.eqb_refl.
    + apply (PartSetup_reload_from [] holes).
  - intros pars holes j H1 H2. now apply PartSetup_loadFrom_short.
Qed.

Lemma X18_part000_save_then_load_witness :
  let low := partHole (Fin (ofZ 2)) soloPicks soloScores in
  trimNonEmpty "Home"%string = true
  /\ (exists c,
        PartSetup.findCourse "Home"%string
          (PartSetup.saveCourse "Home"%string [teamHoleP; low] []) = Some c
        /\ PartSetup.loadCourse (PartSetup.pars c) [teamHoleP; low]
           = map Some [teamHoleP; low])
  /\ nth_error (PartSetup.loadCourse [Fin (ofZ 4)] [teamHoleP; low]) 1 = Some None.
Proof.
  intros low. destruct X18_part000_save_then_load as [H1 H2].
  refine (conj eq_refl (conj _ _)).
  - apply H1. reflexivity.
  - apply H2; simpl; lia.
Defined.

(* ================================================================== *)
(** * The random team generator *)

Lemma App_randomPicks_length coin k players :
  length (App_randomPicks coin k players) = length players.
Proof.
  revert k. induction players as [|p ps IH]; intros k; simpl; [reflexivity|].
  destruct (trimNonEmpty p); simpl; now rewrite IH.
Qed.

Lemma App_randomPicks_named coin k players i p :
  nth_error players i = Some p -> trimNonEmpty p = true ->
  exists d, nth_error (App_randomPicks coin k players) i
            = Some (if coin d then T1 else T2).
Proof.
  revert k i. induction players as [|q ps IH]; intros k i Hi Hp.
  - now destruct i.
  - destruct i as [|i]; simpl in *.
    + injection Hi as ->. rewrite Hp. simpl. now exists k.
    + destruct (trimNonEmpty q); simpl; now apply IH.
Qed.

Lemma App_randomPicks_blank coin k players i :
  (forall p, nth_error players i = Some p -> trimNonEmpty p = false) ->
  nth_error (App_randomPicks coin k players) i = Some Sit
  \/ nth_error (App_randomPicks coin k players) i = None.
Proof.
  revert k i. induction players as [|q ps IH]; intros k i Hi.
  - right. now destruct i.
  - destruct i as [|i]; simpl in *.
    + rewrite (Hi q eq_refl). now left.
    + destruct (trimNonEmpty q); simpl; now apply IH.
Qed.

Lemma Part000_randomPicks_length coin k i picks players :
  length (Part000_randomPicks coin k i picks players) = length picks.
Proof.
  revert k i. induction picks as [|x r IH]; intros k i; simpl; [reflexivity|].
  destruct (nth_error players i) as [p|]; [destruct (trimNonEmpty p)|];
    simpl; now rewrite IH.
Qed.

Lemma Part000_randomPicks_named coin k i picks players j p :
  (j < length picks)%nat ->
  nth_error players (i + j) = Some p -> trimNonEmpty p = true ->
  exists d, nth_error (Part000_randomPicks coin k i picks players) j
            = Some (if coin d then T1 else T2).
Proof.
  revert k i j. induction picks as [|x r IH]; intros k i j Hj Hi Hp; simpl in *.
  - lia.
  - destruct j as [|j].
    + rewrite Nat.add_0_r in Hi. rewrite Hi, Hp. simpl. now exists k.
    + rewrite <- Nat.add_succ_comm in Hi.
      destruct (nth_error players i) as [q|]; [destruct (trimNonEmpty q)|];
        simpl; apply IH; assumption || lia.
Qed.

Lemma Part000_randomPicks_blank coin k i picks players j :
  (forall p, nth_error players (i + j) = Some p -> trimNonEmpty p = false) ->
  nth_error (Part000_randomPicks coin k i picks players) j = Some Sit
  \/ nth_error (Part000_randomPicks coin k i picks players) j = None.
Proof.
  revert k i j. induction picks as [|x r IH]; intros k i j Hi; simpl in *.
  - right. now destruct j.
  - destruct j as [|j].
    + rewrite Nat.add_0_r in Hi.
      destruct (nth_error players i) as [q|]; [rewrite (Hi q eq_refl)|];
        simpl; now left.
    + assert (Hi' : forall p, nth_error players (S i + j) = Some p ->
                              trimNonEmpty p = false).
      { intros p Hp. apply Hi. now rewrite <- Nat.add_succ_comm. }
      destruct (nth_error players i) as [q|]; [destruct (trimNonEmpty q)|];
        simpl; now apply IH.
Qed.

Lemma pickIs_drawn (picks : list TeamPick) (oi : nat) (b : bool) :
  nth_error picks oi = Some (if b then T1 else T2) ->
  pickIs T1 picks oi = b /\ pickIs T2 picks oi = negb b.
Proof.
  unfold pickIs. intros ->. now destruct b.
Qed.

Lemma pickIs_sit_or_none (picks : list TeamPick) (oi : nat) :
  nth_error picks oi = Some Sit \/ nth_error picks oi = None ->
  pickIs T1 picks oi = false /\ pickIs T2 picks oi = false.
Proof.
  unfold pickIs. now intros [-> | ->].
Qed.

Lemma filter_split_length {A : Type} (f g : A -> bool) (l : list A) :
  (forall x, In x l -> g x = negb (f x)) ->
  (length (filter f l) + length (filter g l) = length l)%nat.
Proof.
  induction l as [|x r IH]; intros H; simpl; [reflexivity|].
  rewrite (H x (or_introl eq_refl)).
  assert (IH' := IH (fun y Hy => H y (or_intror Hy))).
  destruct (f x); simpl; lia.
Qed.

Lemma nth_active_named (players : list string) (aj : nat) :
  (aj < length (activeIdx players))%nat ->
  exists p, nth_error players (nth aj (activeIdx players) 0%nat) = Some p
            /\ trimNonEmpty p = true.
Proof.
  intros Haj.
  assert (Hin : In (nth aj (activeIdx players) 0%nat) (activeIdx players))
    by now apply nth_In.
  apply activeFrom_spec in Hin. destruct Hin as [_ [p Hp]].
  rewrite Nat.sub_0_r in Hp. now exists p.
Qed.

Lemma not_active_blank (players : list string) (i : nat) :
  ~ In i (activeIdx players) ->
  forall p, nth_error players i = Some p -> trimNonEmpty p = false.
Proof.
  intros Hn p Hp. destruct (trimNonEmpty p) eqn:E; [|reflexivity].
  exfalso. apply Hn. apply activeFrom_spec. split; [lia|].
  exists p. now rewrite Nat.sub_0_r.
Qed.




(* ================================================================== *)
(** * [NumberField] of [App.tsx] *)

Lemma num_lt_not_NaN (n m : num) : num_lt n m = true -> isNaN m = false.
Proof. destruct n, m; simpl; congruence. Qed.

Lemma NumberField_emits (Number : string -> num) (m : num) (val : string) (c : cell) :
  App_NumberField_onChange Number (Some m) val = Some c ->
  c = Blank
  \/ exists n, c = Num n /\ isNaN n = false /\ num_lt n m = false.
Proof.
  unfold App_NumberField_onChange.
  destruct (isEmptyString val); [intros H; injection H as <-; now left|].
  cbv zeta. destruct (isNaN (Number val)) eqn:En; simpl; [discriminate|].
  destruct (num_lt (Number val) m) eqn:El; intros H; injection H as <-; right.
  - exists m. split; [reflexivity|]. split; [|apply num_lt_irrefl].
    now apply num_lt_not_NaN in El.
  - now exists (Number val).
Qed.

(** X21.  [NumberField] of [App.tsx] passes on an empty box as empty, drops
    a text that is not a number, and otherwise passes a number that is not
    [NaN] and not below the minimum of the field: the number typed, or the
    minimum when the number typed is below it. *)
Theorem X21_NumberField_never_passes_NaN_or_less_than_min :
  forall (Number : string -> num) (min : num) (val : string),
    (val = EmptyString ->
     App_NumberField_onChange Number (Some min) val = Some Blank)
    /\ (val <> EmptyString -> isNaN (Number val) = true ->
        App_NumberField_onChange Number (Some min) val = None)
    /\ (val <> EmptyString -> isNaN (Number val) = false ->
        exists n,
          App_NumberField_onChange Number (Some min) val = Some (Num n)
          /\ isNaN n = false
          /\ num_lt n min = false
          /\ n = (if num_lt (Number val) min then min else Number val)).
Proof.
  intros Number min val. unfold App_NumberField_onChange.
  split; [intros ->; reflexivity|].
  split; intros Hv Hn; (destruct val as [|c r]; [congruence|]);
    cbn [isEmptyString]; cbv zeta; rewrite Hn; simpl; [reflexivity|].
  destruct (num_lt (Number (String c r)) min) eqn:El.
  - exists min. repeat split; [|apply num_lt_irrefl].
    now apply num_lt_not_NaN in El.
  - exists (Number (String c r)). now repeat split.
Qed.

Lemma X21_NumberField_never_passes_NaN_or_less_than_min_witness :
  let Number := fun s : string =>
    if String.eqb s "2"%string then Fin (ofZ 2) else NaN in
  App_NumberField_onChange Number (Some (Fin (ofZ 3))) "x"%string = None
  /\ exists n,
       App_NumberField_onChange Number (Some (Fin (ofZ 3))) "2"%string
       = Some (Num n)
       /\ num_lt n (Fin (ofZ 3)) = false.
Proof.
  intros Number.
  destruct (X21_NumberField_never_passes_NaN_or_less_than_min
              Number (Fin (ofZ 3)) "x"%string) as [_ [Hdrop _]].
  destruct (X21_NumberField_never_passes_NaN_or_less_than_min
              Number (Fin (ofZ 3)) "2"%string) as [_ [_ Hpass]].
  split.
  - apply Hdrop; [discriminate|reflexivity].
  - destruct Hpass as [n [H1 [_ [H2 _]]]]; [discriminate|reflexivity|].
    exists n. now split.
Defined.

(* ================================================================== *)
(** * The states of [SideBetsTracker] in [App.tsx] *)

Lemma setAt_length {A : Type} (xs : list A) (i : nat) (v : A) :
  length (setAt xs i v) = length xs.
Proof.
  revert i. induction xs as [|x r IH]; intros [|i]; simpl; auto.
Qed.

Lemma nth_error_setAt_same {A : Type} (xs : list A) (i : nat) (v : A) :
  (i < length xs)%nat -> nth_error (setAt xs i v) i = Some v.
Proof.
  revert i. induction xs as [|x r IH]; intros [|i] H; simpl in *; try lia;
    [reflexivity|]. apply IH. lia.
Qed.

Lemma nth_error_setAt_other {A : Type} (xs : list A) (i j : nat) (v : A) :
  j <> i -> nth_error (setAt xs i v) j = nth_error xs j.
Proof.
  revert i j. induction xs as [|x r IH]; intros [|i] [|j] H; simpl;
    try reflexivity; try congruence. apply IH. congruence.
Qed.

Lemma forallb_setAt {A : Type} (f : A -> bool) (xs : list A) (i : nat) (v : A) :
  forallb f xs = true -> f v = true -> forallb f (setAt xs i v) = true.
Proof.
  revert i. induction xs as [|x r IH]; intros [|i] H Hv; simpl in *;
    try reflexivity; apply andb_true_iff in H; destruct H as [Hx Hr].
  - now rewrite Hv, Hr.
  - now rewrite Hx, IH.
Qed.

Lemma writeAt_Some {A : Type} (xs : list A) (i : nat) (v : A) :
  (i < length xs)%nat -> writeAt xs i v = Some (setAt xs i v).
Proof.
  intros H. unfold writeAt. apply Nat.ltb_lt in H. now rewrite H.
Qed.

Lemma writeAt_inv {A : Type} (xs ys : list A) (i : nat) (v : A) :
  writeAt xs i v = Some ys -> (i < length xs)%nat /\ ys = setAt xs i v.
Proof.
  unfold writeAt. destruct (Nat.ltb_spec i (length xs)); [|discriminate].
  intros H'. injection H' as <-. now split.
Qed.

Lemma mapFrom_length {A B : Type} (k : nat) (f : A -> nat -> B) (xs : list A) :
  length (mapFrom k f xs) = length xs.
Proof.
  revert k. induction xs as [|x r IH]; intros k; simpl; auto.
Qed.

Lemma forallb_mapFrom {A : Type} (p : A -> bool) (k : nat) (f : A -> nat -> A)
    (xs : list A) :
  (forall x i, p x = true -> p (f x i) = true) ->
  forallb p xs = true -> forallb p (mapFrom k f xs) = true.
Proof.
  intros Hf. revert k. induction xs as [|x r IH]; intros k H; simpl in *;
    [reflexivity|].
  apply andb_true_iff in H. destruct H as [Hx Hr]. now rewrite Hf, IH.
Qed.

Lemma active_count_le (players : list string) :
  (length (filter trimNonEmpty players) <= length players)%nat.
Proof.
  induction players as [|p ps IH]; simpl; [lia|].
  destruct (trimNonEmpty p); simpl; lia.
Qed.

Lemma stateOk_spec (st : AppUI.State) :
  AppUI.stateOk st = true
  <-> length (AppUI.players st) = 5%nat
      /\ length (AppUI.holes st) = 18%nat
      /\ (0 <= AppUI.activeHole st <= 17)%Z
      /\ forallb AppUI.holeOk (AppUI.holes st) = true.
Proof.
  unfold AppUI.stateOk. rewrite !andb_true_iff, !Nat.eqb_eq, !Z.leb_le. tauto.
Qed.

Lemma holeOk_spec (h : App.HoleState) :
  AppUI.holeOk h = true
  <-> length (App.teamPicks h) = 5%nat
      /\ length (App.scores h) = 5%nat
      /\ parNotBelow3 h = true
      /\ forallb AppUI.scoreOk (App.scores h) = true.
Proof.
  unfold AppUI.holeOk. rewrite !andb_true_iff, !Nat.eqb_eq. tauto.
Qed.

Lemma stateOk_hole (st : AppUI.State) :
  AppUI.stateOk st = true ->
  exists h, AppUI.hole st = Some h /\ AppUI.holeOk h = true.
Proof.
  intros H. apply stateOk_spec in H. destruct H as [_ [Hh [Ha Hok]]].
  unfold AppUI.hole. destruct (Z.ltb_spec (AppUI.activeHole st) 0); [lia|].
  destruct (nth_error (AppUI.holes st) (Z.to_nat (AppUI.activeHole st))) as [h|] eqn:E.
  - exists h. split; [reflexivity|].
    rewrite forallb_forall in Hok. apply Hok. now apply nth_error_In in E.
  - apply nth_error_None in E. lia.
Qed.

Lemma onUpdate_ok (st : AppUI.State) (next : App.HoleState) :
  AppUI.stateOk st = true -> AppUI.holeOk next = true ->
  AppUI.stateOk (AppUI.onUpdate st next) = true.
Proof.
  intros H Hn. apply stateOk_spec in H. destruct H as [Hp [Hh [Ha Hok]]].
  apply stateOk_spec. unfold AppUI.onUpdate.
  cbn [AppUI.players AppUI.holes AppUI.activeHole].
  rewrite mapFrom_length. repeat split; try assumption; try lia.
  apply forallb_mapFrom; [|assumption].
  intros x i Hx. now destruct (Z.of_nat i =? AppUI.activeHole st)%Z.
Qed.

Lemma withPar_ok (Number : string -> num) (val : string) (v : cell)
    (h : App.HoleState) :
  App_NumberField_onChange Number (Some (Fin (ofZ 3))) val = Some v ->
  AppUI.holeOk h = true -> AppUI.holeOk (App_withPar v h) = true.
Proof.
  intros Hv H. apply holeOk_spec in H. destruct H as [H1 [H2 [_ H4]]].
  apply holeOk_spec. unfold App_withPar, parNotBelow3.
  cbn [App.par App.teamPicks App.scores]. repeat split; try assumption.
  destruct (NumberField_emits _ _ _ _ Hv) as [-> | [n [-> [_ Hn]]]];
    [reflexivity|]. now rewrite Hn.
Qed.

Lemma loadFrom_ok (i : nat) (pars : list (option num)) (hs : list App.HoleState) :
  forallb AppUI.holeOk hs = true ->
  forallb AppUI.holeOk (AppSetup.loadFrom i pars hs) = true.
Proof.
  revert i. induction hs as [|h r IH]; intros i H;
    cbn [forallb AppSetup.loadFrom] in *; [reflexivity|].
  apply andb_true_iff in H. destruct H as [Hh Hr].
  rewrite IH by assumption. rewrite andb_true_r.
  apply holeOk_spec in Hh. destruct Hh as [H1 [H2 [_ H4]]].
  apply holeOk_spec. cbn [App.par App.teamPicks App.scores].
  repeat split; try assumption. unfold parNotBelow3. cbn [App.par].
  destruct (nth_error pars i) as [[p|]|]; try reflexivity.
  now rewrite Math_max_3_not_below.
Qed.

Lemma randomize_ok (coin : nat -> bool) (players : list string) (h : App.HoleState) :
  length players = 5%nat -> AppUI.holeOk h = true ->
  AppUI.holeOk (App_randomizeTeams coin players h) = true.
Proof.
  intros Hp H. apply holeOk_spec in H. destruct H as [H1 [H2 [H3 H4]]].
  apply holeOk_spec. unfold App_randomizeTeams, parNotBelow3 in *.
  cbn [App.par App.teamPicks App.scores].
  rewrite App_randomPicks_length. now repeat split.
Qed.

(** Every event keeps a state of the expected shape in that shape. *)
Lemma step_ok (Number : string -> num) (st st' : AppUI.State) (ev : AppUI.Event) :
  AppUI.stateOk st = true -> AppUI.step Number st ev = Some st' ->
  AppUI.stateOk st' = true.
Proof.
  intros Hok Hstep.
  destruct (stateOk_hole st Hok) as [h [Hh Hhok]].
  assert (Hspec := proj1 (stateOk_spec st) Hok).
  destruct Hspec as [Hp [Hn [Ha Hall]]].
  destruct ev as [i text|i val|pars|val|i val|i val|coin| |];
    cbn [AppUI.step] in Hstep; try rewrite Hh in Hstep.
  - destruct (writeAt (AppUI.players st) i text) as [next|] eqn:E;
      [|discriminate]. injection Hstep as <-.
    apply writeAt_inv in E. destruct E as [_ ->].
    apply stateOk_spec. cbn [AppUI.players AppUI.holes AppUI.activeHole].
    rewrite setAt_length. now repeat split.
  - destruct (App_NumberField_onChange Number (Some (Fin (ofZ 3))) val)
      as [v|] eqn:E; injection Hstep as <-; [|assumption].
    apply stateOk_spec. cbn [AppUI.players AppUI.holes AppUI.activeHole].
    rewrite mapFrom_length. repeat split; try assumption; try lia.
    apply forallb_mapFrom; [|assumption].
    intros x hi Hx. destruct (hi =? i)%nat; [|assumption].
    now apply (withPar_ok Number val).
  - injection Hstep as <-.
    apply stateOk_spec. cbn [AppUI.players AppUI.holes AppUI.activeHole].
    unfold AppSetup.loadCourse. rewrite AppSetup_loadFrom_length.
    repeat split; try assumption; try lia. now apply loadFrom_ok.
  - destruct (App_NumberField_onChange Number (Some (Fin (ofZ 3))) val)
      as [v|] eqn:E; injection Hstep as <-; [|assumption].
    apply onUpdate_ok; [assumption|]. now apply (withPar_ok Number val).
  - unfold AppUI.editPick in Hstep.
    destruct (writeAt (App.teamPicks h) i val) as [tp|] eqn:E;
      [|discriminate]. injection Hstep as <-.
    apply writeAt_inv in E. destruct E as [_ ->].
    apply onUpdate_ok; [assumption|].
    apply holeOk_spec in Hhok. destruct Hhok as [H1 [H2 [H3 H4]]].
    apply holeOk_spec. unfold parNotBelow3 in *.
    cbn [App.par App.teamPicks App.scores]. rewrite setAt_length.
    now repeat split.
  - destruct (App_NumberField_onChange Number (Some (Fin (ofZ 1))) val)
      as [v|] eqn:Ev; [|injection Hstep as <-; assumption].
    unfold AppUI.editScore in Hstep.
    destruct (writeAt (App.scores h) i v) as [sc|] eqn:E;
      [|discriminate]. injection Hstep as <-.
    apply writeAt_inv in E. destruct E as [_ ->].
    apply onUpdate_ok; [assumption|].
    apply holeOk_spec in Hhok. destruct Hhok as [H1 [H2 [H3 H4]]].
    apply holeOk_spec. unfold parNotBelow3 in *.
    cbn [App.par App.teamPicks App.scores]. rewrite setAt_length.
    repeat split; try assumption.
    apply forallb_setAt; [assumption|].
    destruct (NumberField_emits _ _ _ _ Ev) as [-> | [n [-> [Hnan Hlt]]]];
      [reflexivity|]. simpl. now rewrite Hnan, Hlt.
  - injection Hstep as <-. apply onUpdate_ok; [assumption|].
    now apply randomize_ok.
  - injection Hstep as <-. apply stateOk_spec.
    cbn [AppUI.players AppUI.holes AppUI.activeHole].
    repeat split; try assumption; lia.
  - injection Hstep as <-. apply stateOk_spec.
    cbn [AppUI.players AppUI.holes AppUI.activeHole].
    repeat split; try assumption; lia.
Qed.

(** In a state of the expected shape every event on the screen is handled. *)
Lemma step_defined (Number : string -> num) (st : AppUI.State) (ev : AppUI.Event) :
  AppUI.stateOk st = true -> AppUI.offered st ev = true ->
  exists st', AppUI.step Number st ev = Some st'.
Proof.
  intros Hok Hoff.
  destruct (stateOk_hole st Hok) as [h [Hh Hhok]].
  assert (Hspec := proj1 (stateOk_spec st) Hok).
  destruct Hspec as [Hp [Hn [Ha Hall]]].
  apply holeOk_spec in Hhok. destruct Hhok as [H1 [H2 [H3 H4]]].
  assert (Hcount := active_count_le (AppUI.players st)).
  destruct ev as [i text|i val|pars|val|i val|i val|coin| |];
    cbn [AppUI.step AppUI.offered] in *; try rewrite Hh;
    try apply Nat.ltb_lt in Hoff.
  - rewrite writeAt_Some by assumption. simpl. eauto.
  - destruct (App_NumberField_onChange Number (Some (Fin (ofZ 3))) val); eauto.
  - eauto.
  - destruct (App_NumberField_onChange Number (Some (Fin (ofZ 3))) val); eauto.
  - unfold AppUI.editPick. rewrite writeAt_Some by lia. simpl. eauto.
  - destruct (App_NumberField_onChange Number (Some (Fin (ofZ 1))) val);
      [|eauto].
    unfold AppUI.editScore. rewrite writeAt_Some by lia. simpl. eauto.
  - eauto.
  - eauto.
  - eauto.
Qed.

Lemma reachable_ok (Number : string -> num) (st : AppUI.State) :
  AppUI.reachable Number st -> AppUI.stateOk st = true.
Proof.
  induction 1 as [|st st' ev _ IH _ Hstep]; [reflexivity|].
  now apply (step_ok Number st st' ev).
Qed.

(** X22.  Whatever is typed and pressed in [App.tsx], the component keeps
    five name slots and eighteen holes of five picks and five scores each,
    the current hole is one of the eighteen, no par is below 3 and no score
    is [NaN] or below 1; and every event on the screen is handled: the hole
    editor is never drawn for a missing hole and no handler writes past the
    end of an array. *)
Theorem X22_the_component_state_keeps_its_shape :
  forall (Number : string -> num) (st : AppUI.State),
    AppUI.reachable Number st ->
    AppUI.stateOk st = true
    /\ (exists h, AppUI.hole st = Some h)
    /\ (forall ev, AppUI.offered st ev = true ->
          exists st', AppUI.step Number st ev = Some st'
                      /\ AppUI.reachable Number st').
Proof.
  intros Number st Hr. assert (Hok := reachable_ok Number st Hr).
  split; [assumption|]. split.
  - destruct (stateOk_hole st Hok) as [h [Hh _]]. now exists h.
  - intros ev Hoff. destruct (step_defined Number st ev Hok Hoff) as [st' Hs].
    exists st'. split; [assumption|]. now apply (AppUI.reach_step Number st st' ev).
Qed.

Lemma X22_the_component_state_keeps_its_shape_witness :
  let Number := fun _ : string => Fin (ofZ 2) in
  AppUI.reachable Number AppUI.initial
  /\ exists st', AppUI.step Number AppUI.initial (AppUI.EntryScore 3 "2"%string)
                 = Some st'.
Proof.
  intros Number.
  assert (Hr : AppUI.reachable Number AppUI.initial) by constructor.
  refine (conj Hr _).
  destruct (X22_the_component_state_keeps_its_shape Number AppUI.initial Hr)
    as [_ [_ Hall]].
  destruct (Hall (AppUI.EntryScore 3 "2"%string) eq_refl) as [st' [Hs _]].
  now exists st'.
Defined.

(* ================================================================== *)
(** * The rows of the hole editor and the columns of the engine *)

Lemma nth_setAt_same {A : Type} (xs : list A) (i : nat) (v d : A) :
  (i < length xs)%nat -> nth i (setAt xs i v) d = v.
Proof.
  revert i. induction xs as [|x r IH]; intros [|i] H; simpl in *; try lia;
    [reflexivity|]. apply IH. lia.
Qed.

Lemma nth_setAt_other {A : Type} (xs : list A) (i j : nat) (v d : A) :
  j <> i -> nth j (setAt xs i v) d = nth j xs d.
Proof.
  revert i j. induction xs as [|x r IH]; intros [|i] [|j] H; simpl;
    try reflexivity; try congruence. apply IH. congruence.
Qed.

Lemma pickIs_setAt_same (picks : list TeamPick) (i : nat) (val tp : TeamPick) :
  (i < length picks)%nat -> pickIs tp (setAt picks i val) i = TeamPick_eqb val tp.
Proof.
  intros H. unfold pickIs. now rewrite nth_error_setAt_same.
Qed.

Lemma pickIs_setAt_other (picks : list TeamPick) (i j : nat) (val tp : TeamPick) :
  j <> i -> pickIs tp (setAt picks i val) j = pickIs tp picks j.
Proof.
  intros H. unfold pickIs. now rewrite nth_error_setAt_other.
Qed.

Lemma teamOf_same_reads (tp : TeamPick) (idx : list nat) (picks picks' : list TeamPick) :
  (forall aj, (aj < length idx)%nat ->
     pickIs tp picks (nth aj idx 0%nat) = pickIs tp picks' (nth aj idx 0%nat)) ->
  teamOf tp idx picks = teamOf tp idx picks'.
Proof.
  intros H. unfold teamOf. apply filter_ext_in. intros aj Haj.
  apply in_seq in Haj. apply H. lia.
Qed.

Lemma teamOf_bound (tp : TeamPick) (idx : list nat) (picks : list TeamPick) (aj : nat) :
  In aj (teamOf tp idx picks) -> (aj < length idx)%nat.
Proof.
  unfold teamOf. intros H. apply filter_In in H. destruct H as [H _].
  apply in_seq in H. lia.
Qed.

(** The engine reads a hole through its target and, for the slots of the
    listed players only, through the picks and the scores. *)
Lemma App_settleHole_reads (s : App.Settings) (idx : list nat) (carry : nat)
    (h h' : App.HoleState) :
  App.holePar h = App.holePar h' ->
  (forall aj tp, (aj < length idx)%nat ->
     pickIs tp (App.teamPicks h) (nth aj idx 0%nat)
     = pickIs tp (App.teamPicks h') (nth aj idx 0%nat)) ->
  (forall aj, (aj < length idx)%nat ->
     readScore (App.scores h) (nth aj idx 0%nat)
     = readScore (App.scores h') (nth aj idx 0%nat)) ->
  App.settleHole s idx carry h = App.settleHole s idx carry h'.
Proof.
  intros Hp Hpick Hscore. rewrite !App_settleHole_shape.
  rewrite (teamOf_same_reads T1 idx _ (App.teamPicks h'))
    by (intros aj Haj; now apply Hpick).
  rewrite (teamOf_same_reads T2 idx _ (App.teamPicks h'))
    by (intros aj Haj; now apply Hpick).
  assert (A1 : forall aj, In aj (teamOf T1 idx (App.teamPicks h')) ->
                 readScore (App.scores h) (nth aj idx 0%nat)
                 = readScore (App.scores h') (nth aj idx 0%nat))
    by (intros aj Haj; apply Hscore; now apply teamOf_bound in Haj).
  assert (A2 : forall aj, In aj (teamOf T2 idx (App.teamPicks h')) ->
                 readScore (App.scores h) (nth aj idx 0%nat)
                 = readScore (App.scores h') (nth aj idx 0%nat))
    by (intros aj Haj; apply Hscore; now apply teamOf_bound in Haj).
  revert A1 A2.
  destruct (teamOf T1 idx (App.teamPicks h')) as [|a t1];
    destruct (teamOf T2 idx (App.teamPicks h')) as [|b t2]; intros A1 A2.
  - reflexivity.
  - now apply (App_settleSolo_ext idx (App.scores h) (App.scores h') (b :: t2) A2).
  - now apply (App_settleSolo_ext idx (App.scores h) (App.scores h') (a :: t1) A1).
  - apply App_settleTeams_bests; try assumption.
    + now apply (App_teamBest_ext idx (App.scores h) (App.scores h') (a :: t1) A1).
    + now apply (App_teamBest_ext idx (App.scores h) (App.scores h') (b :: t2) A2).
Qed.

Lemma activeFrom_app (k : nat) (l1 l2 : list string) :
  activeFrom k (l1 ++ l2) = activeFrom k l1 ++ activeFrom (k + length l1) l2.
Proof.
  revert k. induction l1 as [|p r IH]; intros k; simpl.
  - now rewrite Nat.add_0_r.
  - rewrite IH, <- Nat.add_succ_comm. now destruct (trimNonEmpty p).
Qed.

Lemma activeFrom_all_named (k : nat) (l : list string) :
  forallb trimNonEmpty l = true -> activeFrom k l = seq k (length l).
Proof.
  revert k. induction l as [|p r IH]; intros k H; simpl in *; [reflexivity|].
  apply andb_true_iff in H. destruct H as [Hp Hr]. now rewrite Hp, IH.
Qed.

Lemma namesFirst_seq (players : list string) :
  AppUI.namesFirst players = true ->
  activeIdx players = seq 0 (length (activeIdx players)).
Proof.
  unfold AppUI.namesFirst. set (n := length (activeIdx players)). intros H.
  assert (Hn : (n <= length players)%nat).
  { unfold n, activeIdx. rewrite activeFrom_length. apply active_count_le. }
  assert (Hlen : length (firstn n players) = n)
    by (rewrite length_firstn; lia).
  assert (Hsplit : activeIdx players
                   = seq 0 n ++ activeFrom n (skipn n players)).
  { unfold activeIdx. rewrite <- (firstn_skipn n players) at 1.
    rewrite activeFrom_app, (activeFrom_all_named 0 _ H), Hlen. reflexivity. }
  assert (Hrest : activeFrom n (skipn n players) = []).
  { apply length_zero_iff_nil.
    assert (Hl : length (activeIdx players) = n) by reflexivity.
    rewrite Hsplit, length_app, length_seq in Hl. lia. }
  rewrite Hsplit, Hrest. now rewrite app_nil_r.
Qed.

Lemma rows_match_namesFirst (players : list string) :
  (forall j, (j < length (activeIdx players))%nat ->
     nth j (activeIdx players) 0%nat = j) ->
  AppUI.namesFirst players = true.
Proof.
  intros H. unfold AppUI.namesFirst. apply forallb_forall. intros p Hp.
  apply In_nth_error in Hp. destruct Hp as [j Hj].
  rewrite nth_error_firstn in Hj.
  destruct (Nat.ltb_spec j (length (activeIdx players))) as [Hlt|]; [|discriminate].
  destruct (nth_active_named players j Hlt) as [q [Hq Hn]].
  rewrite (H j Hlt) in Hq. congruence.
Qed.



Lemma StronglySorted_lt_NoDup (l : list nat) : StronglySorted lt l -> NoDup l.
Proof.
  induction 1 as [|a l _ IH Ha]; constructor; [|assumption].
  intros Hin. rewrite Forall_forall in Ha. specialize (Ha a Hin). lia.
Qed.

(** X24.  In [part_000] the editor row of a listed player is the row of the
    player's own slot: a pick chosen there is the pick the engine reads in
    the column of that player, and the pick of every other column is left as
    it was; the same holds for a score typed there. *)
Theorem X24_part000_editor_row_reaches_its_player :
  forall (players : list string) (aj : nat),
    let idx := activeIdx players in
    (aj < length idx)%nat ->
    (forall (val : TeamPick) (h h' : Part000.HoleState),
        PartUI.editPick (nth aj idx 0%nat) val h = Some h' ->
        (forall tp, pickIs tp (Part000.teamPicks h') (nth aj idx 0%nat)
                    = TeamPick_eqb val tp)
        /\ (forall ak tp, (ak < length idx)%nat -> ak <> aj ->
              pickIs tp (Part000.teamPicks h') (nth ak idx 0%nat)
              = pickIs tp (Part000.teamPicks h) (nth ak idx 0%nat))
        /\ Part000.scores h' = Part000.scores h
        /\ Part000.par h' = Part000.par h)
    /\ (forall (v : cell) (h h' : Part000.HoleState),
          PartUI.editScore (nth aj idx 0%nat) v h = Some h' ->
          readScore (Part000.scores h') (nth aj idx 0%nat) = v
          /\ (forall ak, (ak < length idx)%nat -> ak <> aj ->
                readScore (Part000.scores h') (nth ak idx 0%nat)
                = readScore (Part000.scores h) (nth ak idx 0%nat))
          /\ Part000.teamPicks h' = Part000.teamPicks h
          /\ Part000.par h' = Part000.par h).
Proof.
  intros players aj idx Haj.
  assert (Hnd : NoDup idx)
    by (apply StronglySorted_lt_NoDup, activeFrom_sorted).
  assert (Hother : forall ak, (ak < length idx)%nat -> ak <> aj ->
                     nth ak idx 0%nat <> nth aj idx 0%nat).
  { intros ak Hak Hne Heq. apply Hne.
    now apply (proj1 (NoDup_nth idx 0%nat) Hnd). }
  split.
  - intros val h h' He. unfold PartUI.editPick in He.
    destruct (writeAt (Part000.teamPicks h) (nth aj idx 0%nat) val) as [tp'|] eqn:E;
      [|discriminate].
    injection He as <-. apply writeAt_inv in E. destruct E as [Hi ->].
    cbn [Part000.teamPicks Part000.scores Part000.par].
    split; [|split; [|split; reflexivity]].
    + intros tp. now apply pickIs_setAt_same.
    + intros ak tp Hak Hne. apply pickIs_setAt_other. now apply Hother.
  - intros v h h' He. unfold PartUI.editScore in He.
    destruct (writeAt (Part000.scores h) (nth aj idx 0%nat) v) as [sc'|] eqn:E;
      [|discriminate].
    injection He as <-. apply writeAt_inv in E. destruct E as [Hi ->].
    cbn [Part000.teamPicks Part000.scores Part000.par]. unfold readScore.
    split; [|split; [|split; reflexivity]].
    + now apply nth_setAt_same.
    + intros ak Hak Hne. apply nth_setAt_other. now apply Hother.
Qed.

Lemma X24_part000_editor_row_reaches_its_player_witness :
  let players := [""; "B"; "C"]%string in
  let h := partHole (Fin (ofZ 4)) [Sit; T1; T2] [Blank; score 4; score 5] in
  let h' := partHole (Fin (ofZ 4)) [Sit; T2; T2] [Blank; score 4; score 5] in
  (0 < length (activeIdx players))%nat
  /\ PartUI.editPick (nth 0 (activeIdx players) 0%nat) T2 h = Some h'
  /\ pickIs T2 (Part000.teamPicks h') (nth 0 (activeIdx players) 0%nat) = true.
Proof.
  intros players h h'.
  assert (Hlt : (0 < length (activeIdx players))%nat) by (simpl; lia).
  assert (He : PartUI.editPick (nth 0 (activeIdx players) 0%nat) T2 h = Some h')
    by reflexivity.
  refine (conj Hlt (conj He _)).
  destruct (X24_part000_editor_row_reaches_its_player players 0%nat Hlt)
    as [Hpick _].
  destruct (Hpick T2 h h' He) as [Hval _].
  exact (Hval T2).
Defined.

(* ================================================================== *)
(** * The names are labels *)

Lemma activeFrom_same_blanks (k : nat) (players players' : list string) :
  map trimNonEmpty players = map trimNonEmpty players' ->
  activeFrom k players = activeFrom k players'.
Proof.
  revert k players'. induction players as [|p ps IH]; intros k [|q qs] H;
    simpl in *; try discriminate; [reflexivity|].
  injection H as Hp Hr. rewrite Hp, (IH (S k) qs Hr). reflexivity.
Qed.

Lemma activeFrom_blank_tail (k : nat) (players blanks : list string) :
  forallb (fun p => negb (trimNonEmpty p)) blanks = true ->
  activeFrom k (players ++ blanks) = activeFrom k players.
Proof.
  intros H. rewrite activeFrom_app.
  assert (Hb : forall j, activeFrom j blanks = []).
  { induction blanks as [|b r IH]; intros j; simpl in *; [reflexivity|].
    apply andb_true_iff in H. destruct H as [Hb Hr].
    apply negb_true_iff in Hb. rewrite Hb. now apply IH. }
  rewrite Hb. apply app_nil_r.
Qed.



(* ================================================================== *)
(** * Holes played one after the other *)

Lemma firstn_exact {A : Type} (n : nat) (a b : list A) :
  length a = n -> firstn n (a ++ b) = a.
Proof.
  intros <-. rewrite firstn_app, Nat.sub_diag, firstn_all. simpl.
  apply app_nil_r.
Qed.

Lemma skipn_exact {A : Type} (n : nat) (a b : list A) :
  length a = n -> skipn n (a ++ b) = b.
Proof.
  intros <-. rewrite skipn_app, Nat.sub_diag, skipn_all. reflexivity.
Qed.

(** X26.  The rows of the holes already played do not depend on the holes
    that follow: the matrix of a longer match starts with the matrix of the
    shorter one, and the rows of the further holes are those the loop writes
    from the carry the first holes leave.  In both variants. *)
Theorem X26_later_holes_do_not_change_earlier_rows :
  (forall (before after : list App.HoleState) s players,
      let idx := activeIdx players in
      let D := App.deltas (App.computeDeltas (before ++ after) s players) in
      firstn (length before) D = App.deltas (App.computeDeltas before s players)
      /\ skipn (length before) D
         = fst (App.settleAll s idx (snd (App.settleAll s idx 0 before)) after))
  /\
  (forall (before after : list Part000.HoleState) s players,
      let idx := activeIdx players in
      let D := Part000.deltas (Part000.computeDeltas (before ++ after) s players) in
      firstn (length before) D
      = Part000.deltas (Part000.computeDeltas before s players)
      /\ skipn (length before) D
         = fst (Part000.settleAll s idx
                  (snd (Part000.settleAll s idx 0 before)) after)).
Proof.
  split; intros before after s players idx D; subst D idx; cbn.
  - rewrite App_settleAll_app. cbn [fst].
    split; [apply firstn_exact|apply skipn_exact]; apply App_settleAll_length.
  - rewrite Part000_settleAll_app. cbn [fst].
    split; [apply firstn_exact|apply skipn_exact]; apply Part000_settleAll_length.
Qed.

Lemma allBlank_app (idx : list nat) (scores : list cell) (a b : list nat) :
  allBlank idx scores (a ++ b) = allBlank idx scores a && allBlank idx scores b.
Proof. unfold allBlank. apply forallb_app. Qed.

Lemma App_unplayed_settle s idx carry (h : App.HoleState) :
  unplayed idx (App.teamPicks h) (App.scores h) = true ->
  App.settleHole s idx carry h = (zeroRow (length idx), carry).
Proof.
  unfold unplayed, populated. rewrite allBlank_app, andb_true_iff.
  intros [A1 A2]. rewrite App_settleHole_shape. revert A1 A2.
  destruct (teamOf T1 idx (App.teamPicks h)) as [|a t1];
    destruct (teamOf T2 idx (App.teamPicks h)) as [|b t2]; intros A1 A2.
  - reflexivity.
  - rewrite App_settleSolo_clean by now apply allBlank_clean.
    now rewrite allBlank_groupBest.
  - rewrite App_settleSolo_clean by now apply allBlank_clean.
    now rewrite allBlank_groupBest.
  - apply App_settleTeams_void. left.
    rewrite App_teamBest_clean by now apply allBlank_clean.
    now rewrite allBlank_groupBest.
Qed.

Lemma Part000_unplayed_settle s idx carry (h : Part000.HoleState) :
  unplayed idx (Part000.teamPicks h) (Part000.scores h) = true ->
  Part000.settleHole s idx carry h = (zeroRow (length idx), carry).
Proof.
  unfold unplayed, populated. rewrite allBlank_app, andb_true_iff.
  intros [A1 A2]. rewrite Part000_settleHole_shape. revert A1 A2.
  destruct (teamOf T1 idx (Part000.teamPicks h)) as [|a t1];
    destruct (teamOf T2 idx (Part000.teamPicks h)) as [|b t2]; intros A1 A2.
  - reflexivity.
  - rewrite Part000_settleSolo_clean by now apply allBlank_clean.
    now rewrite allBlank_groupBest.
  - rewrite Part000_settleSolo_clean by now apply allBlank_clean.
    now rewrite allBlank_groupBest.
  - apply Part000_settleTeams_void. left.
    rewrite Part000_bestOfTeam_clean by now apply allBlank_clean.
    now rewrite allBlank_groupBest.
Qed.

Lemma addRowFrom_zero (i m : nat) (totals : list Qc) :
  addRowFrom i (zeroRow m) totals = totals.
Proof.
  revert i. unfold zeroRow. induction m as [|m IH]; intros i; simpl;
    [reflexivity|].
  rewrite upd_fixed by (intros d; ring). apply IH.
Qed.

Lemma sumColumns_skip_zero (n m : nat) (a b : list (list Qc)) :
  sumColumns n (a ++ zeroRow m :: b) = sumColumns n (a ++ b).
Proof.
  unfold sumColumns. rewrite !fold_left_app. simpl.
  now rewrite addRowFrom_zero.
Qed.

(** X27.  A hole that is not played -- nobody on a team has a score in the
    box, as on every hole when the match starts -- gets a row of zeros and
    passes the carry on as it found it: with or without that hole the other
    holes get the same rows and the totals are the same.  In both
    variants. *)
Theorem X27_unplayed_holes_change_nothing :
  (forall (before after : list App.HoleState) (h : App.HoleState) s players,
      let idx := activeIdx players in
      unplayed idx (App.teamPicks h) (App.scores h) = true ->
      let D := App.deltas (App.computeDeltas (before ++ after) s players) in
      App.deltas (App.computeDeltas (before ++ h :: after) s players)
      = firstn (length before) D ++ zeroRow (length idx)
          :: skipn (length before) D
      /\ App.totals (App.computeDeltas (before ++ h :: after) s players)
         = App.totals (App.computeDeltas (before ++ after) s players))
  /\
  (forall (before after : list Part000.HoleState) (h : Part000.HoleState)
          s players,
      let idx := activeIdx players in
      unplayed idx (Part000.teamPicks h) (Part000.scores h) = true ->
      let D := Part000.deltas (Part000.computeDeltas (before ++ after) s players) in
      Part000.deltas (Part000.computeDeltas (before ++ h :: after) s players)
      = firstn (length before) D ++ zeroRow (length idx)
          :: skipn (length before) D
      /\ Part000.totals (Part000.computeDeltas (before ++ h :: after) s players)
         = Part000.totals (Part000.computeDeltas (before ++ after) s players)).
Proof.
  split; intros before after h s players idx Hu D; subst D; cbn.
  - rewrite !App_settleAll_app. cbn [fst App.settleAll].
    rewrite (App_unplayed_settle s idx _ h Hu). cbn [fst snd].
    rewrite firstn_exact, skipn_exact by apply App_settleAll_length.
    split; [reflexivity|]. apply sumColumns_skip_zero.
  - rewrite !Part000_settleAll_app. cbn [fst Part000.settleAll].
    rewrite (Part000_unplayed_settle s idx _ h Hu). cbn [fst snd].
    rewrite firstn_exact, skipn_exact by apply Part000_settleAll_length.
    split; [reflexivity|]. apply sumColumns_skip_zero.
Qed.

Lemma X27_unplayed_holes_change_nothing_witness :
  unplayed (activeIdx four) (App.teamPicks AppUI.initialHole)
    (App.scores AppUI.initialHole) = true
  /\ App.totals (App.computeDeltas ([teamHoleA] ++ AppUI.initialHole :: [soloHoleA])
                   sampleApp four)
     = App.totals (App.computeDeltas ([teamHoleA] ++ [soloHoleA]) sampleApp four).
Proof.
  assert (Hu : unplayed (activeIdx four) (App.teamPicks AppUI.initialHole)
                 (App.scores AppUI.initialHole) = true) by reflexivity.
  refine (conj Hu _).
  apply (proj1 X27_unplayed_holes_change_nothing [teamHoleA] [soloHoleA]
           AppUI.initialHole sampleApp four Hu).
Defined.
